(** * transmission-remote: command-line front end of the Transmission daemon

    A shallow embedding of the parts of [remote.cc] that build RPC requests
    from command-line options and render the daemon's answers, followed by a
    model of the piece-assembly engine described in the design document.

    Conventions.
    - C integers are [Z]; the widths that matter are written out where a
      conversion happens ([wrap_int], [clamp_long]).
    - A [char const*] is a [string]; a possibly null one is an [option string].
      A C string ends at its first NUL, which [c_str] makes explicit.
    - [stderr] is a list of lines, threaded explicitly.
    - Functions of libtransmission that are not part of the sources read here
      are fields of the class [Externals]. *)

From stdpp Require Import base strings list gmap.
From Stdlib Require Import Ascii ZArith Lia.

Local Open Scope Z_scope.

(** ** The C library functions the program calls *)

Module CLib.

Definition char_code (c : ascii) : Z := Z.of_N (N_of_ascii c).

Definition NUL : ascii := ascii_of_N 0.

(** What a [char const*] pointing at [s] denotes: the characters before the
    first NUL. *)
Fixpoint c_str (s : string) : string :=
  match s with
  | EmptyString => EmptyString
  | String c r => if (char_code c =? 0) then EmptyString else String c (c_str r)
  end.

Definition strlen (s : string) : Z := Z.of_nat (String.length (c_str s)).

(** [s[i]], reading the terminating NUL at and past the end. *)
Definition char_at (s : string) (i : nat) : ascii :=
  match String.get i (c_str s) with
  | Some c => c
  | None => NUL
  end.

Definition strcmp_eq (a b : string) : bool := String.eqb (c_str a) (c_str b).

Fixpoint mem_char (c : ascii) (s : string) : bool :=
  match s with
  | EmptyString => false
  | String d r => Ascii.eqb c d || mem_char c r
  end.

(** [strchr(s, c) != nullptr], for a [c] other than NUL. *)
Definition strchr_found (s : string) (c : ascii) : bool := mem_char c (c_str s).

Definition isdigit (c : ascii) : bool :=
  (48 <=? char_code c) && (char_code c <=? 57).

(** The "C" locale: space, and the controls from tab to carriage return. *)
Definition isspace (c : ascii) : bool :=
  (char_code c =? 32) || ((9 <=? char_code c) && (char_code c <=? 13)).

Definition digit_value (c : ascii) : Z := char_code c - 48.

Fixpoint skip_space (s : string) : string :=
  match s with
  | String c r => if isspace c then skip_space r else s
  | EmptyString => s
  end.

(** The longest run of decimal digits at the head of [s], accumulated on
    [acc], and what follows it. *)
Fixpoint scan_digits (acc : Z) (s : string) : Z * string :=
  match s with
  | String c r =>
      if isdigit c then scan_digits (10 * acc + digit_value c) r else (acc, s)
  | EmptyString => (acc, s)
  end.

Definition LONG_MAX : Z := 2 ^ 63 - 1.
Definition LONG_MIN : Z := - 2 ^ 63.

Definition clamp_long (z : Z) : Z := Z.max LONG_MIN (Z.min LONG_MAX z).

(** Conversion to a 32-bit [int], as two's complement does it. *)
Definition wrap_int (z : Z) : Z := (z + 2 ^ 31) mod 2 ^ 32 - 2 ^ 31.

(** [strtol(nptr, &end, 10)] with a 64-bit [long]: the value, and the text
    [end] points at. When no digit is found nothing is converted and [end]
    is [nptr] itself. *)
Definition strtol (nptr : string) : Z * string :=
  let s := skip_space (c_str nptr) in
  let '(neg, body) :=
    match s with
    | String c r =>
        if (char_code c =? 45) then (true, r)
        else if (char_code c =? 43) then (false, r)
        else (false, s)
    | EmptyString => (false, s)
    end in
  match body with
  | String c _ =>
      if isdigit c then
        let '(v, rest) := scan_digits 0 body in
        (clamp_long (if neg then - v else v), rest)
      else (0, c_str nptr)
  | EmptyString => (0, c_str nptr)
  end.

(** [atoi(s)] is [(int) strtol(s, nullptr, 10)]. *)
Definition atoi (s : string) : Z := wrap_int (fst (strtol s)).

(** The decimal digits of [n] in front of [acc]; [fuel] bounds their number. *)
Fixpoint decimal_digits (fuel : nat) (n : N) (acc : string) : string :=
  match fuel with
  | O => acc
  | S fuel =>
      let acc := String (ascii_of_N (48 + n mod 10)) acc in
      if (n / 10 =? 0)%N then acc else decimal_digits fuel (n / 10)%N acc
  end.

(** What [printf] writes for ["%d"] and its wider kin. *)
Definition decimal (z : Z) : string :=
  let n := Z.to_N (Z.abs z) in
  let digits := decimal_digits (S (N.to_nat (N.log2 n))) n EmptyString in
  if z <? 0 then String (ascii_of_N 45) digits else digits.

Definition EXIT_SUCCESS : Z := 0.
Definition EXIT_FAILURE : Z := 1.

End CLib.

Import CLib.

(** ** Dictionary keys

    The quarks [remote.cc] names in the functions embedded below. *)

Inductive tr_quark : Set :=
  | TR_KEY_ids | TR_KEY_labels | TR_KEY_files | TR_KEY_name
  | TR_KEY_priorities | TR_KEY_wanted | TR_KEY_activityDate
  | TR_KEY_addedDate | TR_KEY_bandwidthPriority | TR_KEY_comment
  | TR_KEY_corruptEver | TR_KEY_creator | TR_KEY_dateCreated
  | TR_KEY_desiredAvailable | TR_KEY_doneDate | TR_KEY_downloadDir
  | TR_KEY_downloadedEver | TR_KEY_downloadLimit | TR_KEY_downloadLimited
  | TR_KEY_error | TR_KEY_errorString | TR_KEY_eta | TR_KEY_hashString
  | TR_KEY_haveUnchecked | TR_KEY_haveValid | TR_KEY_honorsSessionLimits
  | TR_KEY_id | TR_KEY_isFinished | TR_KEY_isPrivate | TR_KEY_leftUntilDone
  | TR_KEY_magnetLink | TR_KEY_peersConnected | TR_KEY_peersGettingFromUs
  | TR_KEY_peersSendingToUs | TR_KEY_peer_limit | TR_KEY_pieceCount
  | TR_KEY_pieceSize | TR_KEY_rateDownload | TR_KEY_rateUpload
  | TR_KEY_recheckProgress | TR_KEY_secondsDownloading
  | TR_KEY_secondsSeeding | TR_KEY_seedRatioMode | TR_KEY_seedRatioLimit
  | TR_KEY_sizeWhenDone | TR_KEY_source | TR_KEY_startDate | TR_KEY_status
  | TR_KEY_totalSize | TR_KEY_uploadedEver | TR_KEY_uploadLimit
  | TR_KEY_uploadLimited | TR_KEY_webseeds | TR_KEY_webseedsSendingToUs
  | TR_KEY_uploadRatio | TR_KEY_arguments | TR_KEY_torrents | TR_KEY_result
  | TR_KEY_tag | TR_KEY_torrent_added | TR_KEY_method | TR_KEY_metainfo
  | TR_KEY_filename | TR_KEY_fields | TR_KEY_script_torrent_done_filename
  | TR_KEY_script_torrent_done_enabled
  | TR_KEY_script_torrent_done_seeding_filename
  | TR_KEY_script_torrent_done_seeding_enabled | TR_KEY_alt_speed_enabled
  | TR_KEY_alt_speed_down | TR_KEY_alt_speed_up
  | TR_KEY_alt_speed_time_enabled | TR_KEY_alt_speed_time_begin
  | TR_KEY_alt_speed_time_end | TR_KEY_alt_speed_time_day
  | TR_KEY_incomplete_dir | TR_KEY_incomplete_dir_enabled
  | TR_KEY_cache_size_mb | TR_KEY_encryption | TR_KEY_port_forwarding_enabled
  | TR_KEY_dht_enabled | TR_KEY_utp_enabled | TR_KEY_peer_port
  | TR_KEY_peer_port_random_on_start | TR_KEY_pex_enabled
  | TR_KEY_lpd_enabled | TR_KEY_seedRatioLimited
  | TR_KEY_start_added_torrents | TR_KEY_trash_original_torrent_files
  | TR_KEY_speed_limit_down | TR_KEY_speed_limit_down_enabled
  | TR_KEY_speed_limit_up | TR_KEY_speed_limit_up_enabled
  | TR_KEY_peer_limit_global | TR_KEY_trackerRemove | TR_KEY_files_wanted
  | TR_KEY_files_unwanted | TR_KEY_priority_high | TR_KEY_priority_normal
  | TR_KEY_priority_low | TR_KEY_trackerAdd | TR_KEY_download_dir
  | TR_KEY_location | TR_KEY_move | TR_KEY_paused | TR_KEY_delete_local_data
  | TR_KEY_pieces.

Definition quark_index (k : tr_quark) : N :=
  match k with
  | TR_KEY_ids => 0 | TR_KEY_labels => 1 | TR_KEY_files => 2
  | TR_KEY_name => 3 | TR_KEY_priorities => 4 | TR_KEY_wanted => 5
  | TR_KEY_activityDate => 6 | TR_KEY_addedDate => 7
  | TR_KEY_bandwidthPriority => 8 | TR_KEY_comment => 9
  | TR_KEY_corruptEver => 10 | TR_KEY_creator => 11
  | TR_KEY_dateCreated => 12 | TR_KEY_desiredAvailable => 13
  | TR_KEY_doneDate => 14 | TR_KEY_downloadDir => 15
  | TR_KEY_downloadedEver => 16 | TR_KEY_downloadLimit => 17
  | TR_KEY_downloadLimited => 18 | TR_KEY_error => 19
  | TR_KEY_errorString => 20 | TR_KEY_eta => 21 | TR_KEY_hashString => 22
  | TR_KEY_haveUnchecked => 23 | TR_KEY_haveValid => 24
  | TR_KEY_honorsSessionLimits => 25 | TR_KEY_id => 26
  | TR_KEY_isFinished => 27 | TR_KEY_isPrivate => 28
  | TR_KEY_leftUntilDone => 29 | TR_KEY_magnetLink => 30
  | TR_KEY_peersConnected => 31 | TR_KEY_peersGettingFromUs => 32
  | TR_KEY_peersSendingToUs => 33 | TR_KEY_peer_limit => 34
  | TR_KEY_pieceCount => 35 | TR_KEY_pieceSize => 36
  | TR_KEY_rateDownload => 37 | TR_KEY_rateUpload => 38
  | TR_KEY_recheckProgress => 39 | TR_KEY_secondsDownloading => 40
  | TR_KEY_secondsSeeding => 41 | TR_KEY_seedRatioMode => 42
  | TR_KEY_seedRatioLimit => 43 | TR_KEY_sizeWhenDone => 44
  | TR_KEY_source => 45 | TR_KEY_startDate => 46 | TR_KEY_status => 47
  | TR_KEY_totalSize => 48 | TR_KEY_uploadedEver => 49
  | TR_KEY_uploadLimit => 50 | TR_KEY_uploadLimited => 51
  | TR_KEY_webseeds => 52 | TR_KEY_webseedsSendingToUs => 53
  | TR_KEY_uploadRatio => 54 | TR_KEY_arguments => 55 | TR_KEY_torrents => 56
  | TR_KEY_result => 57 | TR_KEY_tag => 58 | TR_KEY_torrent_added => 59
  | TR_KEY_method => 60 | TR_KEY_metainfo => 61 | TR_KEY_filename => 62
  | TR_KEY_fields => 63 | TR_KEY_script_torrent_done_filename => 64
  | TR_KEY_script_torrent_done_enabled => 65
  | TR_KEY_script_torrent_done_seeding_filename => 66
  | TR_KEY_script_torrent_done_seeding_enabled => 67
  | TR_KEY_alt_speed_enabled => 68 | TR_KEY_alt_speed_down => 69
  | TR_KEY_alt_speed_up => 70 | TR_KEY_alt_speed_time_enabled => 71
  | TR_KEY_alt_speed_time_begin => 72 | TR_KEY_alt_speed_time_end => 73
  | TR_KEY_alt_speed_time_day => 74 | TR_KEY_incomplete_dir => 75
  | TR_KEY_incomplete_dir_enabled => 76 | TR_KEY_cache_size_mb => 77
  | TR_KEY_encryption => 78 | TR_KEY_port_forwarding_enabled => 79
  | TR_KEY_dht_enabled => 80 | TR_KEY_utp_enabled => 81
  | TR_KEY_peer_port => 82 | TR_KEY_peer_port_random_on_start => 83
  | TR_KEY_pex_enabled => 84 | TR_KEY_lpd_enabled => 85
  | TR_KEY_seedRatioLimited => 86 | TR_KEY_start_added_torrents => 87
  | TR_KEY_trash_original_torrent_files => 88 | TR_KEY_speed_limit_down => 89
  | TR_KEY_speed_limit_down_enabled => 90 | TR_KEY_speed_limit_up => 91
  | TR_KEY_speed_limit_up_enabled => 92 | TR_KEY_peer_limit_global => 93
  | TR_KEY_trackerRemove => 94 | TR_KEY_files_wanted => 95
  | TR_KEY_files_unwanted => 96 | TR_KEY_priority_high => 97
  | TR_KEY_priority_normal => 98 | TR_KEY_priority_low => 99
  | TR_KEY_trackerAdd => 100 | TR_KEY_download_dir => 101
  | TR_KEY_location => 102 | TR_KEY_move => 103 | TR_KEY_paused => 104
  | TR_KEY_delete_local_data => 105 | TR_KEY_pieces => 106
  end%N.

Definition quark_of_index (n : N) : option tr_quark :=
  match n with
  | 0 => Some TR_KEY_ids | 1 => Some TR_KEY_labels | 2 => Some TR_KEY_files
  | 3 => Some TR_KEY_name | 4 => Some TR_KEY_priorities
  | 5 => Some TR_KEY_wanted | 6 => Some TR_KEY_activityDate
  | 7 => Some TR_KEY_addedDate | 8 => Some TR_KEY_bandwidthPriority
  | 9 => Some TR_KEY_comment | 10 => Some TR_KEY_corruptEver
  | 11 => Some TR_KEY_creator | 12 => Some TR_KEY_dateCreated
  | 13 => Some TR_KEY_desiredAvailable | 14 => Some TR_KEY_doneDate
  | 15 => Some TR_KEY_downloadDir | 16 => Some TR_KEY_downloadedEver
  | 17 => Some TR_KEY_downloadLimit | 18 => Some TR_KEY_downloadLimited
  | 19 => Some TR_KEY_error | 20 => Some TR_KEY_errorString
  | 21 => Some TR_KEY_eta | 22 => Some TR_KEY_hashString
  | 23 => Some TR_KEY_haveUnchecked | 24 => Some TR_KEY_haveValid
  | 25 => Some TR_KEY_honorsSessionLimits | 26 => Some TR_KEY_id
  | 27 => Some TR_KEY_isFinished | 28 => Some TR_KEY_isPrivate
  | 29 => Some TR_KEY_leftUntilDone | 30 => Some TR_KEY_magnetLink
  | 31 => Some TR_KEY_peersConnected | 32 => Some TR_KEY_peersGettingFromUs
  | 33 => Some TR_KEY_peersSendingToUs | 34 => Some TR_KEY_peer_limit
  | 35 => Some TR_KEY_pieceCount | 36 => Some TR_KEY_pieceSize
  | 37 => Some TR_KEY_rateDownload | 38 => Some TR_KEY_rateUpload
  | 39 => Some TR_KEY_recheckProgress | 40 => Some TR_KEY_secondsDownloading
  | 41 => Some TR_KEY_secondsSeeding | 42 => Some TR_KEY_seedRatioMode
  | 43 => Some TR_KEY_seedRatioLimit | 44 => Some TR_KEY_sizeWhenDone
  | 45 => Some TR_KEY_source | 46 => Some TR_KEY_startDate
  | 47 => Some TR_KEY_status | 48 => Some TR_KEY_totalSize
  | 49 => Some TR_KEY_uploadedEver | 50 => Some TR_KEY_uploadLimit
  | 51 => Some TR_KEY_uploadLimited | 52 => Some TR_KEY_webseeds
  | 53 => Some TR_KEY_webseedsSendingToUs | 54 => Some TR_KEY_uploadRatio
  | 55 => Some TR_KEY_arguments | 56 => Some TR_KEY_torrents
  | 57 => Some TR_KEY_result | 58 => Some TR_KEY_tag
  | 59 => Some TR_KEY_torrent_added | 60 => Some TR_KEY_method
  | 61 => Some TR_KEY_metainfo | 62 => Some TR_KEY_filename
  | 63 => Some TR_KEY_fields | 64 => Some TR_KEY_script_torrent_done_filename
  | 65 => Some TR_KEY_script_torrent_done_enabled
  | 66 => Some TR_KEY_script_torrent_done_seeding_filename
  | 67 => Some TR_KEY_script_torrent_done_seeding_enabled
  | 68 => Some TR_KEY_alt_speed_enabled | 69 => Some TR_KEY_alt_speed_down
  | 70 => Some TR_KEY_alt_speed_up | 71 => Some TR_KEY_alt_speed_time_enabled
  | 72 => Some TR_KEY_alt_speed_time_begin
  | 73 => Some TR_KEY_alt_speed_time_end
  | 74 => Some TR_KEY_alt_speed_time_day | 75 => Some TR_KEY_incomplete_dir
  | 76 => Some TR_KEY_incomplete_dir_enabled
  | 77 => Some TR_KEY_cache_size_mb | 78 => Some TR_KEY_encryption
  | 79 => Some TR_KEY_port_forwarding_enabled | 80 => Some TR_KEY_dht_enabled
  | 81 => Some TR_KEY_utp_enabled | 82 => Some TR_KEY_peer_port
  | 83 => Some TR_KEY_peer_port_random_on_start
  | 84 => Some TR_KEY_pex_enabled | 85 => Some TR_KEY_lpd_enabled
  | 86 => Some TR_KEY_seedRatioLimited
  | 87 => Some TR_KEY_start_added_torrents
  | 88 => Some TR_KEY_trash_original_torrent_files
  | 89 => Some TR_KEY_speed_limit_down
  | 90 => Some TR_KEY_speed_limit_down_enabled
  | 91 => Some TR_KEY_speed_limit_up
  | 92 => Some TR_KEY_speed_limit_up_enabled
  | 93 => Some TR_KEY_peer_limit_global | 94 => Some TR_KEY_trackerRemove
  | 95 => Some TR_KEY_files_wanted | 96 => Some TR_KEY_files_unwanted
  | 97 => Some TR_KEY_priority_high | 98 => Some TR_KEY_priority_normal
  | 99 => Some TR_KEY_priority_low | 100 => Some TR_KEY_trackerAdd
  | 101 => Some TR_KEY_download_dir | 102 => Some TR_KEY_location
  | 103 => Some TR_KEY_move | 104 => Some TR_KEY_paused
  | 105 => Some TR_KEY_delete_local_data | 106 => Some TR_KEY_pieces
  | _ => None
  end%N.

Definition quark_eqb (a b : tr_quark) : bool :=
  N.eqb (quark_index a) (quark_index b).

Definition Arguments : tr_quark := TR_KEY_arguments.

(** ** Variants *)

(** Modelled from the spec: [tr_variant] and its [tr_variantDict*] and
    [tr_variantList*] functions, which live in libtransmission's variant.h and
    are not among the sources. The design notes call it a growable opaque
    dictionary/variant structure used for the messages between the front end
    and the daemon: a value is an integer, a boolean, a real, a string, a list
    of values or a dictionary, and a dictionary is an ordered sequence of
    (key, value) children that is searched from the front. *)
#[warnings="-register-all"]
Inductive tr_variant (D : Type) : Type :=
  | VInt (i : Z)
  | VBool (b : bool)
  | VReal (d : D)
  | VStr (s : string)
  | VList (l : list (tr_variant D))
  | VDict (children : list (tr_quark * tr_variant D)).

Arguments VInt {D} i.
Arguments VBool {D} b.
Arguments VReal {D} d.
Arguments VStr {D} s.
Arguments VList {D} l.
Arguments VDict {D} children.

Inductive variant_type : Set :=
  | TR_VARIANT_TYPE_INT | TR_VARIANT_TYPE_BOOL | TR_VARIANT_TYPE_REAL
  | TR_VARIANT_TYPE_STR | TR_VARIANT_TYPE_LIST | TR_VARIANT_TYPE_DICT.

Module Variant.
Section Ops.
Context {D : Type}.
Abbreviation variant := (tr_variant D).

(** Modelled from the spec: the type tag of a [tr_variant] (variant.h), of
    which no source is at hand. *)
Definition type_of (v : variant) : variant_type :=
  match v with
  | VInt _ => TR_VARIANT_TYPE_INT
  | VBool _ => TR_VARIANT_TYPE_BOOL
  | VReal _ => TR_VARIANT_TYPE_REAL
  | VStr _ => TR_VARIANT_TYPE_STR
  | VList _ => TR_VARIANT_TYPE_LIST
  | VDict _ => TR_VARIANT_TYPE_DICT
  end.

(** Modelled from the spec: [tr_variantIsType] (variant.h), of which no source
    is at hand, between two values. *)
Definition same_type (a b : variant) : bool :=
  match type_of a, type_of b with
  | TR_VARIANT_TYPE_INT, TR_VARIANT_TYPE_INT
  | TR_VARIANT_TYPE_BOOL, TR_VARIANT_TYPE_BOOL
  | TR_VARIANT_TYPE_REAL, TR_VARIANT_TYPE_REAL
  | TR_VARIANT_TYPE_STR, TR_VARIANT_TYPE_STR
  | TR_VARIANT_TYPE_LIST, TR_VARIANT_TYPE_LIST
  | TR_VARIANT_TYPE_DICT, TR_VARIANT_TYPE_DICT => true
  | _, _ => false
  end.

(** Modelled from the spec: the search of a dictionary for a key (variant.h),
    of which no source is at hand: the first child stored under the key. *)
Fixpoint children_find (l : list (tr_quark * variant)) (key : tr_quark)
  : option variant :=
  match l with
  | [] => None
  | (k, v) :: r => if quark_eqb k key then Some v else children_find r key
  end.

(** Modelled from the spec: writing into a child of a dictionary (variant.h),
    of which no source is at hand: the first child stored under [key] is
    overwritten. *)
Fixpoint children_replace (l : list (tr_quark * variant)) (key : tr_quark)
    (v : variant) : list (tr_quark * variant) :=
  match l with
  | [] => []
  | (k, old) :: r =>
      if quark_eqb k key then (k, v) :: r
      else (k, old) :: children_replace r key v
  end.

(** Modelled from the spec: [tr_variantDictRemove] (variant.h), of which no
    source is at hand: the first child stored under [key] is dropped. *)
Fixpoint children_remove (l : list (tr_quark * variant)) (key : tr_quark)
  : list (tr_quark * variant) :=
  match l with
  | [] => []
  | (k, old) :: r =>
      if quark_eqb k key then r else (k, old) :: children_remove r key
  end.

(** Modelled from the spec: [tr_variantInitDict] (variant.h), of which no
    source is at hand: a dictionary without children. *)
Definition tr_variantInitDict : variant := VDict [].

(** Modelled from the spec: [tr_variantDictFind] (variant.h), of which no
    source is at hand: the child stored under the key, if any. *)
Definition tr_variantDictFind (dict : variant) (key : tr_quark)
  : option variant :=
  match dict with
  | VDict l => children_find l key
  | _ => None
  end.

(** Modelled from the spec: [tr_variantDictAdd] (variant.h), of which no
    source is at hand, followed by the initialisation of the new child: the
    dictionary grows by one child, whatever it already holds. *)
Definition tr_variantDictAdd (dict : variant) (key : tr_quark) (v : variant)
  : variant :=
  match dict with
  | VDict l => VDict (l ++ [(key, v)])
  | _ => dict
  end.

(** Modelled from the spec: the scalar adders [tr_variantDictAddInt],
    [tr_variantDictAddBool], [tr_variantDictAddReal], [tr_variantDictAddStr]
    and [tr_variantDictAddStrView] (variant.h), of which no source is at hand:
    they reuse a child of the same type that is already stored under the key,
    and replace one of another type by a new child. *)
Definition dictFindOrAdd (dict : variant) (key : tr_quark) (v : variant)
  : variant :=
  match dict with
  | VDict l =>
      match children_find l key with
      | Some old =>
          if same_type old v then VDict (children_replace l key v)
          else VDict (children_remove l key ++ [(key, v)])
      | None => VDict (l ++ [(key, v)])
      end
  | _ => dict
  end.

Definition tr_variantDictAddInt (dict : variant) (key : tr_quark) (i : Z) :=
  dictFindOrAdd dict key (VInt i).
Definition tr_variantDictAddBool (dict : variant) (key : tr_quark) (b : bool) :=
  dictFindOrAdd dict key (VBool b).
Definition tr_variantDictAddReal (dict : variant) (key : tr_quark) (d : D) :=
  dictFindOrAdd dict key (VReal d).
Definition tr_variantDictAddStr (dict : variant) (key : tr_quark) (s : string) :=
  dictFindOrAdd dict key (VStr (c_str s)).
(** Modelled from the spec: [tr_variantDictAddStrView] (variant.h), of which
    no source is at hand; a string view carries its length, so nothing is cut
    at a NUL. *)
Definition tr_variantDictAddStrView (dict : variant) (key : tr_quark)
    (s : string) :=
  dictFindOrAdd dict key (VStr s).

(** Modelled from the spec: [tr_variantDictAddList] (variant.h), of which no
    source is at hand, and the [tr_variantListAdd*] calls that fill the new
    list before anything else touches the dictionary. *)
Definition tr_variantDictAddList (dict : variant) (key : tr_quark)
    (items : list variant) :=
  tr_variantDictAdd dict key (VList items).

(** Modelled from the spec: [tr_variantDictAddDict] (variant.h), of which no
    source is at hand, the new child being [child]. *)
Definition tr_variantDictAddDict (dict : variant) (key : tr_quark)
    (child : variant) :=
  tr_variantDictAdd dict key child.

(** Modelled from the spec: [tr_variantDictFindList] (variant.h), of which no
    source is at hand: the child under the key when it is a list. *)
Definition tr_variantDictFindList (dict : variant) (key : tr_quark)
  : option (list variant) :=
  match tr_variantDictFind dict key with
  | Some (VList l) => Some l
  | _ => None
  end.

(** Modelled from the spec: [tr_variantDictFindDict] (variant.h), of which no
    source is at hand: the child under the key when it is a dictionary. *)
Definition tr_variantDictFindDict (dict : variant) (key : tr_quark)
  : option variant :=
  match tr_variantDictFind dict key with
  | Some (VDict l) => Some (VDict l)
  | _ => None
  end.

(** Modelled from the spec: writing through the pointer that
    [tr_variantDictFind] (variant.h, no source at hand) returns: the child
    under [key] becomes [v], in place. *)
Definition store_child (dict : variant) (key : tr_quark) (v : variant)
  : variant :=
  match dict with
  | VDict l => VDict (children_replace l key v)
  | _ => dict
  end.

(** The idiom of the tracker and label options: find the list stored under
    [key], create it when there is none, and append [items] to it. *)
Definition find_or_add_list_then_push (dict : variant) (key : tr_quark)
    (items : list variant) : variant :=
  match tr_variantDictFindList dict key with
  | Some l => store_child dict key (VList (l ++ items))
  | None => tr_variantDictAddList dict key items
  end.

End Ops.
End Variant.

Import Variant.

(** ** What the program takes from its surroundings *)

(** The outcome of posting one request, as far as [processArgs] can see it:
    the exit-status bits that [flush] returns, and the id that
    [processResponse] copies into the current-torrent buffer when the answer
    is tagged [TAG_TORRENT_ADD] and names the torrent that was added. *)
Record reply : Set := mk_reply {
  reply_status : Z;
  reply_added_id : option Z;
}.

Class Externals : Type := {
  (** C's [double] and the conversions and formatters applied to it *)
  double : Type;
  atof : string -> double;
  (** [tr_snprintf(buf, buflen, "%s (%.0f%%)", str, floor(percent * 100.0))] *)
  format_recheck : string -> double -> string;
  (** [tr_formatter_speed_KBps], applied to an [int64_t] *)
  tr_formatter_speed_KBps : Z -> string;
  (** libtransmission: utils.h, rpcimpl.h, quark.h, variant.h *)
  tr_parseNumberRange : string -> list Z;
  tr_rpc_parse_list_str : string -> tr_variant double;
  (** the tokens that repeated [tr_strvSep(&sv, &token, ',')] yields *)
  tr_strvSep_tokens : string -> list string;
  tr_quark_get_string_view : tr_quark -> string;
  tr_loadFile : string -> option string;
  tr_base64_encode : string -> string;
  tr_variantDictFindInt : tr_variant double -> tr_quark -> option Z;
  tr_variantDictFindBool : tr_variant double -> tr_quark -> option bool;
  tr_variantDictFindReal : tr_variant double -> tr_quark -> option double;
  tr_variantDictFindStrView : tr_variant double -> tr_quark -> option string;
  (** transmission.h *)
  TR_STATUS_STOPPED : Z;
  TR_STATUS_CHECK_WAIT : Z;
  TR_STATUS_CHECK : Z;
  TR_STATUS_DOWNLOAD_WAIT : Z;
  TR_STATUS_DOWNLOAD : Z;
  TR_STATUS_SEED_WAIT : Z;
  TR_STATUS_SEED : Z;
  TR_RATIOLIMIT_GLOBAL : Z;
  TR_RATIOLIMIT_SINGLE : Z;
  TR_RATIOLIMIT_UNLIMITED : Z;
  (** version.h *)
  LONG_VERSION_STRING : string;
  (** the process environment: [tr_env_get_string("TR_AUTH", nullptr)] *)
  env_TR_AUTH : option string;
  (** the daemon: its answer to a request, given the requests before it *)
  daemon : list (tr_variant double) -> tr_variant double -> reply;
}.

Abbreviation variant := (tr_variant double).

(** ** remote.cc: display utilities *)

Module Remote.
Section WithExternals.
Context `{Externals}.

(** The value [strlratio] hands to [strlratio2]. The quotient stands for
    [numerator / (double)denominator]; it is kept as the pair of its operands
    so that the states in which the division is evaluated can be told from
    those in which it is not. *)
Inductive ratio : Set :=
  | Quotient (numerator denominator : Z)
  | TR_RATIO_INF
  | TR_RATIO_NA.

Definition strlratio (numerator denominator : Z) : ratio :=
  if negb (denominator =? 0) then Quotient numerator denominator
  else if negb (numerator =? 0) then TR_RATIO_INF
  else TR_RATIO_NA.

(** The divisor of the division a [ratio] asks for, when it asks for one. *)
Definition divisor (r : ratio) : option Z :=
  match r with
  | Quotient _ d => Some d
  | _ => None
  end.

Definition TAG_SESSION : Z := 0.
Definition TAG_STATS : Z := 1.
Definition TAG_DETAILS : Z := 2.
Definition TAG_FILES : Z := 3.
Definition TAG_LIST : Z := 4.
Definition TAG_PEERS : Z := 5.
Definition TAG_PIECES : Z := 6.
Definition TAG_PORTTEST : Z := 7.
Definition TAG_TORRENT_ADD : Z := 8.
Definition TAG_TRACKERS : Z := 9.

(** ** remote.cc: command-line arguments *)

(** What [tr_getopt] returns before [TR_OPT_DONE]: an error, an argument that
    is no option, or the [val] of an entry of [Options]. *)
Inductive getopt_val : Set :=
  | TR_OPT_ERR
  | TR_OPT_UNK
  | OPT (val : Z).

(** [optarg] where the program reads it without a null check; [tr_getopt]
    leaves it null only for options declared without an argument. *)
Definition deref (optarg : option string) : string :=
  match optarg with
  | Some s => s
  | None => EmptyString
  end.

(** [numarg]: [None] is the path that prints "Not a number" and the usage and
    calls [exit(EXIT_FAILURE)]. The [long] is returned as an [int]. *)
Definition numarg (arg : string) : option Z :=
  let '(num, end_) := strtol arg in
  match end_ with
  | EmptyString => Some (wrap_int num)
  | String _ _ => None
  end.

Definition numarg_message (arg : string) : string :=
  "Not a number: " +:+ String (ascii_of_N 34) (c_str arg) +:+ String (ascii_of_N 34) "".

Definition MODE_TORRENT_START : Z := Z.shiftl 1 0.
Definition MODE_TORRENT_STOP : Z := Z.shiftl 1 1.
Definition MODE_TORRENT_VERIFY : Z := Z.shiftl 1 2.
Definition MODE_TORRENT_REANNOUNCE : Z := Z.shiftl 1 3.
Definition MODE_TORRENT_SET : Z := Z.shiftl 1 4.
Definition MODE_TORRENT_GET : Z := Z.shiftl 1 5.
Definition MODE_TORRENT_ADD : Z := Z.shiftl 1 6.
Definition MODE_TORRENT_REMOVE : Z := Z.shiftl 1 7.
Definition MODE_TORRENT_SET_LOCATION : Z := Z.shiftl 1 8.
Definition MODE_SESSION_SET : Z := Z.shiftl 1 9.
Definition MODE_SESSION_GET : Z := Z.shiftl 1 10.
Definition MODE_SESSION_STATS : Z := Z.shiftl 1 11.
Definition MODE_SESSION_CLOSE : Z := Z.shiftl 1 12.
Definition MODE_BLOCKLIST_UPDATE : Z := Z.shiftl 1 13.
Definition MODE_PORT_TEST : Z := Z.shiftl 1 14.

(** [getOptMode]. Character options appear by their code, the character in
    the comment. [None] is the [default] branch, which reports an
    unrecognized argument and fails its assertion. *)
Definition getOptMode (val : getopt_val) : option Z :=
  match val with
  | TR_OPT_ERR
  | TR_OPT_UNK
  | OPT 97 (* a *)
  | OPT 98 (* b *)
  | OPT 110 (* n *)
  | OPT 810
  | OPT 78 (* N *)
  | OPT 820
  | OPT 116 (* t *)
  | OPT 86 (* V *) => Some 0
  | OPT 99 (* c *)
  | OPT 67 (* C *)
  | OPT 101 (* e *)
  | OPT 109 (* m *)
  | OPT 77 (* M *)
  | OPT 111 (* o *)
  | OPT 79 (* O *)
  | OPT 112 (* p *)
  | OPT 80 (* P *)
  | OPT 120 (* x *)
  | OPT 88 (* X *)
  | OPT 121 (* y *)
  | OPT 89 (* Y *)
  | OPT 800 | OPT 801 | OPT 802 | OPT 803
  | OPT 830 | OPT 831
  | OPT 970 | OPT 971 | OPT 972 | OPT 973 | OPT 974
  | OPT 975 | OPT 976 | OPT 977 | OPT 978
  | OPT 910 | OPT 911 | OPT 912
  | OPT 953 | OPT 954
  | OPT 990 | OPT 991 | OPT 992 | OPT 993 => Some MODE_SESSION_SET
  | OPT 712 | OPT 950 | OPT 951 | OPT 952 | OPT 984 | OPT 985 =>
      Some MODE_TORRENT_SET
  | OPT 920 => Some MODE_SESSION_GET
  | OPT 103 (* g *)
  | OPT 71 (* G *)
  | OPT 76 (* L *)
  | OPT 700 | OPT 701 | OPT 702 | OPT 710
  | OPT 900 | OPT 901 | OPT 902 =>
      Some (Z.lor MODE_TORRENT_SET MODE_TORRENT_ADD)
  | OPT 961 => Some (Z.lor MODE_TORRENT_SET_LOCATION MODE_TORRENT_ADD)
  | OPT 105 (* i *)
  | OPT 108 (* l *)
  | OPT 940 | OPT 941 | OPT 942 | OPT 943 => Some MODE_TORRENT_GET
  | OPT 100 (* d *)
  | OPT 68 (* D *)
  | OPT 117 (* u *)
  | OPT 85 (* U *)
  | OPT 930 => Some (Z.lor MODE_SESSION_SET MODE_TORRENT_SET)
  | OPT 115 (* s *) => Some (Z.lor MODE_TORRENT_START MODE_TORRENT_ADD)
  | OPT 83 (* S *) => Some (Z.lor MODE_TORRENT_STOP MODE_TORRENT_ADD)
  | OPT 119 (* w *) => Some (Z.lor MODE_SESSION_SET MODE_TORRENT_ADD)
  | OPT 850 => Some MODE_SESSION_CLOSE
  | OPT 963 => Some MODE_BLOCKLIST_UPDATE
  | OPT 921 => Some MODE_SESSION_STATS
  | OPT 118 (* v *) => Some MODE_TORRENT_VERIFY
  | OPT 600 => Some MODE_TORRENT_REANNOUNCE
  | OPT 962 => Some MODE_PORT_TEST
  | OPT 114 (* r *)
  | OPT 840 => Some MODE_TORRENT_REMOVE
  | OPT 960 => Some MODE_TORRENT_SET_LOCATION
  | OPT _ => None
  end.

Definition getEncodedMetainfo (filename : string) : string :=
  match tr_loadFile (c_str filename) with
  | Some contents => tr_base64_encode contents
  | None => EmptyString
  end.

(** [tr_str_is_empty]: a null pointer or an empty string. *)
Definition tr_str_is_empty (s : option string) : bool :=
  match s with
  | None => true
  | Some t => String.eqb (c_str t) EmptyString
  end.

Fixpoint all_digits (s : string) : bool :=
  match s with
  | EmptyString => true
  | String c r => isdigit c && all_digits r
  end.

Definition no_torrent_message : string :=
  "No torrent specified!  Please use the -t option first.".

(** [addIdArg]: the arguments dictionary it leaves, and its lines on stderr. *)
Definition addIdArg (args : variant) (id_str fallback : option string)
  : variant * list string :=
  let '(id_str, msgs) :=
    if tr_str_is_empty id_str then
      if tr_str_is_empty fallback then
        ("-1", [no_torrent_message])
      else (deref fallback, [])
    else (deref id_str, []) in
  if strcmp_eq id_str "active" then
    (tr_variantDictAddStrView args TR_KEY_ids "recently-active", msgs)
  else if negb (strcmp_eq id_str "all") then
    let isList := strchr_found id_str "," || strchr_found id_str "-" in
    let isNum := all_digits (c_str id_str) in
    if isNum || isList then
      (tr_variantDictAdd args TR_KEY_ids (tr_rpc_parse_list_str (c_str id_str)), msgs)
    else
      (tr_variantDictAddStr args TR_KEY_ids id_str, msgs)
  else (args, msgs).

Definition addTime_message : string :=
  "Please specify the time of day in 'hhmm' format.".

Definition addTime (args : variant) (key : tr_quark) (arg : option string)
  : variant * list string :=
  let '(time, success) :=
    match arg with
    | Some a =>
        if strlen a =? 4 then
          let hh := String (char_at a 0) (String (char_at a 1) EmptyString) in
          let mm := String (char_at a 2) (String (char_at a 3) EmptyString) in
          let hour := atoi hh in
          let min := atoi mm in
          if (0 <=? hour) && (hour <? 24) && (0 <=? min) && (min <? 60) then
            (min + hour * 60, true)
          else (0, false)
        else (0, false)
    | None => (0, false)
    end in
  if (success : bool) then (tr_variantDictAddInt args key time, [])
  else (args, [addTime_message]).

Definition addDays_message : string :=
  "Please specify the days of the week in '1-3,4,7' format.".

(** The loop of [addDays] over the numbers [tr_parseNumberRange] returns. *)
Fixpoint addDays_loop (days : Z) (range : list Z) : Z :=
  match range with
  | [] => days
  | day :: rest =>
      if (day <? 0) || (day >? 7) then addDays_loop days rest
      else
        let day := if day =? 7 then 0 else day in
        addDays_loop (Z.lor days (Z.shiftl 1 day)) rest
  end.

Definition addDays (args : variant) (key : tr_quark) (arg : option string)
  : variant * list string :=
  let days :=
    match arg with
    | Some a => addDays_loop 0 (tr_parseNumberRange (c_str a))
    | None => 0
    end in
  if negb (days =? 0) then (tr_variantDictAddInt args key days, [])
  else (args, [addDays_message]).

Definition addLabels (args : variant) (comma_delimited_labels : string)
  : variant :=
  find_or_add_list_then_push args TR_KEY_labels
    (map VStr (tr_strvSep_tokens comma_delimited_labels)).

Definition addFiles (args : variant) (key : tr_quark) (arg : option string)
  : variant * list string :=
  let '(arg, msgs) :=
    if tr_str_is_empty arg then ("-1", ["No files specified!"])
    else (deref arg, []) in
  let files :=
    if negb (strcmp_eq arg "all") then map VInt (tr_parseNumberRange (c_str arg))
    else [] in
  (tr_variantDictAddList args key files, msgs).

Definition files_keys : list tr_quark :=
  [TR_KEY_files; TR_KEY_name; TR_KEY_priorities; TR_KEY_wanted].

Definition details_keys : list tr_quark :=
  [TR_KEY_activityDate; TR_KEY_addedDate; TR_KEY_bandwidthPriority;
   TR_KEY_comment; TR_KEY_corruptEver; TR_KEY_creator; TR_KEY_dateCreated;
   TR_KEY_desiredAvailable; TR_KEY_doneDate; TR_KEY_downloadDir;
   TR_KEY_downloadedEver; TR_KEY_downloadLimit; TR_KEY_downloadLimited;
   TR_KEY_error; TR_KEY_errorString; TR_KEY_eta; TR_KEY_hashString;
   TR_KEY_haveUnchecked; TR_KEY_haveValid; TR_KEY_honorsSessionLimits;
   TR_KEY_id; TR_KEY_isFinished; TR_KEY_isPrivate; TR_KEY_labels;
   TR_KEY_leftUntilDone; TR_KEY_magnetLink; TR_KEY_name;
   TR_KEY_peersConnected; TR_KEY_peersGettingFromUs; TR_KEY_peersSendingToUs;
   TR_KEY_peer_limit; TR_KEY_pieceCount; TR_KEY_pieceSize;
   TR_KEY_rateDownload; TR_KEY_rateUpload; TR_KEY_recheckProgress;
   TR_KEY_secondsDownloading; TR_KEY_secondsSeeding; TR_KEY_seedRatioMode;
   TR_KEY_seedRatioLimit; TR_KEY_sizeWhenDone; TR_KEY_source;
   TR_KEY_startDate; TR_KEY_status; TR_KEY_totalSize; TR_KEY_uploadedEver;
   TR_KEY_uploadLimit; TR_KEY_uploadLimited; TR_KEY_webseeds;
   TR_KEY_webseedsSendingToUs].

Definition list_keys : list tr_quark :=
  [TR_KEY_error; TR_KEY_errorString; TR_KEY_eta; TR_KEY_id; TR_KEY_isFinished;
   TR_KEY_leftUntilDone; TR_KEY_name; TR_KEY_peersGettingFromUs;
   TR_KEY_peersSendingToUs; TR_KEY_rateDownload; TR_KEY_rateUpload;
   TR_KEY_sizeWhenDone; TR_KEY_status; TR_KEY_uploadRatio].

(** [tr_variantListAddQuark] for each key of a table. *)
Definition quark_fields (keys : list tr_quark) : list variant :=
  map (fun k => VStr (tr_quark_get_string_view k)) keys.

(** ** remote.cc: the option loop *)

(** The variables [processArgs] works on: its three pending requests, the
    current-torrent buffer [id], its exit status, the transport settings, and
    what has left the process so far: the requests handed to [flush], oldest
    first, and the lines written to stderr. What goes to stdout (the usage
    text, the rendering of the answers) is not recorded here. *)
Record state : Type := mk_state {
  sset : option variant;
  tset : option variant;
  tadd : option variant;
  id : string;
  status : Z;
  debug : bool;
  auth : option string;
  netrc : option string;
  UseSSL : bool;
  posted : list variant;
  stderr : list string;
}.

Definition with_sset (v : option variant) (st : state) : state :=
  mk_state v (tset st) (tadd st) (id st) (status st) (debug st) (auth st)
    (netrc st) (UseSSL st) (posted st) (stderr st).
Definition with_tset (v : option variant) (st : state) : state :=
  mk_state (sset st) v (tadd st) (id st) (status st) (debug st) (auth st)
    (netrc st) (UseSSL st) (posted st) (stderr st).
Definition with_tadd (v : option variant) (st : state) : state :=
  mk_state (sset st) (tset st) v (id st) (status st) (debug st) (auth st)
    (netrc st) (UseSSL st) (posted st) (stderr st).
Definition with_id (s : string) (st : state) : state :=
  mk_state (sset st) (tset st) (tadd st) s (status st) (debug st) (auth st)
    (netrc st) (UseSSL st) (posted st) (stderr st).
Definition with_debug (b : bool) (st : state) : state :=
  mk_state (sset st) (tset st) (tadd st) (id st) (status st) b (auth st)
    (netrc st) (UseSSL st) (posted st) (stderr st).
Definition with_auth (a : option string) (st : state) : state :=
  mk_state (sset st) (tset st) (tadd st) (id st) (status st) (debug st) a
    (netrc st) (UseSSL st) (posted st) (stderr st).
Definition with_netrc (a : option string) (st : state) : state :=
  mk_state (sset st) (tset st) (tadd st) (id st) (status st) (debug st)
    (auth st) a (UseSSL st) (posted st) (stderr st).
Definition with_UseSSL (b : bool) (st : state) : state :=
  mk_state (sset st) (tset st) (tadd st) (id st) (status st) (debug st)
    (auth st) (netrc st) b (posted st) (stderr st).

(** [status |= bits]. *)
Definition or_status (bits : Z) (st : state) : state :=
  mk_state (sset st) (tset st) (tadd st) (id st) (Z.lor (status st) bits)
    (debug st) (auth st) (netrc st) (UseSSL st) (posted st) (stderr st).

(** [fprintf(stderr, ...)], one line per call. *)
Definition log (lines : list string) (st : state) : state :=
  mk_state (sset st) (tset st) (tadd st) (id st) (status st) (debug st)
    (auth st) (netrc st) (UseSSL st) (posted st) (stderr st ++ lines).

(** [tr_strlcpy(id, s, sizeof(id))] with [char id[4096]]. *)
Definition tr_strlcpy_id (s : string) : string :=
  String.substring 0 4095 (c_str s).

(** [status |= flush(rpcurl, &benc)], the pointer left aside: the request is
    posted (again after a 409 answer, which is not told apart here), the
    daemon's answer is processed, and the exit bits are merged. Processing the
    answer to a tagged add overwrites [id] with the decimal id of the torrent
    that was added. *)
Definition flush (benc : variant) (st : state) : state :=
  let r := daemon (posted st) benc in
  let id' :=
    match reply_added_id r with
    | Some i => decimal i
    | None => id st
    end in
  mk_state (sset st) (tset st) (tadd st) id' (Z.lor (status st) (reply_status r))
    (debug st) (auth st) (netrc st) (UseSSL st) (posted st ++ [benc]) (stderr st).

(** Work on the dictionary stored under [Arguments] through the pointer
    [tr_variantDictFind(top, Arguments)]. *)
Definition on_arguments (top : variant) (f : variant -> variant * list string)
  : variant * list string :=
  match tr_variantDictFind top Arguments with
  | Some args => let '(args', msgs) := f args in (store_child top Arguments args', msgs)
  | None => (top, [])
  end.

(** [if (sset != nullptr) status |= flush(rpcurl, &sset);] *)
Definition flush_sset (st : state) : state :=
  match sset st with
  | Some top => with_sset None (flush top st)
  | None => st
  end.

(** [if (tadd != nullptr) status |= flush(rpcurl, &tadd);] *)
Definition flush_tadd (st : state) : state :=
  match tadd st with
  | Some top => with_tadd None (flush top st)
  | None => st
  end.

(** [if (tset != nullptr) { addIdArg(tr_variantDictFind(tset, Arguments), id,
    nullptr); status |= flush(rpcurl, &tset); }] *)
Definition flush_tset (st : state) : state :=
  match tset st with
  | Some top =>
      let '(top', msgs) := on_arguments top (fun args => addIdArg args (Some (id st)) None) in
      with_tset None (flush top' (log msgs st))
  | None => st
  end.

(** A fresh request: [tr_variantInitDict] and the method name. *)
Definition new_request (method : string) : variant :=
  tr_variantDictAddStrView tr_variantInitDict TR_KEY_method method.

(** The request [ensure_sset] leaves in [sset]. *)
Definition ensure_sset (sset : option variant) : variant :=
  match sset with
  | Some top => top
  | None =>
      tr_variantDictAddDict (new_request "session-set") Arguments tr_variantInitDict
  end.

(** The request [ensure_tset] leaves in [tset]. *)
Definition ensure_tset (tset : option variant) : variant :=
  match tset with
  | Some top => top
  | None =>
      tr_variantDictAddDict (new_request "torrent-set") Arguments tr_variantInitDict
  end.

(** What a [switch] over the option does to an arguments dictionary: it edits
    it, or [numarg] leaves through [exit(EXIT_FAILURE)], or no [case] matches
    and the assertion of the [default] branch fails. *)
Inductive edit : Type :=
  | Edited (args : variant) (msgs : list string)
  | ExitFailure (msgs : list string)
  | Unhandled.

(** [tr_variantDictAddInt(args, key, numarg(optarg))] and what follows it. *)
Definition add_numarg (args : variant) (key : tr_quark) (optarg : option string)
    (k : variant -> variant) : edit :=
  match numarg (deref optarg) with
  | Some n => Edited (k (tr_variantDictAddInt args key n)) []
  | None => ExitFailure [numarg_message (deref optarg)]
  end.

Definition edited (args : variant) : edit := Edited args [].

Definition told (r : variant * list string) : edit := Edited (fst r) (snd r).

(** The switch of the branch [stepMode == MODE_SESSION_SET]. *)
Definition session_set_edit (c : getopt_val) (optarg : option string)
    (args : variant) : edit :=
  match c with
  | OPT 800 =>
      edited (tr_variantDictAddBool
              (tr_variantDictAddStr args TR_KEY_script_torrent_done_filename (deref optarg))
              TR_KEY_script_torrent_done_enabled true)
  | OPT 801 => edited (tr_variantDictAddBool args TR_KEY_script_torrent_done_enabled false)
  | OPT 802 =>
      edited (tr_variantDictAddBool
              (tr_variantDictAddStr args TR_KEY_script_torrent_done_seeding_filename (deref optarg))
              TR_KEY_script_torrent_done_seeding_enabled true)
  | OPT 803 => edited (tr_variantDictAddBool args TR_KEY_script_torrent_done_seeding_enabled false)
  | OPT 970 => edited (tr_variantDictAddBool args TR_KEY_alt_speed_enabled true)
  | OPT 971 => edited (tr_variantDictAddBool args TR_KEY_alt_speed_enabled false)
  | OPT 972 => add_numarg args TR_KEY_alt_speed_down optarg (fun a => a)
  | OPT 973 => add_numarg args TR_KEY_alt_speed_up optarg (fun a => a)
  | OPT 974 => edited (tr_variantDictAddBool args TR_KEY_alt_speed_time_enabled true)
  | OPT 975 => edited (tr_variantDictAddBool args TR_KEY_alt_speed_time_enabled false)
  | OPT 976 => told (addTime args TR_KEY_alt_speed_time_begin optarg)
  | OPT 977 => told (addTime args TR_KEY_alt_speed_time_end optarg)
  | OPT 978 => told (addDays args TR_KEY_alt_speed_time_day optarg)
  | OPT 99 (* c *) =>
      edited (tr_variantDictAddBool
              (tr_variantDictAddStr args TR_KEY_incomplete_dir (deref optarg))
              TR_KEY_incomplete_dir_enabled true)
  | OPT 67 (* C *) => edited (tr_variantDictAddBool args TR_KEY_incomplete_dir_enabled false)
  | OPT 101 (* e *) => edited (tr_variantDictAddInt args TR_KEY_cache_size_mb (atoi (deref optarg)))
  | OPT 910 => edited (tr_variantDictAddStrView args TR_KEY_encryption "required")
  | OPT 911 => edited (tr_variantDictAddStrView args TR_KEY_encryption "preferred")
  | OPT 912 => edited (tr_variantDictAddStrView args TR_KEY_encryption "tolerated")
  | OPT 109 (* m *) => edited (tr_variantDictAddBool args TR_KEY_port_forwarding_enabled true)
  | OPT 77 (* M *) => edited (tr_variantDictAddBool args TR_KEY_port_forwarding_enabled false)
  | OPT 111 (* o *) => edited (tr_variantDictAddBool args TR_KEY_dht_enabled true)
  | OPT 79 (* O *) => edited (tr_variantDictAddBool args TR_KEY_dht_enabled false)
  | OPT 830 => edited (tr_variantDictAddBool args TR_KEY_utp_enabled true)
  | OPT 831 => edited (tr_variantDictAddBool args TR_KEY_utp_enabled false)
  | OPT 112 (* p *) => add_numarg args TR_KEY_peer_port optarg (fun a => a)
  | OPT 80 (* P *) => edited (tr_variantDictAddBool args TR_KEY_peer_port_random_on_start true)
  | OPT 120 (* x *) => edited (tr_variantDictAddBool args TR_KEY_pex_enabled true)
  | OPT 88 (* X *) => edited (tr_variantDictAddBool args TR_KEY_pex_enabled false)
  | OPT 121 (* y *) => edited (tr_variantDictAddBool args TR_KEY_lpd_enabled true)
  | OPT 89 (* Y *) => edited (tr_variantDictAddBool args TR_KEY_lpd_enabled false)
  | OPT 953 =>
      edited (tr_variantDictAddBool
              (tr_variantDictAddReal args TR_KEY_seedRatioLimit (atof (deref optarg)))
              TR_KEY_seedRatioLimited true)
  | OPT 954 => edited (tr_variantDictAddBool args TR_KEY_seedRatioLimited false)
  | OPT 990 => edited (tr_variantDictAddBool args TR_KEY_start_added_torrents false)
  | OPT 991 => edited (tr_variantDictAddBool args TR_KEY_start_added_torrents true)
  | OPT 992 => edited (tr_variantDictAddBool args TR_KEY_trash_original_torrent_files true)
  | OPT 993 => edited (tr_variantDictAddBool args TR_KEY_trash_original_torrent_files false)
  | _ => Unhandled
  end.

(** The switch of the branch [stepMode == (MODE_SESSION_SET |
    MODE_TORRENT_SET)]; [targs] tells whether the dictionary at hand is the
    one of the torrent-set request ([targs != nullptr]) or the one of the
    session-set request. *)
Definition limit_edit (c : getopt_val) (optarg : option string)
    (targs : bool) (args : variant) : edit :=
  match c with
  | OPT 100 (* d *) =>
      if targs then
        add_numarg args TR_KEY_downloadLimit optarg
          (fun a => tr_variantDictAddBool a TR_KEY_downloadLimited true)
      else
        add_numarg args TR_KEY_speed_limit_down optarg
          (fun a => tr_variantDictAddBool a TR_KEY_speed_limit_down_enabled true)
  | OPT 68 (* D *) =>
      if targs then edited (tr_variantDictAddBool args TR_KEY_downloadLimited false)
      else edited (tr_variantDictAddBool args TR_KEY_speed_limit_down_enabled false)
  | OPT 117 (* u *) =>
      if targs then
        add_numarg args TR_KEY_uploadLimit optarg
          (fun a => tr_variantDictAddBool a TR_KEY_uploadLimited true)
      else
        add_numarg args TR_KEY_speed_limit_up optarg
          (fun a => tr_variantDictAddBool a TR_KEY_speed_limit_up_enabled true)
  | OPT 85 (* U *) =>
      if targs then edited (tr_variantDictAddBool args TR_KEY_uploadLimited false)
      else edited (tr_variantDictAddBool args TR_KEY_speed_limit_up_enabled false)
  | OPT 930 =>
      if targs then edited (tr_variantDictAddInt args TR_KEY_peer_limit (atoi (deref optarg)))
      else edited (tr_variantDictAddInt args TR_KEY_peer_limit_global (atoi (deref optarg)))
  | _ => Unhandled
  end.

(** The switch of the branch [stepMode == MODE_TORRENT_SET]. *)
Definition torrent_set_edit (c : getopt_val) (optarg : option string)
    (args : variant) : edit :=
  match c with
  | OPT 712 =>
      edited (find_or_add_list_then_push args TR_KEY_trackerRemove
              [VInt (atoi (deref optarg))])
  | OPT 950 =>
      edited (tr_variantDictAddInt
              (tr_variantDictAddReal args TR_KEY_seedRatioLimit (atof (deref optarg)))
              TR_KEY_seedRatioMode TR_RATIOLIMIT_SINGLE)
  | OPT 951 => edited (tr_variantDictAddInt args TR_KEY_seedRatioMode TR_RATIOLIMIT_GLOBAL)
  | OPT 952 => edited (tr_variantDictAddInt args TR_KEY_seedRatioMode TR_RATIOLIMIT_UNLIMITED)
  | OPT 984 => edited (tr_variantDictAddBool args TR_KEY_honorsSessionLimits true)
  | OPT 985 => edited (tr_variantDictAddBool args TR_KEY_honorsSessionLimits false)
  | _ => Unhandled
  end.

(** The switch of the branch [stepMode == (MODE_TORRENT_SET |
    MODE_TORRENT_ADD)]. *)
Definition torrent_set_or_add_edit (c : getopt_val) (optarg : option string)
    (args : variant) : edit :=
  match c with
  | OPT 103 (* g *) => told (addFiles args TR_KEY_files_wanted optarg)
  | OPT 71 (* G *) => told (addFiles args TR_KEY_files_unwanted optarg)
  | OPT 76 (* L *) => edited (addLabels args (deref optarg))
  | OPT 900 => told (addFiles args TR_KEY_priority_high optarg)
  | OPT 901 => told (addFiles args TR_KEY_priority_normal optarg)
  | OPT 902 => told (addFiles args TR_KEY_priority_low optarg)
  | OPT 700 => edited (tr_variantDictAddInt args TR_KEY_bandwidthPriority 1)
  | OPT 701 => edited (tr_variantDictAddInt args TR_KEY_bandwidthPriority 0)
  | OPT 702 => edited (tr_variantDictAddInt args TR_KEY_bandwidthPriority (-1))
  | OPT 710 =>
      edited (find_or_add_list_then_push args TR_KEY_trackerAdd
              [VStr (c_str (deref optarg))])
  | _ => Unhandled
  end.

(** How one round of the loop ends: the loop goes on, or the process leaves
    through [exit], or an assertion fails. *)
Inductive outcome : Type :=
  | Continue (st : state)
  | Exit (code : Z) (st : state)
  | Abort (st : state).

(** Run a switch on the arguments of the pending request [top] and store the
    request back with [store]. *)
Definition edit_pending (top : variant) (e : variant -> edit)
    (store : option variant -> state -> state) (st : state) : outcome :=
  match tr_variantDictFind top Arguments with
  | Some args =>
      match e args with
      | Edited args' msgs =>
          Continue (store (Some (store_child top Arguments args')) (log msgs st))
      | ExitFailure msgs => Exit EXIT_FAILURE (store (Some top) (log msgs st))
      | Unhandled => Abort (store (Some top) st)
      end
  | None => Abort (store (Some top) st)
  end.

(** A request made of a method and an arguments dictionary. *)
Definition request (method : string) (args : variant) : variant :=
  tr_variantDictAddDict (new_request method) Arguments args.

(** A request whose arguments are the torrent ids alone:
    [addIdArg(tr_variantDictAddDict(top, Arguments, 1), id, nullptr)]. *)
Definition post_for_ids (method : string) (st : state) : state :=
  let '(args, msgs) := addIdArg tr_variantInitDict (Some (id st)) None in
  flush (request method args) (log msgs st).

(** A request without arguments, tagged or not. *)
Definition post_plain (method : string) (tag : option Z) (st : state) : state :=
  let top := new_request method in
  flush (match tag with
         | Some t => tr_variantDictAddInt top TR_KEY_tag t
         | None => top
         end) st.

(** The branch [stepMode == MODE_TORRENT_GET], after the pending torrent-set
    request has been flushed. *)
Definition torrent_get (tag : Z) (fields : list variant)
    (fallback : option string) (st : state) : state :=
  let args0 := tr_variantDictAddList tr_variantInitDict TR_KEY_fields fields in
  let '(args, msgs) := addIdArg args0 (Some (id st)) fallback in
  let top := tr_variantDictAddInt (request "torrent-get" args) TR_KEY_tag tag in
  flush top (log msgs st).

Definition MyName : string := "transmission-remote".

(** The request the add option leaves in [tadd]. *)
Definition new_tadd : variant :=
  tr_variantDictAddDict
    (tr_variantDictAddInt (new_request "torrent-add") TR_KEY_tag TAG_TORRENT_ADD)
    Arguments tr_variantInitDict.

(** How one round of the option loop ends. [Break] is a [break] that leaves
    the [while] loop itself. *)
Inductive round : Type :=
  | Next (st : state)
  | Break (st : state)
  | Stop (o : outcome).

Definition round_of (o : outcome) : round :=
  match o with
  | Continue st => Next st
  | _ => Stop o
  end.

(** The switch of the branch [stepMode == 0], the meta commands. *)
Definition meta_command (c : getopt_val) (optarg : option string) (st : state)
  : outcome :=
  match c with
  | OPT 97 (* a *) =>
      Continue (with_tadd (Some new_tadd) (flush_tset (flush_tadd (flush_sset st))))
  | OPT 98 (* b *) => Continue (with_debug true st)
  | OPT 110 (* n *) => Continue (with_auth (option_map c_str optarg) st)
  | OPT 810 =>
      match env_TR_AUTH with
      | Some a => Continue (with_auth (Some a) st)
      | None =>
          Exit 0 (with_auth None
                    (log ["The TR_AUTH environment variable is not set"] st))
      end
  | OPT 78 (* N *) => Continue (with_netrc (option_map c_str optarg) st)
  | OPT 820 => Continue (with_UseSSL true st)
  | OPT 116 (* t *) =>
      Continue (with_id (tr_strlcpy_id (deref optarg)) (flush_tset (flush_tadd st)))
  | OPT 86 (* V *) =>
      Exit 0 (log [MyName +:+ " " +:+ LONG_VERSION_STRING] st)
  | TR_OPT_ERR => Continue (or_status EXIT_FAILURE (log ["invalid option"] st))
  | TR_OPT_UNK =>
      match tadd st with
      | Some top =>
          edit_pending top
            (fun args =>
               let tmp := getEncodedMetainfo (deref optarg) in
               if negb (String.eqb tmp EmptyString) then
                 edited (tr_variantDictAddStr args TR_KEY_metainfo tmp)
               else edited (tr_variantDictAddStr args TR_KEY_filename (deref optarg)))
            with_tadd st
      | None =>
          Continue (or_status EXIT_FAILURE
                      (log ["Unknown option: " +:+ c_str (deref optarg)] st))
      end
  | OPT _ => Continue st
  end.

(** The last [else] of the loop body: the commands that post a request of
    their own. *)
Definition direct_command (c : getopt_val) (optarg : option string) (st : state)
  : outcome :=
  match c with
  | OPT 920 => Continue (post_plain "session-get" (Some TAG_SESSION) st)
  | OPT 115 (* s *) =>
      match tadd st with
      | Some top =>
          edit_pending top
            (fun args => edited (tr_variantDictAddBool args TR_KEY_paused false))
            with_tadd st
      | None => Continue (post_for_ids "torrent-start" st)
      end
  | OPT 83 (* S *) =>
      match tadd st with
      | Some top =>
          edit_pending top
            (fun args => edited (tr_variantDictAddBool args TR_KEY_paused true))
            with_tadd st
      | None => Continue (post_for_ids "torrent-stop" st)
      end
  | OPT 119 (* w *) =>
      match tadd st with
      | Some top =>
          edit_pending top
            (fun args => edited (tr_variantDictAddStr args TR_KEY_download_dir (deref optarg)))
            with_tadd st
      | None =>
          edit_pending (ensure_sset (sset st))
            (fun args => edited (tr_variantDictAddStr args TR_KEY_download_dir (deref optarg)))
            with_sset st
      end
  | OPT 850 => Continue (post_plain "session-close" None st)
  | OPT 963 => Continue (post_plain "blocklist-update" None st)
  | OPT 921 => Continue (post_plain "session-stats" (Some TAG_STATS) st)
  | OPT 962 => Continue (post_plain "port-test" (Some TAG_PORTTEST) st)
  | OPT 600 => Continue (post_for_ids "torrent-reannounce" (flush_tset st))
  | OPT 118 (* v *) => Continue (post_for_ids "torrent-verify" (flush_tset st))
  | OPT ((114 (* r *) | 840) as val) =>
      let args0 :=
        tr_variantDictAddBool tr_variantInitDict TR_KEY_delete_local_data (val =? 840) in
      let '(args, msgs) := addIdArg args0 (Some (id st)) None in
      Continue (flush (request "torrent-remove" args) (log msgs st))
  | OPT 960 =>
      let args0 :=
        tr_variantDictAddBool
          (tr_variantDictAddStr tr_variantInitDict TR_KEY_location (deref optarg))
          TR_KEY_move true in
      let '(args, msgs) := addIdArg args0 (Some (id st)) None in
      Continue (flush (request "torrent-set-location" args) (log msgs st))
  | OPT val => Continue (log ["got opt [" +:+ decimal val +:+ "]"] st)
  | _ => Continue st
  end.

(** The body of the [while] loop of [processArgs] for one option [c] with its
    argument [optarg]. *)
Definition processArg (c : getopt_val) (optarg : option string) (st : state)
  : round :=
  match getOptMode c with
  | None => Stop (Abort st)
  | Some stepMode =>
      if stepMode =? 0 then round_of (meta_command c optarg st)
      else if stepMode =? MODE_TORRENT_GET then
        let st := flush_tset st in
        match c with
        | OPT 105 (* i *) =>
            Next (torrent_get TAG_DETAILS (quark_fields details_keys) None st)
        | OPT 108 (* l *) =>
            Next (torrent_get TAG_LIST (quark_fields list_keys) (Some "all") st)
        | OPT 940 =>
            Next (torrent_get TAG_FILES (quark_fields files_keys) None st)
        | OPT 941 => Next (torrent_get TAG_PEERS [VStr "peers"] None st)
        | OPT 942 =>
            Next (torrent_get TAG_PIECES [VStr "pieces"; VStr "pieceCount"] None st)
        | OPT 943 => Next (torrent_get TAG_TRACKERS [VStr "trackerStats"] None st)
        | _ => Stop (Abort st)
        end
      else if stepMode =? MODE_SESSION_SET then
        round_of (edit_pending (ensure_sset (sset st)) (session_set_edit c optarg)
                    with_sset st)
      else if stepMode =? Z.lor MODE_SESSION_SET MODE_TORRENT_SET then
        if negb (tr_str_is_empty (Some (id st))) then
          round_of (edit_pending (ensure_tset (tset st)) (limit_edit c optarg true)
                      with_tset st)
        else
          round_of (edit_pending (ensure_sset (sset st)) (limit_edit c optarg false)
                      with_sset st)
      else if stepMode =? MODE_TORRENT_SET then
        round_of (edit_pending (ensure_tset (tset st)) (torrent_set_edit c optarg)
                    with_tset st)
      else if stepMode =? Z.lor MODE_TORRENT_SET MODE_TORRENT_ADD then
        match tadd st with
        | Some top =>
            round_of (edit_pending top (torrent_set_or_add_edit c optarg) with_tadd st)
        | None =>
            round_of (edit_pending (ensure_tset (tset st))
                        (torrent_set_or_add_edit c optarg) with_tset st)
        end
      else
        match c with
        | OPT 961 =>
            match tadd st with
            | Some top =>
                round_of (edit_pending top
                            (fun args => edited (tr_variantDictAddStr args TR_KEY_download_dir (deref optarg)))
                            with_tadd st)
            | None =>
                let args0 :=
                  tr_variantDictAddBool
                    (tr_variantDictAddStr tr_variantInitDict TR_KEY_location (deref optarg))
                    TR_KEY_move false in
                let '(args, msgs) := addIdArg args0 (Some (id st)) None in
                Break (flush (request "torrent-set-location" args) (log msgs st))
            end
        | _ => round_of (direct_command c optarg st)
        end
  end.

(** The [while] loop over what [tr_getopt] returns until [TR_OPT_DONE]. *)
Fixpoint option_loop (argv : list (getopt_val * option string)) (st : state)
  : round :=
  match argv with
  | [] => Next st
  | (c, optarg) :: rest =>
      match processArg c optarg st with
      | Next st' => option_loop rest st'
      | r => r
      end
  end.

(** The variables as [processArgs] finds them: [*id = '\0'] and the initial
    values of the globals. *)
Definition initial : state :=
  mk_state None None None EmptyString EXIT_SUCCESS false None None false [] [].

(** What is left to do when the loop is over. *)
Definition finish (st : state) : state :=
  flush_sset (flush_tset (flush_tadd st)).

(** [processArgs], on the options [tr_getopt] finds in [argv]. *)
Definition processArgs (argv : list (getopt_val * option string)) : outcome :=
  match option_loop argv initial with
  | Next st | Break st => Continue (finish st)
  | Stop o => o
  end.

(** The state in which the loop reaches the option that follows [before],
    when it does. *)
Definition state_after (before : list (getopt_val * option string))
  : option state :=
  match option_loop before initial with
  | Next st => Some st
  | _ => None
  end.

(** ** remote.cc: rendering the daemon's answers *)

(** [getStatusString], the text it leaves in [buf]. The buffers its callers
    pass are longer than every text it writes. *)
Definition getStatusString (t : variant) : string :=
  match tr_variantDictFindInt t TR_KEY_status with
  | None => EmptyString
  | Some status =>
      if (status =? TR_STATUS_DOWNLOAD_WAIT) || (status =? TR_STATUS_SEED_WAIT)
      then "Queued"
      else if status =? TR_STATUS_STOPPED then
        match tr_variantDictFindBool t TR_KEY_isFinished with
        | Some true => "Finished"
        | _ => "Stopped"
        end
      else if (status =? TR_STATUS_CHECK_WAIT) || (status =? TR_STATUS_CHECK) then
        let str := if status =? TR_STATUS_CHECK_WAIT then "Will Verify" else "Verifying" in
        match tr_variantDictFindReal t TR_KEY_recheckProgress with
        | Some percent => format_recheck str percent
        | None => str
        end
      else if (status =? TR_STATUS_DOWNLOAD) || (status =? TR_STATUS_SEED) then
        let fromUs := default 0 (tr_variantDictFindInt t TR_KEY_peersGettingFromUs) in
        let toUs := default 0 (tr_variantDictFindInt t TR_KEY_peersSendingToUs) in
        if negb (fromUs =? 0) && negb (toUs =? 0) then "Up & Down"
        else if negb (toUs =? 0) then "Downloading"
        else if negb (fromUs =? 0) then
          let leftUntilDone := default 0 (tr_variantDictFindInt t TR_KEY_leftUntilDone) in
          if leftUntilDone >? 0 then "Uploading" else "Seeding"
        else "Idle"
      else "Unknown"
  end.

(** The double [100.0 * num / den], kept as its operands: building one is
    evaluating the division. *)
Inductive percent : Set :=
  | Percent (num den : Z).

Definition percent_divisor (p : percent) : Z :=
  match p with
  | Percent _ den => den
  end.

(** [printDetails], the line "Percent Done" of one torrent: the percentage
    handed to [strlpercent], or no line. *)
Definition printDetails_percent_done (t : variant) : option percent :=
  i ← tr_variantDictFindInt t TR_KEY_sizeWhenDone;
  j ← tr_variantDictFindInt t TR_KEY_leftUntilDone;
  Some (Percent (i - j) i).

(** The column "Done" of [printTorrentList]: the percentage printed with
    ["%d%%"] after conversion to [int], or the text "n/a". *)
Inductive done_column : Set :=
  | DonePercent (p : percent)
  | DoneNA.

(** [printTorrentList], the [doneStr] of the row of one torrent, or no row. *)
Definition printTorrentList_doneStr (d : variant) : option done_column :=
  eta ← tr_variantDictFindInt d TR_KEY_eta;
  torId ← tr_variantDictFindInt d TR_KEY_id;
  leftUntilDone ← tr_variantDictFindInt d TR_KEY_leftUntilDone;
  name ← tr_variantDictFindStrView d TR_KEY_name;
  down ← tr_variantDictFindInt d TR_KEY_rateDownload;
  up ← tr_variantDictFindInt d TR_KEY_rateUpload;
  sizeWhenDone ← tr_variantDictFindInt d TR_KEY_sizeWhenDone;
  status ← tr_variantDictFindInt d TR_KEY_status;
  ratio ← tr_variantDictFindReal d TR_KEY_uploadRatio;
  Some (if negb (sizeWhenDone =? 0)
        then DonePercent (Percent (sizeWhenDone - leftUntilDone) sizeWhenDone)
        else DoneNA).

(** The two effective limits of the block "LIMITS" of [printSession]. *)
Record limits : Set := mk_limits {
  effective_up_limit : string;
  effective_down_limit : string;
}.

(** [printSession], the block "LIMITS": printed when all fourteen settings
    are found in the arguments of the answer. *)
Definition printSession_limits (args : variant) : option limits :=
  altDown ← tr_variantDictFindInt args TR_KEY_alt_speed_down;
  altEnabled ← tr_variantDictFindBool args TR_KEY_alt_speed_enabled;
  altBegin ← tr_variantDictFindInt args TR_KEY_alt_speed_time_begin;
  altTimeEnabled ← tr_variantDictFindBool args TR_KEY_alt_speed_time_enabled;
  altEnd ← tr_variantDictFindInt args TR_KEY_alt_speed_time_end;
  altDay ← tr_variantDictFindInt args TR_KEY_alt_speed_time_day;
  altUp ← tr_variantDictFindInt args TR_KEY_alt_speed_up;
  peerLimit ← tr_variantDictFindInt args TR_KEY_peer_limit_global;
  downLimit ← tr_variantDictFindInt args TR_KEY_speed_limit_down;
  downEnabled ← tr_variantDictFindBool args TR_KEY_speed_limit_down_enabled;
  upLimit ← tr_variantDictFindInt args TR_KEY_speed_limit_up;
  upEnabled ← tr_variantDictFindBool args TR_KEY_speed_limit_up_enabled;
  seedRatioLimit ← tr_variantDictFindReal args TR_KEY_seedRatioLimit;
  seedRatioLimited ← tr_variantDictFindBool args TR_KEY_seedRatioLimited;
  Some (mk_limits
          (if altEnabled : bool then tr_formatter_speed_KBps altUp
           else if upEnabled : bool then tr_formatter_speed_KBps upLimit
           else "Unlimited")
          (if altEnabled : bool then tr_formatter_speed_KBps altDown
           else if downEnabled : bool then tr_formatter_speed_KBps downLimit
           else "Unlimited")).

(** ** Notions used to state what the option loop does *)

(** The method a request names. *)
Definition method_of (top : variant) : option variant :=
  tr_variantDictFind top TR_KEY_method.

(** The value a request carries under [key] in its arguments. *)
Definition argument_of (top : variant) (key : tr_quark) : option variant :=
  match tr_variantDictFind top Arguments with
  | Some args => tr_variantDictFind args key
  | None => None
  end.

(** A request for [method], with an arguments dictionary. *)
Definition is_request (method : string) (top : variant) : Prop :=
  method_of top = Some (VStr method) /\
  exists args, tr_variantDictFind top Arguments = Some args.

(** The pending requests are what [ensure_sset], [ensure_tset] and the add
    option make them. *)
Definition pending_ok (st : state) : Prop :=
  (forall top, sset st = Some top -> is_request "session-set" top) /\
  (forall top, tset st = Some top -> is_request "torrent-set" top) /\
  (forall top, tadd st = Some top -> is_request "torrent-add" top).

(** The variables after a round that has not left the process. *)
Definition round_state (r : round) : option state :=
  match r with
  | Next st | Break st => Some st
  | Stop _ => None
  end.

(** The round posts exactly one request, for [method], after the requests in
    [before]. *)
Definition posts_one (r : round) (before : list variant) (method : string)
  : Prop :=
  exists st' top,
    round_state r = Some st' /\ posted st' = before ++ [top] /\
    is_request method top.

(** The numbers [addTime] reads in the two halves of its argument. *)
Definition hour_part (a : string) : Z :=
  atoi (String (char_at a 0) (String (char_at a 1) EmptyString)).

Definition minute_part (a : string) : Z :=
  atoi (String (char_at a 2) (String (char_at a 3) EmptyString)).

(** The numbers [addDays] goes through. *)
Definition listed_days (arg : option string) : list Z :=
  match arg with
  | Some a => tr_parseNumberRange (c_str a)
  | None => []
  end.

(** The options that set a speed or peer limit, and those that set a
    priority. *)
Definition limit_options : list Z := [100; 68; 117; 85; 930].
Definition priority_options : list Z := [700; 701; 702; 900; 901; 902].

End WithExternals.
End Remote.

(** ** The piece-assembly engine of the design document *)

Module Engine.
Local Open Scope nat_scope.

Abbreviation bytes := (list Byte.byte).
Abbreviation peer_id := nat.

(** Modelled from the spec: BitField (section 4.2), of which no source is at
    hand: a bit vector of fixed size with [set] and [test]. *)
Abbreviation BitField := (list bool).

(** Modelled from the spec: a BitField of a given length with no bit set, of
    which no source is at hand. *)
Definition BitField_new (size : nat) : BitField := replicate size false.

(** Modelled from the spec: BitField.set (section 4.2), of which no source is
    at hand; the size is fixed, an index past it sets nothing. *)
Definition BitField_set (index : nat) (b : BitField) : BitField :=
  <[index := true]> b.

(** Modelled from the spec: BitField.test (section 4.2), of which no source
    is at hand. *)
Definition BitField_test (b : BitField) (index : nat) : bool :=
  default false (b !! index).

(** Modelled from the spec: PendingPiece (data model), of which no source is
    at hand: the request state of each block of a piece in progress, the
    received blocks with their bytes. *)
Inductive block_state : Type :=
  | NotRequested
  | RequestedFrom (p : peer_id) (timestamp : nat)
  | Received (data : bytes).

Abbreviation PendingPiece := (gmap nat block_state).

Section WithHash.

(** The cryptographic digest of the manifest: its values and the function
    that computes it. *)
Context {digest : Type} `{EqDecision digest} (hash : list Byte.byte -> digest).

(** Modelled from the spec: PieceManifest (data model and section 4.1), of
    which no source is at hand: piece count, piece length, total length and
    the expected digest of each piece; the length of a block is fixed, the
    last block of a piece may be shorter. *)
Record PieceManifest : Type := mk_manifest {
  piece_count : nat;
  piece_length : nat;
  total_length : nat;
  block_length : nat;
  hashes : list digest;
}.

(** Modelled from the spec: PieceManifest.expectedHash (section 4.1), of
    which no source is at hand. *)
Definition expectedHash (m : PieceManifest) (index : nat) : option digest :=
  hashes m !! index.

(** Modelled from the spec: PieceManifest.pieceLength (section 4.1), of which
    no source is at hand: the last piece takes what is left of the total
    length. *)
Definition pieceLength (m : PieceManifest) (index : nat) : nat :=
  if decide (S index = piece_count m)
  then total_length m - piece_length m * index
  else piece_length m.

(** Modelled from the spec: the blocks of a piece (data model, Block), of
    which no source is at hand: their offsets, in order. *)
Definition block_offsets (m : PieceManifest) (index : nat) : list nat :=
  let len := pieceLength m index in
  let n := (len + block_length m - 1) `div` block_length m in
  (λ k, k * block_length m) <$> seq 0 n.

(** Modelled from the spec: the Torrent of the data model, of which no source
    is at hand, as far as piece assembly goes: its manifest, its bit field of
    local possession, its pieces in progress, the bytes committed to storage
    piece by piece, and the corruption-suspicion counter of each peer. *)
Record Torrent : Type := mk_torrent {
  manifest : PieceManifest;
  bitfield : BitField;
  pending : gmap nat PendingPiece;
  storage : gmap nat bytes;
  suspicion : gmap peer_id nat;
}.

(** Modelled from the spec: the error taxonomy (section 7), of which no
    source is at hand, as far as piece assembly signals it. *)
Inductive error : Set :=
  | UnrequestedBlockError.

(** Modelled from the spec: the creation of a Torrent on add (data model,
    lifecycle), of which no source is at hand: nothing owned, nothing
    stored. *)
Definition create (m : PieceManifest) : Torrent :=
  mk_torrent m (BitField_new (piece_count m)) ∅ ∅ ∅.

(** Modelled from the spec: the completion test of PieceAssembler (section
    4.4), of which no source is at hand: the concatenated bytes of a piece
    when every block of it has been received. *)
Definition assemble (pp : PendingPiece) (offsets : list nat) : option bytes :=
  (λ blocks, concat blocks) <$> mapM (λ o, match pp !! o with
                        | Some (Received data) => Some data
                        | _ => None
                        end) offsets.

(** Modelled from the spec: BlockRequestTracker.requestBlock (section 4.3),
    of which no source is at hand: the block is recorded as requested from
    the peer; the pending piece is created with its first request. *)
Definition requestBlock (t : Torrent) (p : peer_id) (piece offset now : nat)
  : Torrent :=
  let pp := default ∅ (pending t !! piece) in
  mk_torrent (manifest t) (bitfield t)
    (<[piece := <[offset := RequestedFrom p now]> pp]> (pending t))
    (storage t) (suspicion t).

(** Modelled from the spec: PieceAssembler.onBlockReceived (section 4.4), of
    which no source is at hand. A block that is not tracked as requested for
    that piece from that peer is rejected. Otherwise the payload is stored;
    when all blocks of the piece are present the digest of the concatenated
    bytes is compared to the expected one. On a match the bytes are committed
    to storage, the bit is marked and the pending piece is discarded. On a
    mismatch the received blocks are discarded, the request state is reset
    and the suspicion counter of the peer goes up by one. *)
Definition onBlockReceived (t : Torrent) (p : peer_id) (piece offset : nat)
    (data : bytes) : Torrent * option error :=
  match pending t !! piece with
  | Some pp =>
      match pp !! offset with
      | Some (RequestedFrom q _) =>
          if decide (q = p) then
            let pp' := <[offset := Received data]> pp in
            match assemble pp' (block_offsets (manifest t) piece) with
            | Some whole =>
                if decide (expectedHash (manifest t) piece = Some (hash whole)) then
                  (mk_torrent (manifest t) (BitField_set piece (bitfield t))
                     (delete piece (pending t))
                     (<[piece := whole]> (storage t)) (suspicion t), None)
                else
                  (mk_torrent (manifest t) (bitfield t)
                     (<[piece := (λ _, NotRequested) <$> pp']> (pending t))
                     (storage t)
                     (<[p := S (default 0 (suspicion t !! p))]> (suspicion t)),
                   None)
            | None =>
                (mk_torrent (manifest t) (bitfield t)
                   (<[piece := pp']> (pending t)) (storage t) (suspicion t), None)
            end
          else (t, Some UnrequestedBlockError)
      | _ => (t, Some UnrequestedBlockError)
      end
  | None => (t, Some UnrequestedBlockError)
  end.

(** Modelled from the spec: abandonment of a piece in progress and the
    cancellation on stop (data model, section 5), of which no source is at
    hand: the pending piece is discarded. *)
Definition abandon (t : Torrent) (piece : nat) : Torrent :=
  mk_torrent (manifest t) (bitfield t) (delete piece (pending t))
    (storage t) (suspicion t).

(** Modelled from the spec: Storage.verifyExistingData (section 6), of which
    no source is at hand: the bit field is rebuilt by hashing again the
    pieces found in storage. *)
Definition verifyExistingData (t : Torrent) : Torrent :=
  mk_torrent (manifest t)
    ((λ index, match storage t !! index with
               | Some stored =>
                   bool_decide (expectedHash (manifest t) index = Some (hash stored))
               | None => false
               end)
       <$> seq 0 (piece_count (manifest t)))
    (pending t) (storage t) (suspicion t).

(** Modelled from the spec: what happens to a torrent between its creation
    and its removal (sections 4.3, 4.4, 5 and 6), of which no source is at
    hand. *)
Inductive event : Type :=
  | RequestBlock (p : peer_id) (piece offset now : nat)
  | BlockReceived (p : peer_id) (piece offset : nat) (data : bytes)
  | Abandon (piece : nat)
  | VerifyExistingData.

(** Modelled from the spec: the effect of one event on a torrent; per-peer
    errors are contained and leave the torrent as it was (section 7). *)
Definition step (t : Torrent) (e : event) : Torrent :=
  match e with
  | RequestBlock p piece offset now => requestBlock t p piece offset now
  | BlockReceived p piece offset data => fst (onBlockReceived t p piece offset data)
  | Abandon piece => abandon t piece
  | VerifyExistingData => verifyExistingData t
  end.

(** Modelled from the spec: the single scheduling context (section 5)
    handles the events one after the other. *)
Definition run (t : Torrent) (events : list event) : Torrent :=
  foldl step t events.

(** No false completion: a set bit stands for stored bytes that hash to the
    digest the manifest expects. *)
Definition no_false_completion (t : Torrent) : Prop :=
  forall index,
    BitField_test (bitfield t) index = true ->
    exists stored,
      storage t !! index = Some stored /\
      expectedHash (manifest t) index = Some (hash stored).

End WithHash.
End Engine.

(** ** A sample of surroundings

    One choice for everything the program takes from outside, to run the
    definitions above on concrete command lines and answers. *)

Module Sample.
Import Remote.

(** The text of [s] up to the first [c], and what follows that [c]. *)
Fixpoint split_at (c : ascii) (s : string) : string * option string :=
  match s with
  | EmptyString => (EmptyString, None)
  | String d r =>
      if Ascii.eqb c d then (EmptyString, Some r)
      else let '(token, rest) := split_at c r in (String d token, rest)
  end.

Fixpoint tokens_fuel (fuel : nat) (c : ascii) (s : string) : list string :=
  match fuel with
  | O => []
  | S fuel =>
      match s with
      | EmptyString => []
      | _ =>
          let '(token, rest) := split_at c s in
          token :: match rest with
                   | Some r => tokens_fuel fuel c r
                   | None => []
                   end
      end
  end.

Definition tokens (c : ascii) (s : string) : list string :=
  tokens_fuel (S (String.length s)) c s.

(** One section of a number range: [n] or [n-m]. *)
Definition number_section (s : string) : option (list Z) :=
  match s with
  | String c _ =>
      if isdigit c then
        let '(low, rest) := scan_digits 0 s in
        match rest with
        | EmptyString => Some [low]
        | String d (String e r) =>
            if (char_code d =? 45) && isdigit e then
              let '(high, rest') := scan_digits 0 (String e r) in
              match rest' with
              | EmptyString => Some (map (fun k => low + Z.of_nat k)
                                       (seq 0 (Z.to_nat (high - low + 1))))
              | _ => None
              end
            else None
        | _ => None
        end
      else None
  | EmptyString => None
  end.

Definition number_range (s : string) : list Z :=
  default [] ((λ sections, concat sections) <$> mapM number_section (tokens "," s)).

Definition parse_list_str (s : string) : tr_variant Z :=
  match number_range s with
  | [] => VStr s
  | [n] => VInt n
  | l => VList (map VInt l)
  end.

Definition find_int (v : tr_variant Z) (key : tr_quark) : option Z :=
  match tr_variantDictFind v key with
  | Some (VInt i) => Some i
  | _ => None
  end.

Definition find_bool (v : tr_variant Z) (key : tr_quark) : option bool :=
  match tr_variantDictFind v key with
  | Some (VBool b) => Some b
  | _ => None
  end.

Definition find_real (v : tr_variant Z) (key : tr_quark) : option Z :=
  match tr_variantDictFind v key with
  | Some (VReal d) => Some d
  | _ => None
  end.

Definition find_str (v : tr_variant Z) (key : tr_quark) : option string :=
  match tr_variantDictFind v key with
  | Some (VStr s) => Some s
  | _ => None
  end.

(** A daemon that accepts every request and gives the id 7 to the torrent of
    every add request. *)
Definition accept_all (before : list (tr_variant Z)) (req : tr_variant Z)
  : reply :=
  mk_reply EXIT_SUCCESS
    (match find_str req TR_KEY_method with
     | Some m => if String.eqb m "torrent-add" then Some 7 else None
     | None => None
     end).

(** Reals are counted in hundredths. *)
#[export] Instance externals : Externals := {|
  double := Z;
  atof := fun s => 100 * atoi s;
  format_recheck := fun str percent => str +:+ " (" +:+ decimal percent +:+ "%)";
  tr_formatter_speed_KBps := fun speed => decimal speed +:+ " kB/s";
  tr_parseNumberRange := number_range;
  tr_rpc_parse_list_str := parse_list_str;
  tr_strvSep_tokens := tokens ",";
  tr_quark_get_string_view := fun k => "#" +:+ decimal (Z.of_N (quark_index k));
  tr_loadFile := fun _ => None;
  tr_base64_encode := fun s => s;
  tr_variantDictFindInt := find_int;
  tr_variantDictFindBool := find_bool;
  tr_variantDictFindReal := find_real;
  tr_variantDictFindStrView := find_str;
  TR_STATUS_STOPPED := 0;
  TR_STATUS_CHECK_WAIT := 1;
  TR_STATUS_CHECK := 2;
  TR_STATUS_DOWNLOAD_WAIT := 3;
  TR_STATUS_DOWNLOAD := 4;
  TR_STATUS_SEED_WAIT := 5;
  TR_STATUS_SEED := 6;
  TR_RATIOLIMIT_GLOBAL := 0;
  TR_RATIOLIMIT_SINGLE := 1;
  TR_RATIOLIMIT_UNLIMITED := 2;
  LONG_VERSION_STRING := "4.0.0";
  env_TR_AUTH := None;
  daemon := accept_all;
|}.

(** The command line [-t 3]. *)
Definition select_3 : list (getopt_val * option string) :=
  [(OPT 116, Some "3")].

Definition selected_3 : state :=
  mk_state None None None "3" 0 false None None false [] [].

(** The arguments of a session-info answer with the turtle limits on. *)
Definition session_answer : tr_variant Z :=
  VDict
    [(TR_KEY_alt_speed_down, VInt 50); (TR_KEY_alt_speed_enabled, VBool true);
     (TR_KEY_alt_speed_time_begin, VInt 540);
     (TR_KEY_alt_speed_time_enabled, VBool false);
     (TR_KEY_alt_speed_time_end, VInt 1020); (TR_KEY_alt_speed_time_day, VInt 127);
     (TR_KEY_alt_speed_up, VInt 10); (TR_KEY_peer_limit_global, VInt 200);
     (TR_KEY_speed_limit_down, VInt 1000);
     (TR_KEY_speed_limit_down_enabled, VBool false);
     (TR_KEY_speed_limit_up, VInt 100); (TR_KEY_speed_limit_up_enabled, VBool true);
     (TR_KEY_seedRatioLimit, VReal 200); (TR_KEY_seedRatioLimited, VBool false)].

(** The arguments of a session-info answer that holds the seven speed
    settings and nothing else. *)
Definition speed_settings_alone : tr_variant Z :=
  VDict
    [(TR_KEY_alt_speed_down, VInt 50); (TR_KEY_alt_speed_enabled, VBool true);
     (TR_KEY_alt_speed_up, VInt 10); (TR_KEY_speed_limit_down, VInt 1000);
     (TR_KEY_speed_limit_down_enabled, VBool false);
     (TR_KEY_speed_limit_up, VInt 100); (TR_KEY_speed_limit_up_enabled, VBool true)].

(** A stopped torrent that has reached its seed ratio. *)
Definition finished_torrent : tr_variant Z :=
  VDict [(TR_KEY_status, VInt 0); (TR_KEY_isFinished, VBool true)].

Import Engine.

(** A toy digest: the sum of the bytes modulo 256. *)
Definition checksum (data : list Byte.byte) : N :=
  foldr (fun b acc => (Byte.to_N b + acc) mod 256)%N 0%N data.

Definition one_piece : PieceManifest :=
  mk_manifest 1 4 4 2 [10%N].

Definition download : list event :=
  [RequestBlock 1 0 0 0; RequestBlock 1 0 2 0;
   BlockReceived 1 0 0 [Byte.x01; Byte.x02];
   BlockReceived 1 0 2 [Byte.x03; Byte.x04]]%nat.

End Sample.

(** * The rest of the front end: definitions *)

Import Remote.

(** ** More of the C library *)

Module CLibMore.

(** Whether [strtol] reports a range error ([errno = ERANGE]): the number
    written does not fit a 64-bit [long]. *)
Definition strtol_erange (nptr : string) : bool :=
  let s := skip_space (c_str nptr) in
  let '(neg, body) :=
    match s with
    | String c r =>
        if (char_code c =? 45) then (true, r)
        else if (char_code c =? 43) then (false, r)
        else (false, s)
    | EmptyString => (false, s)
    end in
  match body with
  | String c _ =>
      if isdigit c then
        let '(v, _) := scan_digits 0 body in
        let x := if (neg : bool) then - v else v in
        (x <? LONG_MIN) || (LONG_MAX <? x)
      else false
  | EmptyString => false
  end.

(** What [snprintf] leaves in a buffer of [buflen] bytes when asked to write
    [text]: at most [buflen - 1] characters and the terminating NUL. *)
Definition snprintf (buflen : nat) (text : string) : string :=
  String.substring 0 (buflen - 1) text.

(** [strncmp(s, prefix, strlen(prefix)) == 0]. *)
Definition has_prefix (prefix s : string) : bool :=
  String.prefix (c_str prefix) (c_str s).

(** [s + n], for [n] within the string. *)
Definition advance (n : nat) (s : string) : string :=
  String.substring n (String.length (c_str s) - n) (c_str s).

(** The offset of the first [c] in [s]: [strchr(s, c) - s]. *)
Fixpoint first_index (c : ascii) (s : string) : option nat :=
  match s with
  | EmptyString => None
  | String d r =>
      if Ascii.eqb c d then Some O
      else match first_index c r with
           | Some i => Some (S i)
           | None => None
           end
  end.

(** The offset of the last [c] in [s]: [strrchr(s, c) - s]. *)
Fixpoint last_index (c : ascii) (s : string) : option nat :=
  match s with
  | EmptyString => None
  | String d r =>
      match last_index c r with
      | Some i => Some (S i)
      | None => if Ascii.eqb c d then Some O else None
      end
  end.

Definition INT64_MAX : Z := 2 ^ 63 - 1.
Definition INT64_MIN : Z := - 2 ^ 63.

(** Whether the result of an operation on [int64_t] is within its range;
    outside it the behaviour of the operation is undefined. *)
Definition in_int64 (z : Z) : bool := (INT64_MIN <=? z) && (z <=? INT64_MAX).

(** The number a run of decimal digits writes, read from the left on top of
    [acc]. *)
Fixpoint digits_value (acc : Z) (s : string) : Z :=
  match s with
  | String c r => digits_value (10 * acc + digit_value c) r
  | EmptyString => acc
  end.

End CLibMore.

Import CLibMore.

(** ** remote.cc: what else it takes from its surroundings *)

Class MoreExternals `{Externals} : Type := {
  (** libtransmission: utils.h, variant.h *)
  tr_formatter_size_B : Z -> string;
  tr_formatter_mem_B : Z -> string;
  tr_base64_decode : string -> string;
  (** [tr_variantFromBuf] on a JSON text: the value it parses, if it does *)
  tr_variantFromBuf : string -> option variant;
  (** transmission.h *)
  TR_DEFAULT_RPC_PORT : Z;
  TR_DEFAULT_RPC_URL_STR : string;
  TR_SCHED_SUN : Z;
  TR_SCHED_MON : Z;
  TR_SCHED_TUES : Z;
  TR_SCHED_WED : Z;
  TR_SCHED_THURS : Z;
  TR_SCHED_FRI : Z;
  TR_SCHED_SAT : Z;
}.

(** ** remote.cc: the rest of the display utilities *)

Module Display.
Section WithExternals.
Context `{MoreExternals}.

Definition newline : string := String (ascii_of_N 10) EmptyString.

(** [etaToString]: what it leaves in a buffer of [buflen] bytes
    ([tr_snprintf] is [snprintf]). The divisions are those of C, on a
    dividend that is not negative. *)
Definition etaToString (buflen : nat) (eta : Z) : string :=
  if eta <? 0 then snprintf buflen "Unknown"
  else if eta <? 60 then snprintf buflen (decimal eta +:+ " sec")
  else if eta <? 60 * 60 then
    snprintf buflen (decimal (Z.quot eta 60) +:+ " min")
  else if eta <? 60 * 60 * 24 then
    snprintf buflen (decimal (Z.quot eta (60 * 60)) +:+ " hrs")
  else snprintf buflen (decimal (Z.quot eta (60 * 60 * 24)) +:+ " days").

(** ["%d %s"] with the singular or the plural of a unit. *)
Definition counted (n : Z) (one many : string) : string :=
  decimal n +:+ " " +:+ (if n =? 1 then one else many).

(** The four numbers [tr_strltime] splits a duration into. *)
Record split_time : Set := mk_split_time {
  days : Z;
  hours : Z;
  minutes : Z;
  secs : Z;
}.

(** The arithmetic of [tr_strltime] on its [int seconds], negative values
    counting as zero. *)
Definition split_seconds (seconds : Z) : split_time :=
  let seconds := if seconds <? 0 then 0 else seconds in
  mk_split_time
    (Z.quot seconds 86400)
    (Z.quot (Z.rem seconds 86400) 3600)
    (Z.quot (Z.rem seconds 3600) 60)
    (Z.rem (Z.rem seconds 3600) 60).

(** [tr_strltime], the text it leaves in [buf]: its callers pass 512 bytes,
    and its own buffers of 128 bytes hold every text an [int] can give. *)
Definition tr_strltime (seconds : Z) : string :=
  let total_seconds := if seconds <? 0 then 0 else seconds in
  let parts := split_seconds seconds in
  let h := counted (hours parts) "hour" "hours" in
  let m := counted (minutes parts) "minute" "minutes" in
  let s := counted (secs parts) "second" "seconds" in
  let t := counted total_seconds "second" "seconds" in
  let b :=
    if negb (days parts =? 0) then
      let d := counted (days parts) "day" "days" in
      if (days parts >=? 4) || (hours parts =? 0) then d
      else d +:+ ", " +:+ h
    else if negb (hours parts =? 0) then
      if (hours parts >=? 4) || (minutes parts =? 0) then h
      else h +:+ ", " +:+ m
    else if negb (minutes parts =? 0) then
      if (minutes parts >=? 4) || (secs parts =? 0) then m
      else m +:+ ", " +:+ s
    else s in
  b +:+ " (" +:+ t +:+ ")".

(** The durations are [int64_t] at the call sites and [int] in
    [tr_strltime]. *)
Definition tr_strltime_of_int64 (i : Z) : string := tr_strltime (wrap_int i).

Definition strlmem (bytes : Z) : string :=
  if bytes =? 0 then "None" else tr_formatter_mem_B bytes.

Definition strlsize (bytes : Z) : string :=
  if bytes <? 0 then "Unknown"
  else if bytes =? 0 then "None"
  else tr_formatter_size_B bytes.

(** The inner loop of [printPiecesImpl] on one byte: the bits it prints, from
    bit [bit] on, and the piece it stops at; [todo] is [8 - bit]. *)
Fixpoint byte_bits (ch : ascii) (bit todo : nat) (piece piece_count : N)
  : string * N :=
  match todo with
  | O => (EmptyString, piece)
  | S todo =>
      if (piece <? piece_count)%N then
        let c : ascii :=
          if negb (Z.land (char_code ch) (Z.shiftl 1 (7 - Z.of_nat bit)) =? 0)
          then "1"%char else "0"%char in
        let '(rest, piece') := byte_bits ch (S bit) todo (N.succ piece) piece_count in
        (String c rest, piece')
      else (EmptyString, piece)
  end.

(** The outer loop of [printPiecesImpl] over the decoded bytes. *)
Fixpoint pieces_rows (str : string) (piece piece_count : N) : string :=
  match str with
  | EmptyString => EmptyString
  | String ch rest =>
      let '(bits, piece') := byte_bits ch 0 8 piece piece_count in
      bits +:+ " " +:+
      (if (piece' mod 64 =? 0)%N then newline +:+ "  " else EmptyString) +:+
      pieces_rows rest piece' piece_count
  end.

(** [printPiecesImpl], what it prints. *)
Definition printPiecesImpl (raw : string) (piece_count : N) : string :=
  "  " +:+ pieces_rows (tr_base64_decode raw) 0 piece_count +:+ newline.

(** The loop of [printPieces] over the torrents of the answer: the maps it
    prints, or [None] when its assertion [j >= 0] fails. *)
Fixpoint printPieces_loop (torrents : list variant) : option (list string) :=
  match torrents with
  | [] => Some []
  | torrent :: rest =>
      match tr_variantDictFindStrView torrent TR_KEY_pieces,
            tr_variantDictFindInt torrent TR_KEY_pieceCount with
      | Some raw, Some j =>
          if 0 <=? j then
            maps ← printPieces_loop rest;
            Some (printPiecesImpl raw (Z.to_N j) :: maps)
          else None
      | _, _ => printPieces_loop rest
      end
  end.

(** A torrent on which the assertion of [printPieces] fails: it has its
    pieces and a piece count below zero. *)
Definition negative_piece_count (torrent : variant) : Prop :=
  exists raw j,
    tr_variantDictFindStrView torrent TR_KEY_pieces = Some raw /\
    tr_variantDictFindInt torrent TR_KEY_pieceCount = Some j /\ j < 0.

(** [printPieces]: the maps it prints, or [None] when its assertion fails. *)
Definition printPieces (top : variant) : option (list string) :=
  match
    args ← tr_variantDictFindDict top TR_KEY_arguments;
    tr_variantDictFindList args TR_KEY_torrents
  with
  | Some torrents => printPieces_loop torrents
  | None => Some []
  end.

Definition bandwidthPriorityNames : list string :=
  ["Low"; "Normal"; "High"; "Invalid"].

(** [bandwidthPriorityNames[(i + 1) & 3]]; [None] would be a read outside the
    array. *)
Definition bandwidthPriorityName (i : Z) : option string :=
  let index := Z.land (i + 1) 3 in
  if index <? 0 then None else bandwidthPriorityNames !! Z.to_nat index.

(** [printDetails], the line "Bandwidth Priority" of one torrent. *)
Definition printDetails_bandwidth_priority (t : variant) : option (option string) :=
  i ← tr_variantDictFindInt t TR_KEY_bandwidthPriority;
  Some (bandwidthPriorityName i).

(** [printDetails], the line "ETA" of one torrent. *)
Definition printDetails_eta (t : variant) : option string :=
  i ← tr_variantDictFindInt t TR_KEY_eta;
  Some (tr_strltime_of_int64 i).

(** [printDetails], the line "Ratio" of one torrent. *)
Definition printDetails_ratio (t : variant) : option ratio :=
  i ← tr_variantDictFindInt t TR_KEY_totalSize;
  j ← tr_variantDictFindInt t TR_KEY_uploadedEver;
  Some (strlratio j i).

(** [printDetails], the lines "Availability" of one torrent: the text "None"
    when the size is below 1, and the percentage [100.0 * j / i], kept as its
    operands. *)
Record availability : Set := mk_availability {
  availability_none : bool;
  availability_percent : option percent;
}.

Definition printDetails_availability (t : variant) : option availability :=
  i ← tr_variantDictFindInt t TR_KEY_sizeWhenDone;
  Some (mk_availability (i <? 1)
          (j ← tr_variantDictFindInt t TR_KEY_desiredAvailable;
           k ← tr_variantDictFindInt t TR_KEY_leftUntilDone;
           Some (Percent (j + (i - k)) i))).

(** ["%02d:%02d"] of [(int)(minutes / 60)] and [(int)(minutes % 60)]: the two
    numbers. *)
Definition schedule_clock (minutes : Z) : Z * Z :=
  (wrap_int (Z.quot minutes 60), wrap_int (Z.rem minutes 60)).

(** The line "Turtle schedule" of [printSession]: begin, end and the names of
    the days. *)
Record schedule : Set := mk_schedule {
  schedule_begin : Z * Z;
  schedule_end : Z * Z;
  schedule_days : list string;
}.

Definition schedule_day_names (altDay : Z) : list string :=
  (if negb (Z.land altDay TR_SCHED_SUN =? 0) then ["Sun"] else []) ++
  (if negb (Z.land altDay TR_SCHED_MON =? 0) then ["Mon"] else []) ++
  (if negb (Z.land altDay TR_SCHED_TUES =? 0) then ["Tue"] else []) ++
  (if negb (Z.land altDay TR_SCHED_WED =? 0) then ["Wed"] else []) ++
  (if negb (Z.land altDay TR_SCHED_THURS =? 0) then ["Thu"] else []) ++
  (if negb (Z.land altDay TR_SCHED_FRI =? 0) then ["Fri"] else []) ++
  (if negb (Z.land altDay TR_SCHED_SAT =? 0) then ["Sat"] else []).

(** [printSession], the line "Turtle schedule" of the block "LIMITS". *)
Definition printSession_schedule (args : variant) : option schedule :=
  altDown ← tr_variantDictFindInt args TR_KEY_alt_speed_down;
  altEnabled ← tr_variantDictFindBool args TR_KEY_alt_speed_enabled;
  altBegin ← tr_variantDictFindInt args TR_KEY_alt_speed_time_begin;
  altTimeEnabled ← tr_variantDictFindBool args TR_KEY_alt_speed_time_enabled;
  altEnd ← tr_variantDictFindInt args TR_KEY_alt_speed_time_end;
  altDay ← tr_variantDictFindInt args TR_KEY_alt_speed_time_day;
  altUp ← tr_variantDictFindInt args TR_KEY_alt_speed_up;
  peerLimit ← tr_variantDictFindInt args TR_KEY_peer_limit_global;
  downLimit ← tr_variantDictFindInt args TR_KEY_speed_limit_down;
  downEnabled ← tr_variantDictFindBool args TR_KEY_speed_limit_down_enabled;
  upLimit ← tr_variantDictFindInt args TR_KEY_speed_limit_up;
  upEnabled ← tr_variantDictFindBool args TR_KEY_speed_limit_up_enabled;
  seedRatioLimit ← tr_variantDictFindReal args TR_KEY_seedRatioLimit;
  seedRatioLimited ← tr_variantDictFindBool args TR_KEY_seedRatioLimited;
  if altTimeEnabled : bool then
    Some (mk_schedule (schedule_clock altBegin) (schedule_clock altEnd)
            (schedule_day_names altDay))
  else None.

End WithExternals.
End Display.

(** ** remote.cc: answers, and the first argument *)

Module Startup.
Section WithExternals.
Context `{MoreExternals}.
Import Display.

(** What [processResponse] writes to stdout: the rendering of the answer by
    the printer of its tag, the line that quotes the result, the line that
    reports an error result, or nothing. *)
Inductive rendered : Set :=
  | Rendered (tag : Z)
  | Responded (sv : string)
  | ErrorResult (sv : string)
  | Silent.

Record response_effect : Set := mk_response_effect {
  response_status : Z;
  response_id : string;
  response_out : rendered;
}.

(** [processResponse], given the current-torrent buffer [id]: its return
    value, the buffer as it leaves it, and what it prints, the trace of the
    debug option aside; [None] when the assertion of [printPieces], the one
    assertion of the printers, fails. The buffer of 4096 bytes holds the
    decimal text of every [int64_t]. *)
Definition processResponse (response : string) (id : string)
  : option response_effect :=
  match tr_variantFromBuf response with
  | None => Some (mk_response_effect EXIT_FAILURE id Silent)
  | Some top =>
      match tr_variantDictFindStrView top TR_KEY_result with
      | Some sv =>
          if negb (String.eqb sv "success") then
            Some (mk_response_effect EXIT_FAILURE id (ErrorResult sv))
          else
            let tag := default (-1) (tr_variantDictFindInt top TR_KEY_tag) in
            match tag with
            | 0 | 1 | 2 | 3 | 4 | 5 | 7 | 9 =>
                Some (mk_response_effect EXIT_SUCCESS id (Rendered tag))
            | 6 =>
                match printPieces top with
                | Some _ => Some (mk_response_effect EXIT_SUCCESS id (Rendered tag))
                | None => None
                end
            | _ =>
                let id' :=
                  if tag =? TAG_TORRENT_ADD then
                    match
                      b ← tr_variantDictFindDict top Arguments;
                      b ← tr_variantDictFindDict b TR_KEY_torrent_added;
                      tr_variantDictFindInt b TR_KEY_id
                    with
                    | Some i => decimal i
                    | None => id
                    end
                  else id in
                match tr_variantDictFindStrView top TR_KEY_result with
                | None => Some (mk_response_effect EXIT_FAILURE id' Silent)
                | Some sv =>
                    Some (mk_response_effect
                            (if negb (String.eqb sv "success") then EXIT_FAILURE
                             else EXIT_SUCCESS)
                            id' (Responded sv))
                end
            end
      | None => Some (mk_response_effect EXIT_FAILURE id Silent)
      end
  end.

(** [tr_strvJoin(UseSSL ? "https://" : "http://", rpcurl)], the URL [flush]
    posts to. *)
Definition rpcurl_http (UseSSL : bool) (rpcurl : string) : string :=
  (if UseSSL then "https://" else "http://") +:+ rpcurl.

(** [parsePortString]: the port it stores, if it accepts the text. The only
    error [strtol] reports through [errno] is the range error. *)
Definition parsePortString (s : string) : option Z :=
  let '(i, end_) := strtol s in
  if String.eqb end_ EmptyString && negb (strtol_erange s)
  then Some (wrap_int i) else None.

(** What [tr_main] hands to [getHostAndPortAndRpcUrl] by address, and the
    global [UseSSL]. *)
Record target : Set := mk_target {
  host : string;
  port : Z;
  rpcurl : string;
  UseSSL : bool;
}.

(** [getHostAndPortAndRpcUrl]: [argv] and the variables as it leaves them.
    It is called with at least two arguments. *)
Definition getHostAndPortAndRpcUrl (argv : list string) (t : target)
  : list string * target :=
  match argv with
  | program :: s :: rest =>
      if char_code (char_at s 0) =? 45 (* - *) then (argv, t)
      else
        let t' :=
          if has_prefix "http://" s then
            mk_target (host t) (port t) (advance 7 s +:+ "/rpc/") (UseSSL t)
          else if has_prefix "https://" s then
            mk_target (host t) (port t) (advance 8 s +:+ "/rpc/") true
          else
            match parsePortString s with
            | Some p => mk_target (host t) p (rpcurl t) (UseSSL t)
            | None =>
                match last_index ":" (c_str s) with
                | None => mk_target (c_str s) (port t) (rpcurl t) (UseSSL t)
                | Some last_colon =>
                    let after_colon :=
                      if bool_decide (first_index ":" (c_str s) = Some last_colon)
                      then parsePortString (advance (S last_colon) s)
                      else None in
                    let hend :=
                      match after_colon with
                      | Some _ => last_colon
                      | None => String.length (c_str s)
                      end in
                    let is_unbracketed_ipv6 :=
                      negb (char_code (char_at s 0) =? 91 (* [ *)) &&
                      match first_index ":" (String.substring 0 hend (c_str s)) with
                      | Some _ => true
                      | None => false
                      end in
                    let sv := String.substring 0 hend (c_str s) in
                    mk_target
                      (if is_unbracketed_ipv6 then "[" +:+ sv +:+ "]" else sv)
                      (default (port t) after_colon) (rpcurl t) (UseSSL t)
                end
            end in
        (program :: rest, t')
  | _ => (argv, t)
  end.

Definition DefaultHost : string := "localhost".
Definition DefaultUrl : string := TR_DEFAULT_RPC_URL_STR +:+ "rpc/".

(** [tr_main] up to its call of [processArgs]: the URL and the arguments it
    passes on and the global [UseSSL], or [None] when it prints the usage and
    returns [EXIT_FAILURE]. *)
Definition tr_main (argv : list string) : option (string * list string * bool) :=
  if (length argv <? 2)%nat then None
  else
    let '(argv, t) :=
      getHostAndPortAndRpcUrl argv
        (mk_target EmptyString TR_DEFAULT_RPC_PORT EmptyString false) in
    let host := if String.eqb (host t) EmptyString then DefaultHost else host t in
    let rpcurl :=
      if String.eqb (rpcurl t) EmptyString
      then host +:+ ":" +:+ decimal (port t) +:+ DefaultUrl
      else rpcurl t in
    Some (rpcurl, argv, UseSSL t).

End WithExternals.
End Startup.

(** ** remote.cc: the table of options *)

Module OptionTable.

(** An entry of [Options], without its description and the name of its
    argument, which only the usage text shows. *)
Record tr_option : Set := mk_option {
  val : Z;
  longName : string;
  shortName : option string;
  has_arg : bool;
}.

Definition Options : list tr_option :=
  [mk_option 97 (* a *) "add" (Some "a") false;
   mk_option 970 "alt-speed" (Some "as") false;
   mk_option 971 "no-alt-speed" (Some "AS") false;
   mk_option 972 "alt-speed-downlimit" (Some "asd") true;
   mk_option 973 "alt-speed-uplimit" (Some "asu") true;
   mk_option 974 "alt-speed-scheduler" (Some "asc") false;
   mk_option 975 "no-alt-speed-scheduler" (Some "ASC") false;
   mk_option 976 "alt-speed-time-begin" None true;
   mk_option 977 "alt-speed-time-end" None true;
   mk_option 978 "alt-speed-days" None true;
   mk_option 963 "blocklist-update" None false;
   mk_option 99 (* c *) "incomplete-dir" (Some "c") true;
   mk_option 67 (* C *) "no-incomplete-dir" (Some "C") false;
   mk_option 98 (* b *) "debug" (Some "b") false;
   mk_option 100 (* d *) "downlimit" (Some "d") true;
   mk_option 68 (* D *) "no-downlimit" (Some "D") false;
   mk_option 101 (* e *) "cache" (Some "e") true;
   mk_option 910 "encryption-required" (Some "er") false;
   mk_option 911 "encryption-preferred" (Some "ep") false;
   mk_option 912 "encryption-tolerated" (Some "et") false;
   mk_option 850 "exit" None false;
   mk_option 940 "files" (Some "f") false;
   mk_option 103 (* g *) "get" (Some "g") true;
   mk_option 71 (* G *) "no-get" (Some "G") true;
   mk_option 105 (* i *) "info" (Some "i") false;
   mk_option 940 "info-files" (Some "if") false;
   mk_option 941 "info-peers" (Some "ip") false;
   mk_option 942 "info-pieces" (Some "ic") false;
   mk_option 943 "info-trackers" (Some "it") false;
   mk_option 920 "session-info" (Some "si") false;
   mk_option 921 "session-stats" (Some "st") false;
   mk_option 108 (* l *) "list" (Some "l") false;
   mk_option 76 (* L *) "labels" (Some "L") true;
   mk_option 960 "move" None true;
   mk_option 961 "find" None true;
   mk_option 109 (* m *) "portmap" (Some "m") false;
   mk_option 77 (* M *) "no-portmap" (Some "M") false;
   mk_option 110 (* n *) "auth" (Some "n") true;
   mk_option 810 "authenv" (Some "ne") false;
   mk_option 78 (* N *) "netrc" (Some "N") true;
   mk_option 820 "ssl" None false;
   mk_option 111 (* o *) "dht" (Some "o") false;
   mk_option 79 (* O *) "no-dht" (Some "O") false;
   mk_option 112 (* p *) "port" (Some "p") true;
   mk_option 962 "port-test" (Some "pt") false;
   mk_option 80 (* P *) "random-port" (Some "P") false;
   mk_option 900 "priority-high" (Some "ph") true;
   mk_option 901 "priority-normal" (Some "pn") true;
   mk_option 902 "priority-low" (Some "pl") true;
   mk_option 700 "bandwidth-high" (Some "Bh") false;
   mk_option 701 "bandwidth-normal" (Some "Bn") false;
   mk_option 702 "bandwidth-low" (Some "Bl") false;
   mk_option 600 "reannounce" None false;
   mk_option 114 (* r *) "remove" (Some "r") false;
   mk_option 930 "peers" (Some "pr") true;
   mk_option 840 "remove-and-delete" (Some "rad") false;
   mk_option 800 "torrent-done-script" None true;
   mk_option 801 "no-torrent-done-script" None false;
   mk_option 802 "torrent-done-seeding-script" None true;
   mk_option 803 "no-torrent-done-seeding-script" None false;
   mk_option 950 "seedratio" (Some "sr") true;
   mk_option 951 "seedratio-default" (Some "srd") false;
   mk_option 952 "no-seedratio" (Some "SR") false;
   mk_option 953 "global-seedratio" (Some "gsr") true;
   mk_option 954 "no-global-seedratio" (Some "GSR") false;
   mk_option 710 "tracker-add" (Some "td") true;
   mk_option 712 "tracker-remove" (Some "tr") true;
   mk_option 115 (* s *) "start" (Some "s") false;
   mk_option 83 (* S *) "stop" (Some "S") false;
   mk_option 116 (* t *) "torrent" (Some "t") true;
   mk_option 990 "start-paused" None false;
   mk_option 991 "no-start-paused" None false;
   mk_option 992 "trash-torrent" None false;
   mk_option 993 "no-trash-torrent" None false;
   mk_option 984 "honor-session" (Some "hl") false;
   mk_option 985 "no-honor-session" (Some "HL") false;
   mk_option 117 (* u *) "uplimit" (Some "u") true;
   mk_option 85 (* U *) "no-uplimit" (Some "U") false;
   mk_option 830 "utp" None false;
   mk_option 831 "no-utp" None false;
   mk_option 118 (* v *) "verify" (Some "v") false;
   mk_option 86 (* V *) "version" (Some "V") false;
   mk_option 119 (* w *) "download-dir" (Some "w") true;
   mk_option 120 (* x *) "pex" (Some "x") false;
   mk_option 88 (* X *) "no-pex" (Some "X") false;
   mk_option 121 (* y *) "lpd" (Some "y") false;
   mk_option 89 (* Y *) "no-lpd" (Some "Y") false;
   mk_option 941 "peer-info" (Some "pi") false].

(** What [tr_getopt] may return before [TR_OPT_DONE], as far as [Options]
    bounds it: an error, an argument that is no option, or the value of an
    entry. *)
Definition from_getopt (c : getopt_val) : Prop :=
  match c with
  | TR_OPT_ERR | TR_OPT_UNK => True
  | OPT v => exists o, In o Options /\ val o = v
  end.

End OptionTable.

(** ** remote.cc: the list view *)

Module Views.
Section WithExternals.
Context `{MoreExternals}.
Import Display.

(** One row of [printTorrentList]. The rates are the integers it divides by
    [tr_speed_K], the ratio is the real it hands to [strlratio2]. *)
Record list_row : Type := mk_list_row {
  row_id : Z;
  row_error_mark : ascii;
  row_done : done_column;
  row_have : string;
  row_eta : string;
  row_up : Z;
  row_down : Z;
  row_ratio : double;
  row_status : string;
  row_name : string;
  row_have_bytes : Z;
}.

(** The body of the loop of [printTorrentList] for one torrent: its row and
    what it adds to [total_size], or nothing. *)
Definition printTorrentList_row (d : variant) : option list_row :=
  eta ← tr_variantDictFindInt d TR_KEY_eta;
  torId ← tr_variantDictFindInt d TR_KEY_id;
  leftUntilDone ← tr_variantDictFindInt d TR_KEY_leftUntilDone;
  name ← tr_variantDictFindStrView d TR_KEY_name;
  down ← tr_variantDictFindInt d TR_KEY_rateDownload;
  up ← tr_variantDictFindInt d TR_KEY_rateUpload;
  sizeWhenDone ← tr_variantDictFindInt d TR_KEY_sizeWhenDone;
  status ← tr_variantDictFindInt d TR_KEY_status;
  ratio ← tr_variantDictFindReal d TR_KEY_uploadRatio;
  Some (mk_list_row
          (wrap_int torId)
          (match tr_variantDictFindInt d TR_KEY_error with
           | Some error => if negb (error =? 0) then "*"%char else " "%char
           | None => " "%char
           end)
          (if negb (sizeWhenDone =? 0)
           then DonePercent (Percent (sizeWhenDone - leftUntilDone) sizeWhenDone)
           else DoneNA)
          (strlsize (sizeWhenDone - leftUntilDone))
          (if negb (leftUntilDone =? 0) || negb (eta =? -1)
           then etaToString 16 eta else snprintf 16 "Done")
          up down ratio (getStatusString d) name
          (sizeWhenDone - leftUntilDone)).

(** The loop of [printTorrentList] over the torrents: the rows and
    [total_size]. The difference [sizeWhenDone - leftUntilDone] and the sum
    are computed in [int64_t]: where one of them leaves its range the
    behaviour is undefined, and the result is [None]. *)
Fixpoint printTorrentList_rows (torrents : list variant) (total_size : Z)
  : option (list list_row * Z) :=
  match torrents with
  | [] => Some ([], total_size)
  | d :: rest =>
      match printTorrentList_row d with
      | Some row =>
          if in_int64 (row_have_bytes row) &&
             in_int64 (total_size + row_have_bytes row)
          then
            r ← printTorrentList_rows rest (total_size + row_have_bytes row);
            Some (row :: r.1, r.2)
          else None
      | None => printTorrentList_rows rest total_size
      end
  end.

(** What [printTorrentList] does: nothing, something undefined, or the rows
    between the header and the line "Sum:" and the size that line shows. The
    sums of the two rates on that line are left aside. *)
Inductive list_view : Type :=
  | NotPrinted
  | Undefined
  | Printed (rows : list list_row) (sum : string).

Definition printTorrentList (top : variant) : list_view :=
  match
    args ← tr_variantDictFindDict top TR_KEY_arguments;
    tr_variantDictFindList args TR_KEY_torrents
  with
  | Some torrents =>
      match printTorrentList_rows torrents 0 with
      | Some (rows, total_size) => Printed rows (strlsize total_size)
      | None => Undefined
      end
  | None => NotPrinted
  end.

End WithExternals.
End Views.

(** ** Notions used to state what the option loop keeps *)

Module Loop.
Section WithExternals.
Context `{Externals}.

(** The methods [processArgs] names in its requests. *)
Definition rpc_methods : list string :=
  ["session-set"; "torrent-set"; "torrent-add"; "torrent-get";
   "torrent-start"; "torrent-stop"; "torrent-verify"; "torrent-reannounce";
   "torrent-remove"; "torrent-set-location"; "session-get"; "session-stats";
   "session-close"; "blocklist-update"; "port-test"].

Definition names_method (top : variant) : Prop :=
  exists method, In method rpc_methods /\ method_of top = Some (VStr method).

(** The variables as an outcome and a round leave them. *)
Definition final_state (o : outcome) : state :=
  match o with
  | Continue st | Exit _ st | Abort st => st
  end.

Definition round_final (r : round) : state :=
  match r with
  | Next st | Break st => st
  | Stop o => final_state o
  end.

(** The exit bits of every answer received so far are in [status]. *)
Definition answers_merged (st : state) : Prop :=
  forall before top after,
    posted st = before ++ top :: after ->
    Z.lor (status st) (reply_status (daemon before top)) = status st.

(** What holds of the variables [st] of a run that went through [st0]. *)
Definition kept (st0 st : state) : Prop :=
  pending_ok st /\
  Forall names_method (posted st) /\
  answers_merged st /\
  posted st0 `prefix_of` posted st /\
  stderr st0 `prefix_of` stderr st /\
  Z.lor (status st) (status st0) = status st.

(** What an exit leaves: the requests posted so far, and every pending
    request still pending. *)
Definition left_unsent (st st' : state) : Prop :=
  posted st' = posted st /\
  (is_Some (sset st) -> is_Some (sset st')) /\
  (is_Some (tset st) -> is_Some (tset st')) /\
  (is_Some (tadd st) -> is_Some (tadd st')).

(** Nothing is pending. *)
Definition nothing_pending (st : state) : Prop :=
  sset st = None /\ tset st = None /\ tadd st = None.

End WithExternals.
End Loop.

(** ** Notions used to state what the views show *)

Module Shown.

(** The days of the week by the number the days option takes for them, and
    the names [printSession] prints. *)
Definition week : list (Z * string) :=
  [(0, "Sun"); (1, "Mon"); (2, "Tue"); (3, "Wed"); (4, "Thu"); (5, "Fri");
   (6, "Sat")].

(** The bits of a byte, the highest first. *)
Definition bits_of_byte (ch : ascii) : list bool :=
  map (fun bit => Z.testbit (char_code ch) (7 - Z.of_nat bit)) (seq 0 8).

(** The bits of a text, byte after byte. *)
Fixpoint bits_of (str : string) : list bool :=
  match str with
  | EmptyString => []
  | String ch rest => bits_of_byte ch ++ bits_of rest
  end.

(** The zeros and ones of a text, as bits; every other character is layout. *)
Fixpoint shown_bits (out : string) : list bool :=
  match out with
  | EmptyString => []
  | String c rest =>
      if Ascii.eqb c "1" then true :: shown_bits rest
      else if Ascii.eqb c "0" then false :: shown_bits rest
      else shown_bits rest
  end.

End Shown.

(** ** Notions used to state what the requests carry *)

Module Carried.
Section WithExternals.
Context `{Externals}.

(** The list a dictionary holds under [key], empty when it holds none. *)
Definition list_under (args : variant) (key : tr_quark) : list variant :=
  default [] (tr_variantDictFindList args key).

(** A dictionary that holds nothing under [key], or a list. *)
Definition list_or_nothing (args : variant) (key : tr_quark) : Prop :=
  (exists l, args = VDict l) /\
  (tr_variantDictFind args key = None \/
   is_Some (tr_variantDictFindList args key)).

Definition is_dict (v : variant) : Prop := exists l, v = VDict l.

(** The request [top] carries [v] under [key]: its arguments are a dictionary
    that has the child [(key, v)]. *)
Definition carries (top : variant) (key : tr_quark) (v : variant) : Prop :=
  exists l, tr_variantDictFind top Arguments = Some (VDict l) /\ In (key, v) l.

(** A request whose arguments are a dictionary. *)
Definition dict_arguments (top : variant) : Prop :=
  exists l, tr_variantDictFind top Arguments = Some (VDict l).

(** The arguments of the three pending requests are dictionaries. *)
Definition pending_dicts (st : state) : Prop :=
  (forall top, sset st = Some top -> dict_arguments top) /\
  (forall top, tset st = Some top -> dict_arguments top) /\
  (forall top, tadd st = Some top -> dict_arguments top).

(** A switch that leaves a dictionary where it found one. *)
Definition keeps_dict (e : variant -> edit) : Prop :=
  forall args args' msgs, is_dict args -> e args = Edited args' msgs -> is_dict args'.

(** The dictionary [d'] has the children [kvs], and every child of [d] that
    is stored under none of their keys. *)
Definition extends (d d' : variant) (kvs : list (tr_quark * variant)) : Prop :=
  exists l l',
    d = VDict l /\ d' = VDict l' /\
    (forall kv, In kv kvs -> In kv l') /\
    (forall kv, In kv l -> ~ In kv.1 (map fst kvs) -> In kv l').

(** The request [top] is the pending request [old], if there was one, after
    the settings [kvs] went in: it carries each of them, and whatever [old]
    carried under another key. *)
Definition edited_with (old : option variant) (top : variant)
    (kvs : list (tr_quark * variant)) : Prop :=
  (forall key v, In (key, v) kvs -> carries top key v) /\
  (forall top0 key v, old = Some top0 -> carries top0 key v ->
     ~ In key (map fst kvs) -> carries top key v).

(** The minutes after midnight [addTime] stores for its argument, when it
    stores any. *)
Definition time_sent (arg : option string) : option Z :=
  match arg with
  | Some a =>
      if strlen a =? 4 then
        let hh := String (char_at a 0) (String (char_at a 1) EmptyString) in
        let mm := String (char_at a 2) (String (char_at a 3) EmptyString) in
        let hour := atoi hh in
        let min := atoi mm in
        if (0 <=? hour) && (hour <? 24) && (0 <=? min) && (min <? 60) then
          Some (min + hour * 60)
        else None
      else None
  | None => None
  end.

(** The mask of week days [addDays] computes for its argument. *)
Definition days_sent (arg : option string) : Z :=
  match arg with
  | Some a => addDays_loop 0 (tr_parseNumberRange (c_str a))
  | None => 0
  end.

(** The file numbers [addFiles] stores for its argument. *)
Definition listed_files (arg : option string) : list variant :=
  let arg := if tr_str_is_empty arg then "-1" else deref arg in
  if negb (strcmp_eq arg "all") then map VInt (tr_parseNumberRange (c_str arg))
  else [].

(** What each option of the branch [stepMode == MODE_SESSION_SET] puts into
    the arguments of the session-set request, [case] by [case]. *)
Definition session_settings (c : getopt_val) (optarg : option string)
  : list (tr_quark * variant) :=
  match c with
  | OPT 800 =>
      [(TR_KEY_script_torrent_done_filename, VStr (c_str (deref optarg)));
       (TR_KEY_script_torrent_done_enabled, VBool true)]
  | OPT 801 => [(TR_KEY_script_torrent_done_enabled, VBool false)]
  | OPT 802 =>
      [(TR_KEY_script_torrent_done_seeding_filename, VStr (c_str (deref optarg)));
       (TR_KEY_script_torrent_done_seeding_enabled, VBool true)]
  | OPT 803 => [(TR_KEY_script_torrent_done_seeding_enabled, VBool false)]
  | OPT 970 => [(TR_KEY_alt_speed_enabled, VBool true)]
  | OPT 971 => [(TR_KEY_alt_speed_enabled, VBool false)]
  | OPT 972 =>
      match numarg (deref optarg) with
      | Some n => [(TR_KEY_alt_speed_down, VInt n)]
      | None => []
      end
  | OPT 973 =>
      match numarg (deref optarg) with
      | Some n => [(TR_KEY_alt_speed_up, VInt n)]
      | None => []
      end
  | OPT 974 => [(TR_KEY_alt_speed_time_enabled, VBool true)]
  | OPT 975 => [(TR_KEY_alt_speed_time_enabled, VBool false)]
  | OPT 976 =>
      match time_sent optarg with
      | Some t => [(TR_KEY_alt_speed_time_begin, VInt t)]
      | None => []
      end
  | OPT 977 =>
      match time_sent optarg with
      | Some t => [(TR_KEY_alt_speed_time_end, VInt t)]
      | None => []
      end
  | OPT 978 =>
      if negb (days_sent optarg =? 0) then
        [(TR_KEY_alt_speed_time_day, VInt (days_sent optarg))]
      else []
  | OPT 99 (* c *) =>
      [(TR_KEY_incomplete_dir, VStr (c_str (deref optarg)));
       (TR_KEY_incomplete_dir_enabled, VBool true)]
  | OPT 67 (* C *) => [(TR_KEY_incomplete_dir_enabled, VBool false)]
  | OPT 101 (* e *) => [(TR_KEY_cache_size_mb, VInt (atoi (deref optarg)))]
  | OPT 910 => [(TR_KEY_encryption, VStr "required")]
  | OPT 911 => [(TR_KEY_encryption, VStr "preferred")]
  | OPT 912 => [(TR_KEY_encryption, VStr "tolerated")]
  | OPT 109 (* m *) => [(TR_KEY_port_forwarding_enabled, VBool true)]
  | OPT 77 (* M *) => [(TR_KEY_port_forwarding_enabled, VBool false)]
  | OPT 111 (* o *) => [(TR_KEY_dht_enabled, VBool true)]
  | OPT 79 (* O *) => [(TR_KEY_dht_enabled, VBool false)]
  | OPT 830 => [(TR_KEY_utp_enabled, VBool true)]
  | OPT 831 => [(TR_KEY_utp_enabled, VBool false)]
  | OPT 112 (* p *) =>
      match numarg (deref optarg) with
      | Some n => [(TR_KEY_peer_port, VInt n)]
      | None => []
      end
  | OPT 80 (* P *) => [(TR_KEY_peer_port_random_on_start, VBool true)]
  | OPT 120 (* x *) => [(TR_KEY_pex_enabled, VBool true)]
  | OPT 88 (* X *) => [(TR_KEY_pex_enabled, VBool false)]
  | OPT 121 (* y *) => [(TR_KEY_lpd_enabled, VBool true)]
  | OPT 89 (* Y *) => [(TR_KEY_lpd_enabled, VBool false)]
  | OPT 953 =>
      [(TR_KEY_seedRatioLimit, VReal (atof (deref optarg)));
       (TR_KEY_seedRatioLimited, VBool true)]
  | OPT 954 => [(TR_KEY_seedRatioLimited, VBool false)]
  | OPT 990 => [(TR_KEY_start_added_torrents, VBool false)]
  | OPT 991 => [(TR_KEY_start_added_torrents, VBool true)]
  | OPT 992 => [(TR_KEY_trash_original_torrent_files, VBool true)]
  | OPT 993 => [(TR_KEY_trash_original_torrent_files, VBool false)]
  | _ => []
  end.

(** What each limit option puts into the arguments it edits: those of the
    torrent-set request when [targs] holds, those of the session-set request
    otherwise. *)
Definition limit_settings (c : getopt_val) (targs : bool)
    (optarg : option string) : list (tr_quark * variant) :=
  match c with
  | OPT 100 (* d *) =>
      match numarg (deref optarg) with
      | Some n =>
          if targs then
            [(TR_KEY_downloadLimit, VInt n); (TR_KEY_downloadLimited, VBool true)]
          else
            [(TR_KEY_speed_limit_down, VInt n);
             (TR_KEY_speed_limit_down_enabled, VBool true)]
      | None => []
      end
  | OPT 68 (* D *) =>
      if targs then [(TR_KEY_downloadLimited, VBool false)]
      else [(TR_KEY_speed_limit_down_enabled, VBool false)]
  | OPT 117 (* u *) =>
      match numarg (deref optarg) with
      | Some n =>
          if targs then
            [(TR_KEY_uploadLimit, VInt n); (TR_KEY_uploadLimited, VBool true)]
          else
            [(TR_KEY_speed_limit_up, VInt n);
             (TR_KEY_speed_limit_up_enabled, VBool true)]
      | None => []
      end
  | OPT 85 (* U *) =>
      if targs then [(TR_KEY_uploadLimited, VBool false)]
      else [(TR_KEY_speed_limit_up_enabled, VBool false)]
  | OPT 930 =>
      if targs then [(TR_KEY_peer_limit, VInt (atoi (deref optarg)))]
      else [(TR_KEY_peer_limit_global, VInt (atoi (deref optarg)))]
  | _ => []
  end.

(** What each priority option puts into the arguments it edits. *)
Definition priority_settings (c : getopt_val) (optarg : option string)
  : list (tr_quark * variant) :=
  match c with
  | OPT 900 => [(TR_KEY_priority_high, VList (listed_files optarg))]
  | OPT 901 => [(TR_KEY_priority_normal, VList (listed_files optarg))]
  | OPT 902 => [(TR_KEY_priority_low, VList (listed_files optarg))]
  | OPT 700 => [(TR_KEY_bandwidthPriority, VInt 1)]
  | OPT 701 => [(TR_KEY_bandwidthPriority, VInt 0)]
  | OPT 702 => [(TR_KEY_bandwidthPriority, VInt (-1))]
  | _ => []
  end.

End WithExternals.
End Carried.

(** ** More sample surroundings *)

Module SampleMore.
Import Remote Sample Display Startup Views Loop.

#[export] Instance more_externals : MoreExternals := {|
  tr_formatter_size_B := fun bytes => decimal bytes +:+ " B";
  tr_formatter_mem_B := fun bytes => decimal bytes +:+ " B";
  tr_base64_decode := fun s => s;
  tr_variantFromBuf := fun _ => None;
  TR_DEFAULT_RPC_PORT := 9091;
  TR_DEFAULT_RPC_URL_STR := "/transmission/";
  TR_SCHED_SUN := 1;
  TR_SCHED_MON := 2;
  TR_SCHED_TUES := 4;
  TR_SCHED_WED := 8;
  TR_SCHED_THURS := 16;
  TR_SCHED_FRI := 32;
  TR_SCHED_SAT := 64;
|}.

(** The command lines [-m -o], [-m] and [--find /tmp -b]. *)
Definition two_settings : list (getopt_val * option string) :=
  [(OPT 109, None); (OPT 111, None)].

Definition one_setting : list (getopt_val * option string) :=
  [(OPT 109, None)].

Definition find_then_debug : list (getopt_val * option string) :=
  [(OPT 961, Some "/tmp"); (OPT 98, None)].

(** The variables after [-m], a session-set request pending. *)
Definition setting_pending : state :=
  round_final (processArg (OPT 109) None initial).

(** The arguments of a fresh request. *)
Definition no_arguments : variant := tr_variantInitDict.

(** A torrent whose ETA is not available. *)
Definition torrent_without_eta : variant :=
  VDict [(TR_KEY_eta, VInt (-1))].

(** A magnet link whose metadata has not arrived. *)
Definition torrent_without_size : variant :=
  VDict [(TR_KEY_sizeWhenDone, VInt 0); (TR_KEY_desiredAvailable, VInt 0);
         (TR_KEY_leftUntilDone, VInt 0)].

(** The answer to a list request that holds one torrent with all its fields
    and one without. *)
Definition list_answer : variant :=
  VDict
    [(TR_KEY_arguments,
      VDict
        [(TR_KEY_torrents,
          VList
            [VDict
               [(TR_KEY_eta, VInt (-1)); (TR_KEY_id, VInt 1);
                (TR_KEY_leftUntilDone, VInt 0); (TR_KEY_name, VStr "debian.iso");
                (TR_KEY_rateDownload, VInt 0); (TR_KEY_rateUpload, VInt 0);
                (TR_KEY_sizeWhenDone, VInt 1000); (TR_KEY_status, VInt 6);
                (TR_KEY_uploadRatio, VReal 150)];
             VDict [(TR_KEY_id, VInt 2)]])])].

End SampleMore.

(** * Facts about the dictionary keys and the variants *)

Import Remote Carried.

Lemma quark_of_index_of_quark (k : tr_quark) :
  quark_of_index (quark_index k) = Some k.
Proof. destruct k; reflexivity. Qed.

Lemma quark_index_inj (a b : tr_quark) :
  quark_index a = quark_index b -> a = b.
Proof.
  intros E.
  assert (Some a = Some b) as [= ->]; [|reflexivity].
  rewrite <- (quark_of_index_of_quark a), <- (quark_of_index_of_quark b).
  now rewrite E.
Qed.

Lemma quark_eqb_eq (a b : tr_quark) : quark_eqb a b = true <-> a = b.
Proof.
  unfold quark_eqb. rewrite N.eqb_eq. split.
  - apply quark_index_inj.
  - now intros ->.
Qed.

Lemma quark_eqb_refl (a : tr_quark) : quark_eqb a a = true.
Proof. now apply quark_eqb_eq. Qed.

Lemma quark_eqb_neq (a b : tr_quark) : a <> b -> quark_eqb a b = false.
Proof.
  intros N. destruct (quark_eqb a b) eqn:E; [|reflexivity].
  now apply quark_eqb_eq in E.
Qed.

Section VariantFacts.
Context {D : Type}.
Implicit Types (l : list (tr_quark * tr_variant D)) (v : tr_variant D).

Lemma children_find_app l1 l2 key :
  children_find (l1 ++ l2) key =
  match children_find l1 key with
  | Some v => Some v
  | None => children_find l2 key
  end.
Proof.
  induction l1 as [|[k v] l1 IH]; simpl; [reflexivity|].
  destruct (quark_eqb k key); [reflexivity|apply IH].
Qed.

Lemma children_find_replace l key key' v :
  children_find (children_replace l key v) key' =
  if quark_eqb key key' then
    match children_find l key with Some _ => Some v | None => None end
  else children_find l key'.
Proof.
  induction l as [|[k old] l IH]; simpl.
  - now destruct (quark_eqb key key').
  - destruct (quark_eqb k key) eqn:E; simpl.
    + apply quark_eqb_eq in E as ->.
      now destruct (quark_eqb key key').
    + rewrite IH. destruct (quark_eqb key key') eqn:E'; [|reflexivity].
      apply quark_eqb_eq in E' as <-. now rewrite E.
Qed.

Lemma children_find_remove_other l key key' :
  key <> key' ->
  children_find (children_remove l key) key' = children_find l key'.
Proof.
  intros N. induction l as [|[k old] l IH]; simpl; [reflexivity|].
  destruct (quark_eqb k key) eqn:E; simpl.
  - apply quark_eqb_eq in E as ->. now rewrite quark_eqb_neq.
  - now rewrite IH.
Qed.

(** Reading back what a scalar adder stored under a key that was free. *)
Lemma find_dictFindOrAdd_fresh l key v :
  children_find l key = None ->
  tr_variantDictFind (dictFindOrAdd (VDict l) key v) key = Some v.
Proof.
  intros F. unfold dictFindOrAdd. rewrite F. simpl.
  rewrite children_find_app, F. simpl. now rewrite quark_eqb_refl.
Qed.

Lemma find_dictFindOrAdd_other dict key key' v :
  key <> key' ->
  tr_variantDictFind (dictFindOrAdd dict key v) key' = tr_variantDictFind dict key'.
Proof.
  intros N. destruct dict as [| | | | |l]; try reflexivity.
  unfold dictFindOrAdd. destruct (children_find l key) as [old|] eqn:F.
  - destruct (same_type old v); simpl.
    + now rewrite children_find_replace, quark_eqb_neq.
    + rewrite children_find_app, children_find_remove_other by assumption.
      simpl. rewrite quark_eqb_neq by assumption. now destruct (children_find l key').
  - simpl. rewrite children_find_app. simpl. rewrite quark_eqb_neq by assumption.
    now destruct (children_find l key').
Qed.

Lemma find_tr_variantDictAdd_other dict key key' v :
  key <> key' ->
  tr_variantDictFind (tr_variantDictAdd dict key v) key' = tr_variantDictFind dict key'.
Proof.
  intros N. destruct dict as [| | | | |l]; try reflexivity.
  simpl. rewrite children_find_app. simpl. rewrite quark_eqb_neq by assumption.
  now destruct (children_find l key').
Qed.

Lemma find_store_child_other dict key key' v :
  key <> key' ->
  tr_variantDictFind (store_child dict key v) key' = tr_variantDictFind dict key'.
Proof.
  intros N. destruct dict as [| | | | |l]; try reflexivity.
  simpl. now rewrite children_find_replace, quark_eqb_neq.
Qed.

Lemma find_store_child_same dict key old v :
  tr_variantDictFind dict key = Some old ->
  tr_variantDictFind (store_child dict key v) key = Some v.
Proof.
  destruct dict as [| | | | |l]; try discriminate.
  simpl. intros F. now rewrite children_find_replace, quark_eqb_refl, F.
Qed.

End VariantFacts.

(** * Facts about the C library functions *)

Lemma isdigit_spec (c : ascii) :
  isdigit c = true <-> 0 <= digit_value c <= 9.
Proof.
  unfold isdigit, digit_value. rewrite andb_true_iff, !Z.leb_le. lia.
Qed.

Lemma wrap_int_small (z : Z) : - 2 ^ 31 <= z < 2 ^ 31 -> wrap_int z = z.
Proof.
  intros R. unfold wrap_int.
  rewrite Z.mod_small by lia. lia.
Qed.

Lemma clamp_long_small (z : Z) : LONG_MIN <= z <= LONG_MAX -> clamp_long z = z.
Proof. unfold clamp_long. lia. Qed.

(** [atoi] on two decimal digits reads the number they write. *)
Lemma atoi_two_digits (c1 c2 : ascii) :
  isdigit c1 = true -> isdigit c2 = true ->
  atoi (String c1 (String c2 EmptyString)) = 10 * digit_value c1 + digit_value c2.
Proof.
  intros D1 D2.
  pose proof (proj1 (isdigit_spec c1) D1) as R1.
  pose proof (proj1 (isdigit_spec c2) D2) as R2.
  assert ((char_code c1 =? 0) = false) as Z1
    by (apply Z.eqb_neq; unfold digit_value in R1; lia).
  assert ((char_code c2 =? 0) = false) as Z2
    by (apply Z.eqb_neq; unfold digit_value in R2; lia).
  assert (isspace c1 = false) as S1.
  { unfold isspace, digit_value in *.
    apply orb_false_iff; split; [apply Z.eqb_neq; lia|].
    apply andb_false_iff; right. apply Z.leb_gt. lia. }
  unfold atoi, strtol. simpl c_str. rewrite Z1, Z2. simpl skip_space.
  rewrite S1.
  assert ((char_code c1 =? 45) = false) as ->
    by (apply Z.eqb_neq; unfold digit_value in R1; lia).
  assert ((char_code c1 =? 43) = false) as ->
    by (apply Z.eqb_neq; unfold digit_value in R1; lia).
  rewrite D1. simpl scan_digits. rewrite D1, D2. simpl.
  rewrite clamp_long_small, wrap_int_small; unfold LONG_MIN, LONG_MAX; lia.
Qed.

(** Each bit of the mask of [addDays] comes from a listed day. *)
Lemma addDays_loop_testbit (range : list Z) (days b : Z) :
  Z.testbit (addDays_loop days range) b = true <->
  Z.testbit days b = true \/
  exists day, In day range /\ 0 <= day <= 7 /\ b = (if day =? 7 then 0 else day).
Proof.
  revert days. induction range as [|day rest IH]; intros days; simpl.
  - split; [now left|]. intros [?|(day & [] & _)]; assumption.
  - destruct ((day <? 0) || (day >? 7)) eqn:Out.
    + rewrite IH. split.
      * intros [?|(d & I & R)]; [now left|]. right. exists d. tauto.
      * intros [?|(d & [<-|I] & R & E)]; [now left| |right; eauto].
        apply orb_true_iff in Out as [O|O]; [apply Z.ltb_lt in O|apply Z.gtb_lt in O]; lia.
    + apply orb_false_iff in Out as [O1 O2].
      apply Z.ltb_ge in O1. rewrite Z.gtb_ltb in O2. apply Z.ltb_ge in O2.
      rewrite IH, Z.lor_spec, orb_true_iff.
      assert (Z.testbit (Z.shiftl 1 (if day =? 7 then 0 else day)) b = true <->
              b = (if day =? 7 then 0 else day)) as Bit.
      { set (d := if day =? 7 then 0 else day).
        assert (0 <= d) by (subst d; destruct (day =? 7); lia).
        rewrite Z.shiftl_1_l. split.
        - intros T. destruct (Z.eq_dec b d) as [|N]; [assumption|].
          destruct (Z.neg_nonneg_cases b) as [Neg|NN].
          + now rewrite Z.testbit_neg_r in T.
          + now rewrite Z.pow2_bits_false in T by congruence.
        - intros ->. now apply Z.pow2_bits_true. }
      rewrite Bit. split.
      * intros [[? | ->] | (d & I & R)]; [now left| |right; exists d; tauto].
        right. exists day. split; [now left|]. split; [lia|reflexivity].
      * intros [?|(d & [<-|I] & R & E)]; [tauto|tauto|]. right. eauto.
Qed.

(** * The command-line front end *)

Section RemoteFacts.
Context `{Externals}.

Lemma c_str_idem (s : string) : c_str (c_str s) = c_str s.
Proof.
  induction s as [|c r IH]; simpl; [reflexivity|].
  destruct (char_code c =? 0) eqn:E; simpl; [reflexivity|].
  now rewrite E, IH.
Qed.

Lemma request_method (method : string) (args : variant) :
  method_of (request method args) = Some (VStr method).
Proof. reflexivity. Qed.

Lemma request_arguments (method : string) (args : variant) :
  tr_variantDictFind (request method args) Arguments = Some args.
Proof. reflexivity. Qed.

Lemma request_is_request (method : string) (args : variant) :
  is_request method (request method args).
Proof. split; [apply request_method|]. exists args. apply request_arguments. Qed.

Lemma posted_flush (top : variant) (st : state) :
  posted (flush top st) = posted st ++ [top].
Proof. reflexivity. Qed.

(** [addIdArg] touches nothing but the ids. *)
Lemma addIdArg_other (args : variant) (id_str fallback : option string)
    (key : tr_quark) :
  key <> TR_KEY_ids ->
  tr_variantDictFind (fst (addIdArg args id_str fallback)) key =
  tr_variantDictFind args key.
Proof.
  intros N. unfold addIdArg.
  destruct (if tr_str_is_empty id_str then _ else _) as [chosen msgs].
  destruct (strcmp_eq chosen "active"); simpl.
  { unfold tr_variantDictAddStrView. now rewrite find_dictFindOrAdd_other. }
  destruct (strcmp_eq chosen "all"); simpl; [reflexivity|].
  destruct (all_digits (c_str chosen) || _); simpl.
  - now rewrite find_tr_variantDictAdd_other.
  - unfold tr_variantDictAddStr. now rewrite find_dictFindOrAdd_other.
Qed.

(** C9. The ratio formatter evaluates the quotient of its two integers only
    when the denominator is not zero: with a zero denominator it yields the
    infinity marker for a numerator other than zero and the not-applicable
    marker when both are zero, so every division it asks for has a divisor
    other than zero. *)
Theorem strlratio_division_guarded (numerator denominator : Z) :
  (denominator <> 0 ->
   strlratio numerator denominator = Quotient numerator denominator) /\
  (denominator = 0 -> numerator <> 0 ->
   strlratio numerator denominator = TR_RATIO_INF) /\
  (denominator = 0 -> numerator = 0 ->
   strlratio numerator denominator = TR_RATIO_NA) /\
  (forall d, divisor (strlratio numerator denominator) = Some d -> d <> 0).
Proof.
  unfold strlratio.
  destruct (Z.eqb_spec denominator 0) as [->|Nd]; simpl.
  - destruct (Z.eqb_spec numerator 0) as [->|Nn]; simpl;
      repeat split; intros; congruence.
  - repeat split; intros; simpl in *; congruence.
Qed.

(** The limits block is printed exactly when its fourteen settings are
    found. *)
Lemma printSession_limits_printed (args : variant) :
  is_Some (printSession_limits args) <->
  Forall (fun key => is_Some (tr_variantDictFindInt args key))
    [TR_KEY_alt_speed_down; TR_KEY_alt_speed_time_begin; TR_KEY_alt_speed_time_end;
     TR_KEY_alt_speed_time_day; TR_KEY_alt_speed_up; TR_KEY_peer_limit_global;
     TR_KEY_speed_limit_down; TR_KEY_speed_limit_up] /\
  Forall (fun key => is_Some (tr_variantDictFindBool args key))
    [TR_KEY_alt_speed_enabled; TR_KEY_alt_speed_time_enabled;
     TR_KEY_speed_limit_down_enabled; TR_KEY_speed_limit_up_enabled;
     TR_KEY_seedRatioLimited] /\
  is_Some (tr_variantDictFindReal args TR_KEY_seedRatioLimit).
Proof.
  unfold printSession_limits. rewrite !Forall_cons, !Forall_nil.
  assert (forall A, ~ is_Some (@None A)) as NoneNot by (intros A [? ?]; discriminate).
  repeat match goal with
         | |- context [tr_variantDictFindInt ?a ?k] =>
             destruct (tr_variantDictFindInt a k);
             [|simpl; split; [intros G; now apply NoneNot in G|intros G; exfalso; destruct_and!;
                 match goal with G' : is_Some None |- _ => now apply NoneNot in G' end]]
         | |- context [tr_variantDictFindBool ?a ?k] =>
             destruct (tr_variantDictFindBool a k);
             [|simpl; split; [intros G; now apply NoneNot in G|intros G; exfalso; destruct_and!;
                 match goal with G' : is_Some None |- _ => now apply NoneNot in G' end]]
         | |- context [tr_variantDictFindReal ?a ?k] =>
             destruct (tr_variantDictFindReal a k);
             [|simpl; split; [intros G; now apply NoneNot in G|intros G; exfalso; destruct_and!;
                 match goal with G' : is_Some None |- _ => now apply NoneNot in G' end]]
         end.
  simpl. split; intros _; repeat split; eauto.
Qed.

(** The rule of the two effective limits, once the block is printed. *)
Lemma printSession_limits_rule (args : variant) (l : limits)
    (altEnabled upEnabled downEnabled : bool) (altUp altDown upLimit downLimit : Z) :
  printSession_limits args = Some l ->
  tr_variantDictFindBool args TR_KEY_alt_speed_enabled = Some altEnabled ->
  tr_variantDictFindBool args TR_KEY_speed_limit_up_enabled = Some upEnabled ->
  tr_variantDictFindBool args TR_KEY_speed_limit_down_enabled = Some downEnabled ->
  tr_variantDictFindInt args TR_KEY_alt_speed_up = Some altUp ->
  tr_variantDictFindInt args TR_KEY_alt_speed_down = Some altDown ->
  tr_variantDictFindInt args TR_KEY_speed_limit_up = Some upLimit ->
  tr_variantDictFindInt args TR_KEY_speed_limit_down = Some downLimit ->
  (altEnabled = true ->
   effective_up_limit l = tr_formatter_speed_KBps altUp /\
   effective_down_limit l = tr_formatter_speed_KBps altDown) /\
  (altEnabled = false ->
   (upEnabled = true -> effective_up_limit l = tr_formatter_speed_KBps upLimit) /\
   (upEnabled = false -> effective_up_limit l = "Unlimited") /\
   (downEnabled = true -> effective_down_limit l = tr_formatter_speed_KBps downLimit) /\
   (downEnabled = false -> effective_down_limit l = "Unlimited")).
Proof.
  unfold printSession_limits.
  intros P Ea Eu Ed Iau Iad Iu Id. rewrite Ea, Eu, Ed, Iau, Iad, Iu, Id in P.
  repeat match type of P with
         | context [tr_variantDictFindInt ?a ?k] =>
             destruct (tr_variantDictFindInt a k); simpl in P; [|discriminate]
         | context [tr_variantDictFindBool ?a ?k] =>
             destruct (tr_variantDictFindBool a k); simpl in P; [|discriminate]
         | context [tr_variantDictFindReal ?a ?k] =>
             destruct (tr_variantDictFindReal a k); simpl in P; [|discriminate]
         end.
  injection P as <-. simpl.
  split; [intros ->; now split|].
  intros ->. repeat split; now intros ->.
Qed.

(** C4, as the code has it. The two effective limits are reported exactly
    when the answer holds all fourteen settings that [printSession] reads
    before its block of limits: the seven speed settings and also the peer
    limit, the three settings of the schedule and the two of the seed ratio.
    For every such answer the effective upload limit is the alternate
    (turtle) upload limit when the alternate limits are enabled, whether or
    not the normal limit is enabled; otherwise it is the normal upload limit
    when that is enabled; otherwise it is "Unlimited"; and the same holds for
    the download limit. *)
Theorem printSession_effective_limits (args : variant)
    (altEnabled altTimeEnabled upEnabled downEnabled seedRatioLimited : bool)
    (altUp altDown altBegin altEnd altDay peerLimit upLimit downLimit : Z)
    (seedRatioLimit : double) :
  tr_variantDictFindInt args TR_KEY_alt_speed_down = Some altDown ->
  tr_variantDictFindBool args TR_KEY_alt_speed_enabled = Some altEnabled ->
  tr_variantDictFindInt args TR_KEY_alt_speed_time_begin = Some altBegin ->
  tr_variantDictFindBool args TR_KEY_alt_speed_time_enabled = Some altTimeEnabled ->
  tr_variantDictFindInt args TR_KEY_alt_speed_time_end = Some altEnd ->
  tr_variantDictFindInt args TR_KEY_alt_speed_time_day = Some altDay ->
  tr_variantDictFindInt args TR_KEY_alt_speed_up = Some altUp ->
  tr_variantDictFindInt args TR_KEY_peer_limit_global = Some peerLimit ->
  tr_variantDictFindInt args TR_KEY_speed_limit_down = Some downLimit ->
  tr_variantDictFindBool args TR_KEY_speed_limit_down_enabled = Some downEnabled ->
  tr_variantDictFindInt args TR_KEY_speed_limit_up = Some upLimit ->
  tr_variantDictFindBool args TR_KEY_speed_limit_up_enabled = Some upEnabled ->
  tr_variantDictFindReal args TR_KEY_seedRatioLimit = Some seedRatioLimit ->
  tr_variantDictFindBool args TR_KEY_seedRatioLimited = Some seedRatioLimited ->
  (exists l,
     printSession_limits args = Some l /\
     (altEnabled = true ->
      effective_up_limit l = tr_formatter_speed_KBps altUp /\
      effective_down_limit l = tr_formatter_speed_KBps altDown) /\
     (altEnabled = false ->
      (upEnabled = true -> effective_up_limit l = tr_formatter_speed_KBps upLimit) /\
      (upEnabled = false -> effective_up_limit l = "Unlimited") /\
      (downEnabled = true ->
       effective_down_limit l = tr_formatter_speed_KBps downLimit) /\
      (downEnabled = false -> effective_down_limit l = "Unlimited"))) /\
  (forall args' : variant,
     is_Some (printSession_limits args') ->
     Forall (fun key => is_Some (tr_variantDictFindInt args' key))
       [TR_KEY_alt_speed_down; TR_KEY_alt_speed_time_begin;
        TR_KEY_alt_speed_time_end; TR_KEY_alt_speed_time_day; TR_KEY_alt_speed_up;
        TR_KEY_peer_limit_global; TR_KEY_speed_limit_down; TR_KEY_speed_limit_up] /\
     Forall (fun key => is_Some (tr_variantDictFindBool args' key))
       [TR_KEY_alt_speed_enabled; TR_KEY_alt_speed_time_enabled;
        TR_KEY_speed_limit_down_enabled; TR_KEY_speed_limit_up_enabled;
        TR_KEY_seedRatioLimited] /\
     is_Some (tr_variantDictFindReal args' TR_KEY_seedRatioLimit)).
Proof.
  intros E1 E2 E3 E4 E5 E6 E7 E8 E9 E10 E11 E12 E13 E14. split.
  - assert (P : is_Some (printSession_limits args)).
    { apply printSession_limits_printed. rewrite !Forall_cons, !Forall_nil.
      rewrite E1, E2, E3, E4, E5, E6, E7, E8, E9, E10, E11, E12, E13, E14.
      repeat split; eauto. }
    destruct P as [l P]. exists l. split; [assumption|].
    now apply (printSession_limits_rule args l altEnabled upEnabled downEnabled
                 altUp altDown upLimit downLimit).
  - intros args' P. now apply printSession_limits_printed.
Qed.

(** The torrent-list view divides only by a size that is not zero. *)
Lemma printTorrentList_guards_division (d : variant) (col : done_column) :
  printTorrentList_doneStr d = Some col ->
  (tr_variantDictFindInt d TR_KEY_sizeWhenDone = Some 0 -> col = DoneNA) /\
  (forall p, col = DonePercent p ->
     percent_divisor p <> 0 /\
     tr_variantDictFindInt d TR_KEY_sizeWhenDone = Some (percent_divisor p)).
Proof.
  unfold printTorrentList_doneStr. intros P.
  repeat match type of P with
         | context [tr_variantDictFindInt ?a ?k] =>
             destruct (tr_variantDictFindInt a k) eqn:?; simpl in P; [|discriminate]
         | context [tr_variantDictFindStrView ?a ?k] =>
             destruct (tr_variantDictFindStrView a k); simpl in P; [|discriminate]
         | context [tr_variantDictFindReal ?a ?k] =>
             destruct (tr_variantDictFindReal a k); simpl in P; [|discriminate]
         end.
  injection P as <-.
  match goal with |- context [?s =? 0] => destruct (Z.eqb_spec s 0) as [->|N] end; simpl.
  - split; [reflexivity|discriminate].
  - split; [congruence|]. intros p [= <-]. simpl. now split.
Qed.

(** The details view hands the quotient to the formatter for every size it
    finds, zero included. *)
Lemma printDetails_divides_unguarded (t : variant) (i j : Z) :
  tr_variantDictFindInt t TR_KEY_sizeWhenDone = Some i ->
  tr_variantDictFindInt t TR_KEY_leftUntilDone = Some j ->
  printDetails_percent_done t = Some (Percent (i - j) i).
Proof.
  intros Ei Ej. unfold printDetails_percent_done. now rewrite Ei, Ej.
Qed.

(** What [addTime] accepts, in terms of what [atoi] reads in the two halves
    of the argument: it sends hour * 60 + minute exactly when the argument has
    four characters that read as an hour from 0 to 23 and a minute from 0 to
    59, and prints its message otherwise. On four decimal digits the hour and
    the minute are the numbers the digits write. *)
Lemma addTime_sends_iff_hhmm (args : variant) (key : tr_quark)
    (arg : option string) :
  (forall a,
     arg = Some a -> strlen a = 4 ->
     0 <= hour_part a < 24 -> 0 <= minute_part a < 60 ->
     addTime args key arg =
       (tr_variantDictAddInt args key (hour_part a * 60 + minute_part a), []) /\
     0 <= hour_part a * 60 + minute_part a < 1440) /\
  ((forall a, arg = Some a ->
      ~ (strlen a = 4 /\ 0 <= hour_part a < 24 /\ 0 <= minute_part a < 60)) ->
   addTime args key arg = (args, [addTime_message])) /\
  (forall c1 c2 c3 c4,
     isdigit c1 = true -> isdigit c2 = true ->
     isdigit c3 = true -> isdigit c4 = true ->
     let a := String c1 (String c2 (String c3 (String c4 EmptyString))) in
     strlen a = 4 /\
     hour_part a = 10 * digit_value c1 + digit_value c2 /\
     minute_part a = 10 * digit_value c3 + digit_value c4).
Proof.
  split; [|split].
  - intros a -> L Rh Rm. split; [|lia].
    unfold addTime. fold (hour_part a) (minute_part a).
    rewrite L. simpl.
    destruct (Z.leb_spec 0 (hour_part a)); [|lia].
    destruct (Z.ltb_spec (hour_part a) 24); [|lia].
    destruct (Z.leb_spec 0 (minute_part a)); [|lia].
    destruct (Z.ltb_spec (minute_part a) 60); [|lia].
    simpl. do 2 f_equal. lia.
  - intros Bad. unfold addTime. destruct arg as [a|]; [|reflexivity].
    fold (hour_part a) (minute_part a). specialize (Bad a eq_refl).
    destruct (Z.eqb_spec (strlen a) 4); [|reflexivity].
    destruct (Z.leb_spec 0 (hour_part a)); [|reflexivity].
    destruct (Z.ltb_spec (hour_part a) 24); [|reflexivity].
    destruct (Z.leb_spec 0 (minute_part a)); [|reflexivity].
    destruct (Z.ltb_spec (minute_part a) 60); [|reflexivity].
    exfalso. apply Bad. lia.
  - intros c1 c2 c3 c4 D1 D2 D3 D4 a.
    assert (forall c, isdigit c = true -> (char_code c =? 0) = false) as NZ.
    { intros c Dc. apply isdigit_spec in Dc. unfold digit_value in Dc.
      apply Z.eqb_neq. lia. }
    assert (c_str a = a) as Ca.
    { subst a. simpl. now rewrite !NZ. }
    unfold strlen, hour_part, minute_part, char_at. rewrite Ca. subst a. simpl.
    split; [reflexivity|]. split; now apply atoi_two_digits.
Qed.

(** C7 fails on the code. [addTime] does not test that its four characters
    are digits: it takes what [atoi] reads in each half, and [atoi] reads zero
    where there is no number and accepts blanks and a sign. So "abcd", "-0 7"
    and "+1+2", none of them a time hhmm, are sent as 0, 7 and 62 minutes
    after midnight, and the message about the hhmm format is not printed. *)
Theorem addTime_accepts_what_is_no_time (args : variant) (key : tr_quark) :
  addTime args key (Some "abcd") = (tr_variantDictAddInt args key 0, []) /\
  addTime args key (Some "-0 7") = (tr_variantDictAddInt args key 7, []) /\
  addTime args key (Some "+1+2") = (tr_variantDictAddInt args key 62, []) /\
  isdigit "a" = false /\ isdigit "-" = false /\ isdigit "+" = false.
Proof. repeat split; reflexivity. Qed.

(** C8. The value the alternate-speed days option sends is a bit mask over
    the days of the week: bit b is set exactly when a listed day from 0 to 7
    maps to b, where 7 maps to bit 0 (Sunday) and every other day to the bit
    of its own number; listed numbers outside 0..7 set nothing. When the mask
    is zero nothing is sent and the error message is printed. *)
Theorem addDays_sends_mask (args : variant) (key : tr_quark)
    (arg : option string) :
  (forall b,
     Z.testbit (addDays_loop 0 (listed_days arg)) b = true <->
     exists day, In day (listed_days arg) /\ 0 <= day <= 7 /\
                 b = (if day =? 7 then 0 else day)) /\
  (addDays_loop 0 (listed_days arg) <> 0 ->
   addDays args key arg =
     (tr_variantDictAddInt args key (addDays_loop 0 (listed_days arg)), [])) /\
  (addDays_loop 0 (listed_days arg) = 0 ->
   addDays args key arg = (args, [addDays_message])).
Proof.
  split; [|split].
  - intros b. rewrite addDays_loop_testbit, Z.testbit_0_l. split.
    + now intros [?|?].
    + now right.
  - intros N. unfold addDays. destruct arg as [a|]; simpl in *; [|congruence].
    now destruct (Z.eqb_spec (addDays_loop 0 (tr_parseNumberRange (c_str a))) 0).
  - intros Z0. unfold addDays. destruct arg as [a|]; simpl in *; [|reflexivity].
    now rewrite Z0.
Qed.


Section StatusStrings.

(** The seven states of a torrent are seven different case labels. *)
Hypothesis status_distinct :
  NoDup [TR_STATUS_STOPPED; TR_STATUS_CHECK_WAIT; TR_STATUS_CHECK;
         TR_STATUS_DOWNLOAD_WAIT; TR_STATUS_DOWNLOAD; TR_STATUS_SEED_WAIT;
         TR_STATUS_SEED].

Ltac decide_status :=
  repeat match goal with
         | |- context [?a =? ?b] =>
             destruct (Z.eqb_spec a b); try congruence; simpl
         end.


End StatusStrings.

(** ** The pending requests keep their methods *)

Lemma store_child_is_request (method : string) (top args' : variant) :
  is_request method top -> is_request method (store_child top Arguments args').
Proof.
  intros [M [args A]]. split.
  - unfold method_of. now rewrite find_store_child_other.
  - exists args'. eapply find_store_child_same, A.
Qed.

Lemma ensure_sset_is_request (st : state) :
  pending_ok st -> is_request "session-set" (ensure_sset (sset st)).
Proof.
  intros (S & _ & _). unfold ensure_sset. destruct (sset st) as [top|].
  - now apply S.
  - apply request_is_request.
Qed.

Lemma ensure_tset_is_request (st : state) :
  pending_ok st -> is_request "torrent-set" (ensure_tset (tset st)).
Proof.
  intros (_ & T & _). unfold ensure_tset. destruct (tset st) as [top|].
  - now apply T.
  - apply request_is_request.
Qed.

Lemma new_tadd_is_request : is_request "torrent-add" new_tadd.
Proof. split; [reflexivity|]. now exists tr_variantInitDict. Qed.

Lemma pending_ok_initial : pending_ok initial.
Proof. split; [|split]; intros ? [=]. Qed.

(** Only the three pending requests matter. *)
Lemma pending_ok_same (st st' : state) :
  sset st' = sset st -> tset st' = tset st -> tadd st' = tadd st ->
  pending_ok st -> pending_ok st'.
Proof. unfold pending_ok. now intros -> -> ->. Qed.

Lemma pending_ok_with_sset (st : state) (top : variant) :
  is_request "session-set" top -> pending_ok st ->
  pending_ok (with_sset (Some top) st).
Proof. intros R (_ & T & A). split; [|split]; try assumption. now intros ? [= <-]. Qed.

Lemma pending_ok_with_tset (st : state) (top : variant) :
  is_request "torrent-set" top -> pending_ok st ->
  pending_ok (with_tset (Some top) st).
Proof. intros R (S & _ & A). split; [|split]; try assumption. now intros ? [= <-]. Qed.

Lemma pending_ok_with_tadd (st : state) (top : variant) :
  is_request "torrent-add" top -> pending_ok st ->
  pending_ok (with_tadd (Some top) st).
Proof. intros R (S & T & _). split; [|split]; try assumption. now intros ? [= <-]. Qed.

Lemma pending_ok_flush (top : variant) (st : state) :
  pending_ok st -> pending_ok (flush top st).
Proof. now apply pending_ok_same. Qed.

Lemma pending_ok_log (lines : list string) (st : state) :
  pending_ok st -> pending_ok (log lines st).
Proof. now apply pending_ok_same. Qed.

Lemma pending_ok_or_status (bits : Z) (st : state) :
  pending_ok st -> pending_ok (or_status bits st).
Proof. now apply pending_ok_same. Qed.

Lemma pending_ok_with_id (s : string) (st : state) :
  pending_ok st -> pending_ok (with_id s st).
Proof. now apply pending_ok_same. Qed.

Lemma pending_ok_with_debug (b : bool) (st : state) :
  pending_ok st -> pending_ok (with_debug b st).
Proof. now apply pending_ok_same. Qed.

Lemma pending_ok_with_auth (a : option string) (st : state) :
  pending_ok st -> pending_ok (with_auth a st).
Proof. now apply pending_ok_same. Qed.

Lemma pending_ok_with_netrc (a : option string) (st : state) :
  pending_ok st -> pending_ok (with_netrc a st).
Proof. now apply pending_ok_same. Qed.

Lemma pending_ok_with_UseSSL (b : bool) (st : state) :
  pending_ok st -> pending_ok (with_UseSSL b st).
Proof. now apply pending_ok_same. Qed.

Lemma pending_ok_flush_sset (st : state) :
  pending_ok st -> pending_ok (flush_sset st).
Proof.
  intros P. unfold flush_sset. destruct (sset st) as [top|]; [|assumption].
  destruct P as (_ & T & A). split; [|split]; try assumption; intros ? [=].
Qed.

Lemma pending_ok_flush_tadd (st : state) :
  pending_ok st -> pending_ok (flush_tadd st).
Proof.
  intros P. unfold flush_tadd. destruct (tadd st) as [top|]; [|assumption].
  destruct P as (S & T & _). split; [|split]; try assumption; intros ? [=].
Qed.

Lemma pending_ok_flush_tset (st : state) :
  pending_ok st -> pending_ok (flush_tset st).
Proof.
  intros P. unfold flush_tset. destruct (tset st) as [top|]; [|assumption].
  destruct (on_arguments top _) as [top' msgs].
  destruct P as (S & _ & A). split; [|split]; try assumption; intros ? [=].
Qed.

Lemma pending_ok_post_for_ids (method : string) (st : state) :
  pending_ok st -> pending_ok (post_for_ids method st).
Proof.
  intros P. unfold post_for_ids. destruct (addIdArg _ _ _) as [args msgs].
  now apply pending_ok_flush, pending_ok_log.
Qed.

Lemma pending_ok_post_plain (method : string) (tag : option Z) (st : state) :
  pending_ok st -> pending_ok (post_plain method tag st).
Proof. intros P. now apply pending_ok_flush. Qed.

Lemma pending_ok_torrent_get (tag : Z) (fields : list variant)
    (fallback : option string) (st : state) :
  pending_ok st -> pending_ok (torrent_get tag fields fallback st).
Proof.
  intros P. unfold torrent_get. destruct (addIdArg _ _ _) as [args msgs].
  now apply pending_ok_flush, pending_ok_log.
Qed.

(** What a round that goes on after editing a pending request has done. *)
Lemma edit_pending_Continue (top : variant) (e : variant -> edit)
    (store : option variant -> state -> state) (st st' : state) :
  edit_pending top e store st = Continue st' ->
  exists args args' msgs,
    tr_variantDictFind top Arguments = Some args /\
    e args = Edited args' msgs /\
    st' = store (Some (store_child top Arguments args')) (log msgs st).
Proof.
  unfold edit_pending. destruct (tr_variantDictFind top Arguments) as [args|]; [|discriminate].
  destruct (e args) as [args' msgs|msgs|] eqn:E; try discriminate.
  intros [= <-]. now exists args, args', msgs.
Qed.

Lemma edit_pending_ok (method : string) (top : variant) (e : variant -> edit)
    (store : option variant -> state -> state) (st st' : state) :
  (forall v st0, is_request method v -> pending_ok st0 -> pending_ok (store (Some v) st0)) ->
  is_request method top -> pending_ok st ->
  edit_pending top e store st = Continue st' -> pending_ok st'.
Proof.
  intros Store R P E.
  apply edit_pending_Continue in E as (args & args' & msgs & A & _ & ->).
  apply Store; [now apply store_child_is_request|now apply pending_ok_log].
Qed.

Lemma edit_sset_ok (e : variant -> edit) (st st' : state) :
  pending_ok st ->
  edit_pending (ensure_sset (sset st)) e with_sset st = Continue st' ->
  pending_ok st'.
Proof.
  intros P. apply (edit_pending_ok "session-set"); [|now apply ensure_sset_is_request|assumption].
  intros v st0 R P0. now apply pending_ok_with_sset.
Qed.

Lemma edit_tset_ok (e : variant -> edit) (st st' : state) :
  pending_ok st ->
  edit_pending (ensure_tset (tset st)) e with_tset st = Continue st' ->
  pending_ok st'.
Proof.
  intros P. apply (edit_pending_ok "torrent-set"); [|now apply ensure_tset_is_request|assumption].
  intros v st0 R P0. now apply pending_ok_with_tset.
Qed.

Lemma edit_tadd_ok (top : variant) (e : variant -> edit) (st st' : state) :
  pending_ok st -> tadd st = Some top ->
  edit_pending top e with_tadd st = Continue st' ->
  pending_ok st'.
Proof.
  intros P T. apply (edit_pending_ok "torrent-add"); [| |assumption].
  - intros v st0 R P0. now apply pending_ok_with_tadd.
  - destruct P as (_ & _ & A). now apply A.
Qed.

Create HintDb pending.

#[local] Hint Resolve pending_ok_flush pending_ok_log pending_ok_or_status
  pending_ok_with_id pending_ok_with_debug pending_ok_with_auth
  pending_ok_with_netrc pending_ok_with_UseSSL pending_ok_flush_sset
  pending_ok_flush_tadd pending_ok_flush_tset pending_ok_post_for_ids
  pending_ok_post_plain pending_ok_torrent_get pending_ok_with_tadd
  new_tadd_is_request : pending.

(** Case analysis on an option value, along the numeric [case] labels of a
    switch: [fin] closes the goal wherever the switch has been decided. *)
Ltac along_labels p fin :=
  first [ solve [fin] | destruct p as [p|p|]; simpl; along_labels p fin ].

Ltac by_option c fin :=
  let val := fresh "val" in
  let p := fresh "p" in
  destruct c as [| |val]; simpl;
  [ solve [fin] | solve [fin]
  | destruct val as [|p|p]; simpl; [solve [fin] | along_labels p fin | solve [fin]] ].

Ltac pending_fin :=
  let P := fresh "P" in
  let E := fresh "E" in
  intros P E;
  repeat match type of E with
         | context [match tadd ?st with _ => _ end] =>
             let T := fresh "T" in destruct (tadd st) eqn:T
         | context [match env_TR_AUTH with _ => _ end] => destruct env_TR_AUTH
         | context [addIdArg ?a ?i ?f] => destruct (addIdArg a i f)
         end;
  first
    [ discriminate E
    | eapply edit_tadd_ok; eassumption
    | eapply edit_sset_ok; eassumption
    | injection E as <-; eauto 10 with pending ].

Lemma meta_command_ok (c : getopt_val) (optarg : option string) (st st' : state) :
  pending_ok st -> meta_command c optarg st = Continue st' -> pending_ok st'.
Proof. revert st'. unfold meta_command. intros st'. by_option c pending_fin. Qed.

Lemma direct_command_ok (c : getopt_val) (optarg : option string) (st st' : state) :
  pending_ok st -> direct_command c optarg st = Continue st' -> pending_ok st'.
Proof. unfold direct_command. by_option c pending_fin. Qed.

#[local] Arguments direct_command : simpl never.
#[local] Arguments meta_command : simpl never.

Lemma round_of_state (o : outcome) (st' : state) :
  round_state (round_of o) = Some st' -> o = Continue st'.
Proof. destruct o; simpl; congruence. Qed.

Ltac round_fin :=
  let E := fresh "E" in
  intros E; simpl in E;
  repeat match type of E with
         | context [match tadd ?st with _ => _ end] =>
             let T := fresh "T" in destruct (tadd st) eqn:T
         | context [addIdArg ?a ?i ?f] => destruct (addIdArg a i f)
         end;
  simpl in E;
  first
    [ discriminate E
    | injection E as <-; eauto 10 with pending
    | apply round_of_state in E;
      first [ eapply direct_command_ok; eassumption
            | eapply edit_tadd_ok; eassumption ] ].

(** Every round leaves the pending requests as it found them: requests for
    session-set, torrent-set and torrent-add. *)
Lemma processArg_ok (c : getopt_val) (optarg : option string) (st st' : state) :
  pending_ok st -> round_state (processArg c optarg st) = Some st' ->
  pending_ok st'.
Proof.
  intros P. unfold processArg.
  destruct (getOptMode c) as [stepMode|]; [|discriminate].
  destruct (stepMode =? 0).
  { intros E. apply round_of_state in E. eapply meta_command_ok; eassumption. }
  destruct (stepMode =? MODE_TORRENT_GET).
  { apply pending_ok_flush_tset in P. revert P.
    generalize (flush_tset st) as st1. intros st1 P.
    by_option c round_fin. }
  destruct (stepMode =? MODE_SESSION_SET).
  { intros E. apply round_of_state in E. eapply edit_sset_ok; eassumption. }
  destruct (stepMode =? Z.lor MODE_SESSION_SET MODE_TORRENT_SET).
  { destruct (negb _); intros E; apply round_of_state in E;
      [eapply edit_tset_ok|eapply edit_sset_ok]; eassumption. }
  destruct (stepMode =? MODE_TORRENT_SET).
  { intros E. apply round_of_state in E. eapply edit_tset_ok; eassumption. }
  destruct (stepMode =? Z.lor MODE_TORRENT_SET MODE_TORRENT_ADD).
  { destruct (tadd st) as [top|] eqn:T; intros E; apply round_of_state in E;
      [eapply edit_tadd_ok|eapply edit_tset_ok]; eassumption. }
  by_option c round_fin.
Qed.

Lemma option_loop_ok (argv : list (getopt_val * option string)) (st st' : state) :
  pending_ok st -> round_state (option_loop argv st) = Some st' ->
  pending_ok st'.
Proof.
  revert st. induction argv as [|[c optarg] rest IH]; intros st P; simpl.
  - now intros [= <-].
  - destruct (processArg c optarg st) as [st1|st1|o] eqn:R; simpl.
    + apply IH. eapply processArg_ok; [eassumption|]. now rewrite R.
    + intros [= <-]. eapply processArg_ok; [eassumption|]. now rewrite R.
    + discriminate.
Qed.

Lemma state_after_ok (before : list (getopt_val * option string)) (st : state) :
  state_after before = Some st -> pending_ok st.
Proof.
  unfold state_after. intros E.
  apply (option_loop_ok before initial); [apply pending_ok_initial|].
  destruct (option_loop before initial); simpl; congruence.
Qed.

Lemma posts_one_flush (method : string) (args : variant) (msgs : list string)
    (st : state) (r : round) :
  round_state r = Some (flush (request method args) (log msgs st)) ->
  posts_one r (posted st) method.
Proof.
  intros R. exists (flush (request method args) (log msgs st)), (request method args).
  split; [assumption|]. split; [reflexivity|apply request_is_request].
Qed.

Lemma posts_one_post_for_ids (method : string) (st : state) :
  posts_one (Next (post_for_ids method st)) (posted st) method.
Proof.
  unfold post_for_ids. destruct (addIdArg _ _ _) as [args msgs].
  now apply (posts_one_flush method args msgs).
Qed.

(** C2. Both forms of the remove command post one torrent-remove request;
    its arguments carry delete_local_data, false for the plain form (r) and
    true for the remove-and-delete form (840). *)
Theorem remove_sends_delete_local_data (st : state) (optarg : option string) :
  (exists st' top,
     processArg (OPT 114) optarg st = Next st' /\
     posted st' = posted st ++ [top] /\
     method_of top = Some (VStr "torrent-remove") /\
     argument_of top TR_KEY_delete_local_data = Some (VBool false)) /\
  (exists st' top,
     processArg (OPT 840) optarg st = Next st' /\
     posted st' = posted st ++ [top] /\
     method_of top = Some (VStr "torrent-remove") /\
     argument_of top TR_KEY_delete_local_data = Some (VBool true)).
Proof.
  split; unfold processArg; simpl; unfold direct_command; simpl.
  - destruct (addIdArg _ _ _) as [args msgs] eqn:A. simpl.
    eexists _, _. split; [reflexivity|]. split; [reflexivity|].
    split; [reflexivity|]. unfold argument_of. rewrite request_arguments.
    change args with (fst (args, msgs)). rewrite <- A.
    now rewrite addIdArg_other.
  - destruct (addIdArg _ _ _) as [args msgs] eqn:A. simpl.
    eexists _, _. split; [reflexivity|]. split; [reflexivity|].
    split; [reflexivity|]. unfold argument_of. rewrite request_arguments.
    change args with (fst (args, msgs)). rewrite <- A.
    now rewrite addIdArg_other.
Qed.

Lemma posted_flush_sset_incl (st : state) (x : variant) :
  In x (posted st) -> In x (posted (flush_sset st)).
Proof.
  intros I. unfold flush_sset. destruct (sset st); [|assumption].
  simpl. apply in_or_app. now left.
Qed.

Lemma posted_flush_tset_incl (st : state) (x : variant) :
  In x (posted st) -> In x (posted (flush_tset st)).
Proof.
  intros I. unfold flush_tset. destruct (tset st); [|assumption].
  destruct (on_arguments _ _) as [top' msgs]. simpl. apply in_or_app. now left.
Qed.

Lemma sset_flush_tadd (st : state) : sset (flush_tadd st) = sset st.
Proof. unfold flush_tadd. now destruct (tadd st). Qed.

Lemma tset_flush_tadd (st : state) : tset (flush_tadd st) = tset st.
Proof. unfold flush_tadd. now destruct (tadd st). Qed.

Lemma sset_flush_tset (st : state) : sset (flush_tset st) = sset st.
Proof.
  unfold flush_tset. destruct (tset st); [|reflexivity].
  now destruct (on_arguments _ _).
Qed.

(** Flushing the pending torrent-set request posts it, with its ids. *)

(** ** What the pending requests carry *)

Lemma in_children_replace (l : list (tr_quark * variant)) (key : tr_quark)
    (old v : variant) :
  children_find l key = Some old -> In (key, v) (children_replace l key v).
Proof.
  induction l as [|[k w] l IH]; simpl; [discriminate|].
  destruct (quark_eqb k key) eqn:E.
  - apply quark_eqb_eq in E as ->. intros _. now left.
  - intros F. right. now apply IH.
Qed.

Lemma in_children_replace_other (l : list (tr_quark * variant)) (key : tr_quark)
    (v : variant) (kv : tr_quark * variant) :
  In kv l -> kv.1 <> key -> In kv (children_replace l key v).
Proof.
  intros I N. induction l as [|[k w] l IH]; simpl; [contradiction|].
  destruct (quark_eqb k key) eqn:E.
  - apply quark_eqb_eq in E as ->. destruct I as [<-|I]; [now elim N|now right].
  - destruct I as [<-|I]; [now left|right; now apply IH].
Qed.

Lemma in_children_remove_other (l : list (tr_quark * variant)) (key : tr_quark)
    (kv : tr_quark * variant) :
  In kv l -> kv.1 <> key -> In kv (children_remove l key).
Proof.
  intros I N. induction l as [|[k w] l IH]; simpl; [contradiction|].
  destruct (quark_eqb k key) eqn:E.
  - apply quark_eqb_eq in E as ->. destruct I as [<-|I]; [now elim N|assumption].
  - destruct I as [<-|I]; [now left|right; now apply IH].
Qed.

Lemma extends_is_dict (d d' : variant) (kvs : list (tr_quark * variant)) :
  extends d d' kvs -> is_dict d'.
Proof. intros (l & l' & _ & -> & _). now exists l'. Qed.

Lemma extends_dictFindOrAdd (d : variant) (key : tr_quark) (v : variant) :
  is_dict d -> extends d (dictFindOrAdd d key v) [(key, v)].
Proof.
  intros [l ->]. unfold dictFindOrAdd.
  assert (O : forall kv : tr_quark * variant,
             ~ In kv.1 (map fst [(key, v)]) -> kv.1 <> key).
  { intros kv N E. apply N. now left. }
  destruct (children_find l key) as [old|] eqn:F; [destruct (same_type old v)|];
    eexists l, _; (split; [reflexivity|]); (split; [reflexivity|]); split.
  - intros kv [<-|[]]. eapply in_children_replace, F.
  - intros kv I N. apply in_children_replace_other; auto.
  - intros kv [<-|[]]. apply in_or_app. right. now left.
  - intros kv I N. apply in_or_app. left. apply in_children_remove_other; auto.
  - intros kv [<-|[]]. apply in_or_app. right. now left.
  - intros kv I N. apply in_or_app. now left.
Qed.

Lemma extends_tr_variantDictAdd (d : variant) (key : tr_quark) (v : variant) :
  is_dict d -> extends d (tr_variantDictAdd d key v) [(key, v)].
Proof.
  intros [l ->]. exists l, (l ++ [(key, v)]).
  split; [reflexivity|]. split; [reflexivity|]. split.
  - intros kv [<-|[]]. apply in_or_app. right. now left.
  - intros kv I _. apply in_or_app. now left.
Qed.

Lemma extends_nothing (d : variant) : is_dict d -> extends d d [].
Proof.
  intros [l ->]. exists l, l. split; [reflexivity|]. split; [reflexivity|].
  split; [intros ? []|auto].
Qed.

(** One setting after another, under another key. *)
Lemma extends_then (d d' d'' : variant) (key key' : tr_quark) (v v' : variant) :
  key <> key' ->
  extends d d' [(key, v)] -> extends d' d'' [(key', v')] ->
  extends d d'' [(key, v); (key', v')].
Proof.
  intros N (l & l1 & -> & -> & I1 & K1) (l1' & l2 & [= <-] & -> & I2 & K2).
  exists l, l2. split; [reflexivity|]. split; [reflexivity|]. split.
  - intros kv [<-|[<-|[]]].
    + apply K2; [apply I1; now left|]. simpl. intros [E|[]]. now apply N.
    + apply I2. now left.
  - intros kv I O. apply K2; [apply K1; [assumption|]|]; simpl in *; tauto.
Qed.

Lemma extends_add_two (d : variant) (key key' : tr_quark) (v v' : variant) :
  key <> key' -> is_dict d ->
  extends d (dictFindOrAdd (dictFindOrAdd d key v) key' v') [(key, v); (key', v')].
Proof.
  intros N Dd. eapply extends_then; [exact N|now apply extends_dictFindOrAdd|].
  apply extends_dictFindOrAdd. eapply extends_is_dict. now apply extends_dictFindOrAdd.
Qed.

Lemma extends_addTime (args : variant) (key : tr_quark) (arg : option string) :
  is_dict args ->
  extends args (addTime args key arg).1
    match time_sent arg with Some t => [(key, VInt t)] | None => [] end.
Proof.
  intros Dd. unfold addTime, time_sent.
  destruct arg as [a|]; [|now apply extends_nothing].
  destruct (strlen a =? 4); [|now apply extends_nothing].
  cbv zeta. destruct (_ && _); [|now apply extends_nothing].
  now apply extends_dictFindOrAdd.
Qed.

Lemma extends_addDays (args : variant) (key : tr_quark) (arg : option string) :
  is_dict args ->
  extends args (addDays args key arg).1
    (if negb (days_sent arg =? 0) then [(key, VInt (days_sent arg))] else []).
Proof.
  intros Dd. unfold addDays. fold (days_sent arg). cbv zeta.
  destruct (negb _); [now apply extends_dictFindOrAdd|now apply extends_nothing].
Qed.

Lemma extends_addFiles (args : variant) (key : tr_quark) (arg : option string) :
  is_dict args ->
  extends args (addFiles args key arg).1 [(key, VList (listed_files arg))].
Proof.
  intros Dd. unfold addFiles, listed_files.
  destruct (tr_str_is_empty arg); now apply extends_tr_variantDictAdd.
Qed.

Ltac stores_by Dd :=
  first
    [ apply extends_dictFindOrAdd; exact Dd
    | apply extends_add_two; [discriminate|exact Dd]
    | apply extends_addTime; exact Dd
    | apply extends_addDays; exact Dd
    | apply extends_addFiles; exact Dd ].

Ltac stores_go :=
  let Dd := fresh "Dd" in
  let E := fresh "E" in
  intros Dd E; first [discriminate E | injection E as <- <-; stores_by Dd].

Ltac stores_fin :=
  unfold edited, told, add_numarg;
  first
    [ stores_go
    | match goal with |- context [numarg ?a] => destruct (numarg a) end; stores_go
    | match goal with |- context [if ?b then _ else _] => is_var b; destruct b end;
      first
        [ stores_go
        | match goal with |- context [numarg ?a] => destruct (numarg a) end;
          stores_go ] ].

(** The settings of the session options are among the arguments once the
    switch has run. *)
Lemma session_set_edit_extends (c : getopt_val) (optarg : option string)
    (args args' : variant) (msgs : list string) :
  is_dict args -> session_set_edit c optarg args = Edited args' msgs ->
  extends args args' (session_settings c optarg).
Proof.
  revert args' msgs. unfold session_set_edit, session_settings. intros args' msgs.
  by_option c stores_fin.
Qed.

Lemma limit_edit_extends (c : getopt_val) (optarg : option string) (targs : bool)
    (args args' : variant) (msgs : list string) :
  is_dict args -> limit_edit c optarg targs args = Edited args' msgs ->
  extends args args' (limit_settings c targs optarg).
Proof.
  revert args' msgs. unfold limit_edit, limit_settings. intros args' msgs.
  by_option c stores_fin.
Qed.

Lemma priority_edit_extends (val : Z) (optarg : option string)
    (args args' : variant) (msgs : list string) :
  In val priority_options -> is_dict args ->
  torrent_set_or_add_edit (OPT val) optarg args = Edited args' msgs ->
  extends args args' (priority_settings (OPT val) optarg).
Proof.
  intros I. unfold priority_options in I. simpl in I.
  repeat (destruct I as [<-|I]; [simpl; stores_fin|]). contradiction.
Qed.

(** ** The arguments of the pending requests stay dictionaries *)

Lemma is_dict_dictFindOrAdd (d : variant) (key : tr_quark) (v : variant) :
  is_dict d -> is_dict (dictFindOrAdd d key v).
Proof. intros Dd. eapply extends_is_dict. now apply extends_dictFindOrAdd. Qed.

Lemma is_dict_tr_variantDictAdd (d : variant) (key : tr_quark) (v : variant) :
  is_dict d -> is_dict (tr_variantDictAdd d key v).
Proof. intros [l ->]. now eexists. Qed.

Lemma is_dict_store_child (d : variant) (key : tr_quark) (v : variant) :
  is_dict d -> is_dict (store_child d key v).
Proof. intros [l ->]. now eexists. Qed.

Lemma is_dict_push (d : variant) (key : tr_quark) (items : list variant) :
  is_dict d -> is_dict (find_or_add_list_then_push d key items).
Proof.
  intros Dd. unfold find_or_add_list_then_push.
  destruct (tr_variantDictFindList d key);
    [now apply is_dict_store_child|now apply is_dict_tr_variantDictAdd].
Qed.

Lemma is_dict_addFiles (d : variant) (key : tr_quark) (arg : option string) :
  is_dict d -> is_dict (addFiles d key arg).1.
Proof. intros Dd. eapply extends_is_dict. now apply extends_addFiles. Qed.

Lemma is_dict_addLabels (d : variant) (labels : string) :
  is_dict d -> is_dict (addLabels d labels).
Proof. intros Dd. now apply is_dict_push. Qed.

Ltac dict_by Dd :=
  repeat first
    [ exact Dd
    | apply is_dict_dictFindOrAdd
    | apply is_dict_push
    | apply is_dict_addFiles
    | apply is_dict_addLabels ].

Ltac keeps_fin :=
  let Dd := fresh "Dd" in
  let E := fresh "E" in
  unfold edited, told;
  intros Dd E; first [discriminate E | injection E as <- <-; solve [dict_by Dd]].

Lemma keeps_session_set_edit (c : getopt_val) (optarg : option string) :
  keeps_dict (session_set_edit c optarg).
Proof.
  intros args args' msgs Dd E. eapply extends_is_dict.
  eapply session_set_edit_extends; eassumption.
Qed.

Lemma keeps_limit_edit (c : getopt_val) (optarg : option string) (targs : bool) :
  keeps_dict (limit_edit c optarg targs).
Proof.
  intros args args' msgs Dd E. eapply extends_is_dict.
  eapply limit_edit_extends; eassumption.
Qed.

Lemma keeps_torrent_set_edit (c : getopt_val) (optarg : option string) :
  keeps_dict (torrent_set_edit c optarg).
Proof.
  intros args args' msgs. revert args' msgs. unfold torrent_set_edit. intros args' msgs.
  by_option c keeps_fin.
Qed.

Lemma keeps_torrent_set_or_add_edit (c : getopt_val) (optarg : option string) :
  keeps_dict (torrent_set_or_add_edit c optarg).
Proof.
  intros args args' msgs. revert args' msgs. unfold torrent_set_or_add_edit.
  intros args' msgs. by_option c keeps_fin.
Qed.

Lemma keeps_one_setting (key : tr_quark) (v : variant) :
  keeps_dict (fun args => edited (dictFindOrAdd args key v)).
Proof. intros args args' msgs Dd [= <- <-]. now apply is_dict_dictFindOrAdd. Qed.

Lemma keeps_metainfo (optarg : option string) :
  keeps_dict
    (fun args =>
       let tmp := getEncodedMetainfo (deref optarg) in
       if negb (String.eqb tmp EmptyString) then
         edited (tr_variantDictAddStr args TR_KEY_metainfo tmp)
       else edited (tr_variantDictAddStr args TR_KEY_filename (deref optarg))).
Proof.
  intros args args' msgs. cbv beta zeta. destruct (negb _); keeps_fin.
Qed.

Lemma dict_arguments_store_child (top args' : variant) :
  dict_arguments top -> is_dict args' ->
  dict_arguments (store_child top Arguments args').
Proof.
  intros [l F] [l' ->]. exists l'. eapply find_store_child_same, F.
Qed.

Lemma new_request_dict_arguments (method : string) :
  dict_arguments (request method tr_variantInitDict).
Proof. now exists []. Qed.

Lemma ensure_sset_dict (st : state) :
  pending_dicts st -> dict_arguments (ensure_sset (sset st)).
Proof.
  intros (S & _ & _). unfold ensure_sset. destruct (sset st) as [top|].
  - now apply S.
  - now exists [].
Qed.

Lemma ensure_tset_dict (st : state) :
  pending_dicts st -> dict_arguments (ensure_tset (tset st)).
Proof.
  intros (_ & T & _). unfold ensure_tset. destruct (tset st) as [top|].
  - now apply T.
  - now exists [].
Qed.

Lemma new_tadd_dict : dict_arguments new_tadd.
Proof. now exists []. Qed.

Lemma pending_dicts_initial : pending_dicts initial.
Proof. split; [|split]; intros ? [=]. Qed.

Lemma pending_dicts_same (st st' : state) :
  sset st' = sset st -> tset st' = tset st -> tadd st' = tadd st ->
  pending_dicts st -> pending_dicts st'.
Proof. unfold pending_dicts. now intros -> -> ->. Qed.

Lemma pending_dicts_with_sset (st : state) (top : variant) :
  dict_arguments top -> pending_dicts st -> pending_dicts (with_sset (Some top) st).
Proof. intros R (_ & T & A). split; [|split]; try assumption. now intros ? [= <-]. Qed.

Lemma pending_dicts_with_tset (st : state) (top : variant) :
  dict_arguments top -> pending_dicts st -> pending_dicts (with_tset (Some top) st).
Proof. intros R (S & _ & A). split; [|split]; try assumption. now intros ? [= <-]. Qed.

Lemma pending_dicts_with_tadd (st : state) (top : variant) :
  dict_arguments top -> pending_dicts st -> pending_dicts (with_tadd (Some top) st).
Proof. intros R (S & T & _). split; [|split]; try assumption. now intros ? [= <-]. Qed.

Lemma pending_dicts_flush (top : variant) (st : state) :
  pending_dicts st -> pending_dicts (flush top st).
Proof. now apply pending_dicts_same. Qed.

Lemma pending_dicts_log (lines : list string) (st : state) :
  pending_dicts st -> pending_dicts (log lines st).
Proof. now apply pending_dicts_same. Qed.

Lemma pending_dicts_or_status (bits : Z) (st : state) :
  pending_dicts st -> pending_dicts (or_status bits st).
Proof. now apply pending_dicts_same. Qed.

Lemma pending_dicts_with_id (s : string) (st : state) :
  pending_dicts st -> pending_dicts (with_id s st).
Proof. now apply pending_dicts_same. Qed.

Lemma pending_dicts_with_debug (b : bool) (st : state) :
  pending_dicts st -> pending_dicts (with_debug b st).
Proof. now apply pending_dicts_same. Qed.

Lemma pending_dicts_with_auth (a : option string) (st : state) :
  pending_dicts st -> pending_dicts (with_auth a st).
Proof. now apply pending_dicts_same. Qed.

Lemma pending_dicts_with_netrc (a : option string) (st : state) :
  pending_dicts st -> pending_dicts (with_netrc a st).
Proof. now apply pending_dicts_same. Qed.

Lemma pending_dicts_with_UseSSL (b : bool) (st : state) :
  pending_dicts st -> pending_dicts (with_UseSSL b st).
Proof. now apply pending_dicts_same. Qed.

Lemma pending_dicts_flush_sset (st : state) :
  pending_dicts st -> pending_dicts (flush_sset st).
Proof.
  intros P. unfold flush_sset. destruct (sset st) as [top|]; [|assumption].
  destruct P as (_ & T & A). split; [|split]; try assumption; intros ? [=].
Qed.

Lemma pending_dicts_flush_tadd (st : state) :
  pending_dicts st -> pending_dicts (flush_tadd st).
Proof.
  intros P. unfold flush_tadd. destruct (tadd st) as [top|]; [|assumption].
  destruct P as (S & T & _). split; [|split]; try assumption; intros ? [=].
Qed.

Lemma pending_dicts_flush_tset (st : state) :
  pending_dicts st -> pending_dicts (flush_tset st).
Proof.
  intros P. unfold flush_tset. destruct (tset st) as [top|]; [|assumption].
  destruct (on_arguments top _) as [top' msgs].
  destruct P as (S & _ & A). split; [|split]; try assumption; intros ? [=].
Qed.

Lemma pending_dicts_post_for_ids (method : string) (st : state) :
  pending_dicts st -> pending_dicts (post_for_ids method st).
Proof.
  intros P. unfold post_for_ids. destruct (addIdArg _ _ _) as [args msgs].
  now apply pending_dicts_flush, pending_dicts_log.
Qed.

Lemma pending_dicts_post_plain (method : string) (tag : option Z) (st : state) :
  pending_dicts st -> pending_dicts (post_plain method tag st).
Proof. intros P. now apply pending_dicts_flush. Qed.

Lemma pending_dicts_torrent_get (tag : Z) (fields : list variant)
    (fallback : option string) (st : state) :
  pending_dicts st -> pending_dicts (torrent_get tag fields fallback st).
Proof.
  intros P. unfold torrent_get. destruct (addIdArg _ _ _) as [args msgs].
  now apply pending_dicts_flush, pending_dicts_log.
Qed.

Lemma edit_pending_dicts (top : variant) (e : variant -> edit)
    (store : option variant -> state -> state) (st st' : state) :
  (forall v st0, dict_arguments v -> pending_dicts st0 ->
                 pending_dicts (store (Some v) st0)) ->
  dict_arguments top -> pending_dicts st ->
  edit_pending top e store st = Continue st' -> keeps_dict e ->
  pending_dicts st'.
Proof.
  intros Store [l F] P E K.
  apply edit_pending_Continue in E as (args & args' & msgs & A & Ed & ->).
  rewrite F in A. injection A as <-.
  apply Store; [|now apply pending_dicts_log].
  apply dict_arguments_store_child; [now exists l|].
  eapply K; [|exact Ed]. now exists l.
Qed.

Lemma edit_sset_dicts (e : variant -> edit) (st st' : state) :
  pending_dicts st ->
  edit_pending (ensure_sset (sset st)) e with_sset st = Continue st' ->
  keeps_dict e -> pending_dicts st'.
Proof.
  intros P. apply edit_pending_dicts; [|now apply ensure_sset_dict|assumption].
  intros v st0 R P0. now apply pending_dicts_with_sset.
Qed.

Lemma edit_tset_dicts (e : variant -> edit) (st st' : state) :
  pending_dicts st ->
  edit_pending (ensure_tset (tset st)) e with_tset st = Continue st' ->
  keeps_dict e -> pending_dicts st'.
Proof.
  intros P. apply edit_pending_dicts; [|now apply ensure_tset_dict|assumption].
  intros v st0 R P0. now apply pending_dicts_with_tset.
Qed.

Lemma edit_tadd_dicts (top : variant) (e : variant -> edit) (st st' : state) :
  pending_dicts st -> tadd st = Some top ->
  edit_pending top e with_tadd st = Continue st' ->
  keeps_dict e -> pending_dicts st'.
Proof.
  intros P T. apply edit_pending_dicts; [| |assumption].
  - intros v st0 R P0. now apply pending_dicts_with_tadd.
  - destruct P as (_ & _ & A). now apply A.
Qed.

Create HintDb dicts.

#[local] Hint Resolve pending_dicts_flush pending_dicts_log pending_dicts_or_status
  pending_dicts_with_id pending_dicts_with_debug pending_dicts_with_auth
  pending_dicts_with_netrc pending_dicts_with_UseSSL pending_dicts_flush_sset
  pending_dicts_flush_tadd pending_dicts_flush_tset pending_dicts_post_for_ids
  pending_dicts_post_plain pending_dicts_torrent_get pending_dicts_with_tadd
  new_tadd_dict : dicts.

Ltac keeps_any :=
  first
    [ apply keeps_metainfo
    | apply keeps_one_setting
    | apply keeps_torrent_set_or_add_edit
    | intros ? ? ?; cbv beta; keeps_fin ].

Ltac dicts_fin :=
  let P := fresh "P" in
  let E := fresh "E" in
  intros P E;
  repeat match type of E with
         | context [match tadd ?st with _ => _ end] =>
             let T := fresh "T" in destruct (tadd st) eqn:T
         | context [match env_TR_AUTH with _ => _ end] => destruct env_TR_AUTH
         | context [addIdArg ?a ?i ?f] => destruct (addIdArg a i f)
         end;
  first
    [ discriminate E
    | eapply edit_tadd_dicts; [eassumption|eassumption|eassumption|keeps_any]
    | eapply edit_sset_dicts; [eassumption|eassumption|keeps_any]
    | injection E as <-; eauto 10 with dicts ].

Lemma meta_command_dicts (c : getopt_val) (optarg : option string) (st st' : state) :
  pending_dicts st -> meta_command c optarg st = Continue st' -> pending_dicts st'.
Proof.
  revert st'. unfold meta_command. intros st'.
  by_option c dicts_fin.
Qed.

Lemma direct_command_dicts (c : getopt_val) (optarg : option string) (st st' : state) :
  pending_dicts st -> direct_command c optarg st = Continue st' -> pending_dicts st'.
Proof. unfold direct_command. by_option c dicts_fin. Qed.

Ltac round_dicts_fin :=
  let E := fresh "E" in
  intros E; simpl in E;
  repeat match type of E with
         | context [match tadd ?st with _ => _ end] =>
             let T := fresh "T" in destruct (tadd st) eqn:T
         | context [addIdArg ?a ?i ?f] => destruct (addIdArg a i f)
         end;
  simpl in E;
  first
    [ discriminate E
    | injection E as <-; eauto 10 with dicts
    | apply round_of_state in E;
      first [ eapply direct_command_dicts; eassumption
            | eapply edit_tadd_dicts; [eassumption|eassumption|eassumption|keeps_any] ] ].

Lemma processArg_dicts (c : getopt_val) (optarg : option string) (st st' : state) :
  pending_dicts st -> round_state (processArg c optarg st) = Some st' ->
  pending_dicts st'.
Proof.
  intros P. unfold processArg.
  destruct (getOptMode c) as [stepMode|]; [|discriminate].
  destruct (stepMode =? 0).
  { intros E. apply round_of_state in E. eapply meta_command_dicts; eassumption. }
  destruct (stepMode =? MODE_TORRENT_GET).
  { apply pending_dicts_flush_tset in P. revert P.
    generalize (flush_tset st) as st1. intros st1 P.
    by_option c round_dicts_fin. }
  destruct (stepMode =? MODE_SESSION_SET).
  { intros E. apply round_of_state in E.
    eapply edit_sset_dicts; [eassumption..|apply keeps_session_set_edit]. }
  destruct (stepMode =? Z.lor MODE_SESSION_SET MODE_TORRENT_SET).
  { destruct (negb _); intros E; apply round_of_state in E;
      [eapply edit_tset_dicts|eapply edit_sset_dicts];
      try eassumption; apply keeps_limit_edit. }
  destruct (stepMode =? MODE_TORRENT_SET).
  { intros E. apply round_of_state in E.
    eapply edit_tset_dicts; [eassumption..|apply keeps_torrent_set_edit]. }
  destruct (stepMode =? Z.lor MODE_TORRENT_SET MODE_TORRENT_ADD).
  { destruct (tadd st) as [top|] eqn:T; intros E; apply round_of_state in E;
      [eapply edit_tadd_dicts|eapply edit_tset_dicts];
      try eassumption; apply keeps_torrent_set_or_add_edit. }
  by_option c round_dicts_fin.
Qed.

Lemma option_loop_dicts (argv : list (getopt_val * option string)) (st st' : state) :
  pending_dicts st -> round_state (option_loop argv st) = Some st' ->
  pending_dicts st'.
Proof.
  revert st. induction argv as [|[c optarg] rest IH]; intros st P; simpl.
  - now intros [= <-].
  - destruct (processArg c optarg st) as [st1|st1|o] eqn:R; simpl.
    + apply IH. eapply processArg_dicts; [eassumption|]. now rewrite R.
    + intros [= <-]. eapply processArg_dicts; [eassumption|]. now rewrite R.
    + discriminate.
Qed.

Lemma state_after_dicts (before : list (getopt_val * option string)) (st : state) :
  state_after before = Some st -> pending_dicts st.
Proof.
  unfold state_after. intros E.
  apply (option_loop_dicts before initial); [apply pending_dicts_initial|].
  destruct (option_loop before initial); simpl; congruence.
Qed.

(** What an edit of a pending request leaves in it. *)
Lemma edit_pending_carries (top : variant) (e : variant -> edit)
    (store : option variant -> state -> state) (st st' : state)
    (kvs : list (tr_quark * variant)) :
  dict_arguments top ->
  (forall args args' msgs, is_dict args -> e args = Edited args' msgs ->
     extends args args' kvs) ->
  edit_pending top e store st = Continue st' ->
  exists args' msgs,
    st' = store (Some (store_child top Arguments args')) (log msgs st) /\
    (forall key v, In (key, v) kvs ->
       carries (store_child top Arguments args') key v) /\
    (forall key v, carries top key v -> ~ In key (map fst kvs) ->
       carries (store_child top Arguments args') key v).
Proof.
  intros [l F] Ext E.
  apply edit_pending_Continue in E as (args & args' & msgs & A & Ed & ->).
  rewrite F in A. injection A as <-.
  destruct (Ext _ _ _ (ex_intro _ l eq_refl) Ed) as (l0 & l' & [= <-] & -> & In1 & Old).
  assert (tr_variantDictFind (store_child top Arguments (VDict l')) Arguments
          = Some (VDict l')) as F'.
  { eapply find_store_child_same, F. }
  exists (VDict l'), msgs. split; [reflexivity|]. split.
  - intros key v I. exists l'. split; [assumption|now apply In1].
  - intros key v (l1 & F1 & I) N. rewrite F in F1. injection F1 as <-.
    exists l'. split; [assumption|]. now apply Old.
Qed.

(** [addIdArg] adds the ids and leaves the other children alone. *)
Lemma addIdArg_keeps (args : variant) (id_str fallback : option string) :
  is_dict args ->
  exists l l',
    args = VDict l /\ (addIdArg args id_str fallback).1 = VDict l' /\
    forall kv, In kv l -> kv.1 <> TR_KEY_ids -> In kv l'.
Proof.
  intros Dd.
  assert (forall d', (exists v, extends args d' [(TR_KEY_ids, v)]) ->
            exists l l', args = VDict l /\ d' = VDict l' /\
              forall kv, In kv l -> kv.1 <> TR_KEY_ids -> In kv l') as Up.
  { intros d' (v & l & l' & -> & -> & _ & Old). exists l, l'.
    split; [reflexivity|]. split; [reflexivity|].
    intros kv I N. apply Old; [assumption|]. simpl. intros [E|[]]. now apply N. }
  unfold addIdArg.
  destruct (if tr_str_is_empty id_str then _ else _) as [s msgs].
  destruct (strcmp_eq s "active"); simpl.
  { apply Up. eexists. now apply extends_dictFindOrAdd. }
  destruct (negb _); simpl.
  - destruct (_ || _); simpl; apply Up; eexists;
      [now apply extends_tr_variantDictAdd|now apply extends_dictFindOrAdd].
  - destruct Dd as [l ->]. exists l, l. auto.
Qed.

(** Flushing the pending torrent-set request posts it, with its ids. *)
Lemma flush_tset_posts (st : state) (top : variant) :
  tset st = Some top -> is_request "torrent-set" top -> dict_arguments top ->
  exists top',
    In top' (posted (flush_tset st)) /\ is_request "torrent-set" top' /\
    forall key v, key <> TR_KEY_ids -> carries top key v -> carries top' key v.
Proof.
  intros T R [l F]. unfold flush_tset. rewrite T. unfold on_arguments. rewrite F.
  destruct (addIdArg_keeps (VDict l) (Some (id st)) None) as (l0 & l' & [= <-] & E & K).
  { now exists l. }
  destruct (addIdArg _ _ _) as [args' msgs]. simpl in E. subst args'.
  exists (store_child top Arguments (VDict l')). split; [|split].
  - simpl. apply in_or_app. right. now left.
  - now apply store_child_is_request.
  - intros key v N (l1 & F1 & I). rewrite F in F1. injection F1 as <-.
    exists l'. split; [eapply find_store_child_same, F|]. now apply K.
Qed.


End RemoteFacts.

(** * The piece-assembly engine *)

Module EngineFacts.
Import Engine.
Local Open Scope nat_scope.

Section WithHash.
Context {digest : Type} `{EqDecision digest} (hash : list Byte.byte -> digest).

Lemma BitField_test_new (size index : nat) :
  BitField_test (BitField_new size) index = false.
Proof.
  unfold BitField_test, BitField_new.
  destruct (_ !! index) as [b|] eqn:L; [|reflexivity].
  apply lookup_replicate in L as [-> _]. reflexivity.
Qed.

Lemma BitField_test_set_other (b : BitField) (index index' : nat) :
  index <> index' ->
  BitField_test (BitField_set index b) index' = BitField_test b index'.
Proof.
  intros N. unfold BitField_test, BitField_set.
  now rewrite list_lookup_insert_ne.
Qed.

Lemma manifest_step (t : Torrent) (e : event) :
  manifest (step hash t e) = manifest t.
Proof.
  destruct e as [p piece offset now|p piece offset data|piece|]; simpl; try reflexivity.
  unfold onBlockReceived.
  repeat case_match; reflexivity.
Qed.

Lemma manifest_run (events : list event) (t : Torrent) :
  manifest (run hash t events) = manifest t.
Proof.
  unfold run. revert t. induction events as [|e events IH]; intros t; simpl;
    [reflexivity|].
  now rewrite IH, manifest_step.
Qed.

Lemma no_false_completion_create (m : PieceManifest) :
  no_false_completion hash (create m).
Proof. intros index T. simpl in T. now rewrite BitField_test_new in T. Qed.

Lemma no_false_completion_onBlockReceived (t : Torrent) (p : peer_id)
    (piece offset : nat) (data : bytes) :
  no_false_completion hash t ->
  no_false_completion hash (fst (onBlockReceived hash t p piece offset data)).
Proof.
  intros Inv. unfold onBlockReceived.
  destruct (pending t !! piece) as [pp|]; [|assumption].
  destruct (pp !! offset) as [[|q ts|d]|]; try assumption.
  destruct (decide (q = p)) as [->|]; [|assumption].
  destruct (assemble _ _) as [whole|]; [|assumption].
  destruct (decide (expectedHash (manifest t) piece = Some (hash whole))) as [Match|];
    [|assumption].
  intros index T. simpl in *.
  destruct (decide (piece = index)) as [<-|N].
  - exists whole. split; [apply lookup_insert_eq|assumption].
  - rewrite BitField_test_set_other in T by assumption.
    destruct (Inv index T) as (stored & S & E).
    exists stored. split; [|assumption]. now rewrite lookup_insert_ne.
Qed.

Lemma no_false_completion_verifyExistingData (t : Torrent) :
  no_false_completion hash (verifyExistingData hash t).
Proof.
  intros index T. unfold verifyExistingData, BitField_test in T. simpl in *.
  rewrite list_lookup_fmap in T.
  destruct (seq _ _ !! index) as [i|] eqn:L; [|discriminate].
  apply lookup_seq in L as [-> _]. simpl in T.
  destruct (storage t !! index) as [stored|]; [|discriminate].
  exists stored. split; [reflexivity|]. now apply bool_decide_eq_true in T.
Qed.

Lemma no_false_completion_step (t : Torrent) (e : event) :
  no_false_completion hash t -> no_false_completion hash (step hash t e).
Proof.
  intros Inv. destruct e as [p piece offset now|p piece offset data|piece|]; simpl.
  - exact Inv.
  - now apply no_false_completion_onBlockReceived.
  - exact Inv.
  - apply no_false_completion_verifyExistingData.
Qed.

Lemma no_false_completion_run (events : list event) (t : Torrent) :
  no_false_completion hash t -> no_false_completion hash (run hash t events).
Proof.
  unfold run. revert t. induction events as [|e events IH]; intros t Inv; simpl;
    [assumption|].
  apply IH. now apply no_false_completion_step.
Qed.

(** A bit goes from 0 to 1 only when the last block of the piece arrives and
    the assembled bytes match the expected digest, or when stored data is
    verified again. *)
Lemma bit_set_only_when_verified (t : Torrent) (e : event) (index : nat) :
  BitField_test (bitfield t) index = false ->
  BitField_test (bitfield (step hash t e)) index = true ->
  e = VerifyExistingData \/
  exists p offset data pp whole,
    e = BlockReceived p index offset data /\
    pending t !! index = Some pp /\
    assemble (<[offset := Received data]> pp) (block_offsets (manifest t) index)
      = Some whole /\
    expectedHash (manifest t) index = Some (hash whole) /\
    storage (step hash t e) !! index = Some whole.
Proof.
  intros Before After.
  destruct e as [p piece offset now|p piece offset data|piece|]; simpl in After;
    [congruence| |congruence|now left].
  right. unfold step, onBlockReceived in *.
  destruct (pending t !! piece) as [pp|] eqn:Pp; [|simpl in After; congruence].
  destruct (pp !! offset) as [[|q ts|d]|]; try (simpl in After; congruence).
  destruct (decide (q = p)) as [->|]; [|simpl in After; congruence].
  destruct (assemble _ _) as [whole|] eqn:As; [|simpl in After; congruence].
  destruct (decide (expectedHash (manifest t) piece = Some (hash whole))) as [Match|];
    [|simpl in After; congruence].
  simpl in *.
  destruct (decide (piece = index)) as [<-|N].
  - exists p, offset, data, pp, whole. repeat split; try assumption.
    apply lookup_insert_eq.
  - rewrite BitField_test_set_other in After by assumption. congruence.
Qed.

(** C3. In every state a torrent reaches from its creation, a bit that tests
    true stands for a piece whose stored bytes hash to the digest the
    manifest expects for it. *)
Theorem bitfield_implies_verified (m : PieceManifest) (events : list event)
    (index : nat) :
  BitField_test (bitfield (run hash (create m) events)) index = true ->
  exists stored,
    storage (run hash (create m) events) !! index = Some stored /\
    expectedHash m index = Some (hash stored).
Proof.
  intros T.
  destruct (no_false_completion_run events (create m)
              (no_false_completion_create m) index T) as (stored & S & E).
  exists stored. split; [assumption|].
  now rewrite manifest_run in E.
Qed.

End WithHash.
End EngineFacts.

(** * Runs on the sample surroundings *)

Module SampleRuns.
Import Sample Engine EngineFacts.



Lemma printSession_effective_limits_witness :
  exists l,
    printSession_limits session_answer = Some l /\
    (true = true ->
     effective_up_limit l = tr_formatter_speed_KBps 10 /\
     effective_down_limit l = tr_formatter_speed_KBps 50) /\
    (true = false ->
     (true = true -> effective_up_limit l = tr_formatter_speed_KBps 100) /\
     (true = false -> effective_up_limit l = "Unlimited") /\
     (false = true -> effective_down_limit l = tr_formatter_speed_KBps 1000) /\
     (false = false -> effective_down_limit l = "Unlimited")).
Proof.
  exact (proj1 (printSession_effective_limits session_answer
                  true false true false false 10 50 540 1020 127 200 100 1000 200
                  eq_refl eq_refl eq_refl eq_refl eq_refl eq_refl eq_refl eq_refl
                  eq_refl eq_refl eq_refl eq_refl eq_refl eq_refl)).
Defined.

(** C4 as it is written fails on the code: an answer that holds both the
    normal and the alternate speed-limit settings, but not the seed ratio
    limit, is given no effective rate at all. *)
Lemma speed_settings_alone_counterexample :
  exists args : tr_variant Z,
    tr_variantDictFindBool args TR_KEY_alt_speed_enabled = Some true /\
    tr_variantDictFindInt args TR_KEY_alt_speed_up = Some 10 /\
    tr_variantDictFindInt args TR_KEY_alt_speed_down = Some 50 /\
    tr_variantDictFindInt args TR_KEY_speed_limit_up = Some 100 /\
    tr_variantDictFindBool args TR_KEY_speed_limit_up_enabled = Some true /\
    tr_variantDictFindInt args TR_KEY_speed_limit_down = Some 1000 /\
    tr_variantDictFindBool args TR_KEY_speed_limit_down_enabled = Some false /\
    printSession_limits args = None.
Proof. exists speed_settings_alone. repeat split; reflexivity. Qed.

Lemma sample_status_distinct :
  NoDup [TR_STATUS_STOPPED; TR_STATUS_CHECK_WAIT; TR_STATUS_CHECK;
         TR_STATUS_DOWNLOAD_WAIT; TR_STATUS_DOWNLOAD; TR_STATUS_SEED_WAIT;
         TR_STATUS_SEED].
Proof. apply (bool_decide_unpack _). exact I. Defined.


(** C6 fails on the code in the details view: for a torrent whose size is
    zero (a magnet link before its metadata arrives) the "Percent Done" line
    is printed from a division by zero, where the list view prints "n/a". *)
Theorem printDetails_percent_of_zero_size :
  let t : tr_variant Z :=
    VDict [(TR_KEY_id, VInt 1); (TR_KEY_name, VStr "magnet");
           (TR_KEY_eta, VInt (-1)); (TR_KEY_leftUntilDone, VInt 0);
           (TR_KEY_rateDownload, VInt 0); (TR_KEY_rateUpload, VInt 0);
           (TR_KEY_sizeWhenDone, VInt 0); (TR_KEY_status, VInt 4);
           (TR_KEY_uploadRatio, VReal (-100))] in
  printDetails_percent_done t = Some (Percent 0 0) /\
  (exists p, printDetails_percent_done t = Some p /\ percent_divisor p = 0) /\
  printTorrentList_doneStr t = Some DoneNA.
Proof.
  simpl. split; [reflexivity|]. split; [|reflexivity].
  exists (Percent 0 0). now split.
Qed.

Lemma bitfield_implies_verified_witness :
  BitField_test (bitfield (run checksum (create one_piece) download)) 0 = true /\
  exists stored,
    storage (run checksum (create one_piece) download) !! 0%nat = Some stored /\
    expectedHash one_piece 0 = Some (checksum stored).
Proof.
  split; [reflexivity|].
  apply (bitfield_implies_verified checksum one_piece download 0).
  reflexivity.
Defined.

Example decimal_negative : decimal (-1204) = "-1204".
Proof. reflexivity. Qed.

Example numarg_rejects_suffix : numarg "5x" = None /\ numarg " 50" = Some 50.
Proof. split; reflexivity. Qed.

(** A few runs of the argument helpers. *)
Example addTime_half_past_nine :
  addTime tr_variantInitDict TR_KEY_alt_speed_time_begin (Some "0930") =
  (VDict [(TR_KEY_alt_speed_time_begin, VInt 570)], []).
Proof. reflexivity. Qed.

Example addTime_midnight_24 :
  addTime tr_variantInitDict TR_KEY_alt_speed_time_begin (Some "2400") =
  (VDict [], [addTime_message]).
Proof. reflexivity. Qed.

Example addTime_five_characters :
  addTime tr_variantInitDict TR_KEY_alt_speed_time_begin (Some "09300") =
  (VDict [], [addTime_message]).
Proof. reflexivity. Qed.

(** [atoi] reads 0 where there is no digit. *)
Example addTime_letters :
  addTime tr_variantInitDict TR_KEY_alt_speed_time_begin (Some "ab12") =
  (VDict [(TR_KEY_alt_speed_time_begin, VInt 12)], []).
Proof. reflexivity. Qed.

Example addDays_weekdays_and_sunday :
  addDays tr_variantInitDict TR_KEY_alt_speed_time_day (Some "1-3,4,7") =
  (VDict [(TR_KEY_alt_speed_time_day, VInt 31)], []).
Proof. reflexivity. Qed.

Example addDays_out_of_range :
  addDays tr_variantInitDict TR_KEY_alt_speed_time_day (Some "8,9") =
  (VDict [], [addDays_message]).
Proof. reflexivity. Qed.

Example addIdArg_range :
  addIdArg tr_variantInitDict (Some "1,3-5") None =
  (VDict [(TR_KEY_ids, VList [VInt 1; VInt 3; VInt 4; VInt 5])], []).
Proof. reflexivity. Qed.

Example addIdArg_hash :
  addIdArg tr_variantInitDict (Some "abcdef0123") None =
  (VDict [(TR_KEY_ids, VStr "abcdef0123")], []).
Proof. reflexivity. Qed.

(** [-t 3 -r]: one torrent-remove request for torrent 3 that keeps the
    data. *)
Example remove_torrent_3 :
  exists st, processArgs [(OPT 116, Some "3"); (OPT 114, None)] = Continue st /\
    posted st =
      [VDict [(TR_KEY_method, VStr "torrent-remove");
              (TR_KEY_arguments,
               VDict [(TR_KEY_delete_local_data, VBool false);
                      (TR_KEY_ids, VInt 3)])]].
Proof. eexists. split; reflexivity. Qed.

(** [-t 3 --find /data -s]: the [break] of the find branch leaves the option
    loop, and the start option that follows is never read. *)
Example find_ends_the_loop :
  exists st,
    processArgs [(OPT 116, Some "3"); (OPT 961, Some "/data"); (OPT 115, None)]
      = Continue st /\
    posted st =
      [VDict [(TR_KEY_method, VStr "torrent-set-location");
              (TR_KEY_arguments,
               VDict [(TR_KEY_location, VStr "/data"); (TR_KEY_move, VBool false);
                      (TR_KEY_ids, VInt 3)])]].
Proof. eexists. split; reflexivity. Qed.

End SampleRuns.

(** * The rest of the front end *)

Import Display Startup OptionTable Views Loop Shown Carried.

(** Case analysis on an option value or a tag, along the numeric [case]
    labels of a switch: [fin] closes the goal wherever the switch has been
    decided. *)
Ltac labels p fin :=
  first [ solve [fin] | destruct p as [p|p|]; simpl; labels p fin ].

Ltac options c fin :=
  let val := fresh "val" in
  let p := fresh "p" in
  destruct c as [| |val]; simpl;
  [ solve [fin] | solve [fin]
  | destruct val as [|p|p]; simpl; [solve [fin] | labels p fin | solve [fin]] ].

(** * What the option loop keeps *)

Section LoopFacts.
Context `{Externals}.

Lemma round_final_round_of (o : outcome) :
  round_final (round_of o) = final_state o.
Proof. now destruct o. Qed.

Lemma is_request_names_method (method : string) (top : variant) :
  In method rpc_methods -> is_request method top -> names_method top.
Proof. intros I [M _]. now exists method. Qed.

Lemma names_method_request (method : string) (args : variant) :
  In method rpc_methods -> names_method (request method args).
Proof. intros I. exists method. split; [assumption|reflexivity]. Qed.

Lemma names_method_store_child (top args' : variant) :
  names_method top -> names_method (store_child top Arguments args').
Proof.
  intros (m & I & M). exists m. split; [assumption|].
  unfold method_of. now rewrite find_store_child_other.
Qed.

Lemma names_method_on_arguments (top : variant) (f : variant -> variant * list string) :
  names_method top -> names_method (fst (on_arguments top f)).
Proof.
  intros N. unfold on_arguments.
  destruct (tr_variantDictFind top Arguments) as [args|]; [|assumption].
  destruct (f args) as [args' msgs]. simpl. now apply names_method_store_child.
Qed.

Lemma kept_refl (st : state) :
  pending_ok st -> Forall names_method (posted st) -> answers_merged st ->
  kept st st.
Proof.
  intros P N A. repeat (split; [assumption|]). split; [reflexivity|].
  split; [reflexivity|]. apply Z.lor_diag.
Qed.

Lemma kept_initial : kept initial initial.
Proof.
  apply kept_refl.
  - apply pending_ok_initial.
  - constructor.
  - intros [|? ?] ? ? [=].
Qed.

(** A change of the variables that leaves alone what has left the process. *)
Lemma kept_same (st0 st st' : state) :
  pending_ok st' -> posted st' = posted st -> stderr st' = stderr st ->
  status st' = status st -> kept st0 st -> kept st0 st'.
Proof.
  intros P Ep Ee Es (_ & N & A & Pp & Pe & S).
  split; [assumption|]. unfold answers_merged. rewrite Ep, Ee, Es.
  now repeat split.
Qed.

Lemma kept_pending_ok (st0 st : state) : kept st0 st -> pending_ok st.
Proof. now intros (P & _). Qed.

Lemma kept_with_sset (st0 st : state) (top : variant) :
  is_request "session-set" top -> kept st0 st -> kept st0 (with_sset (Some top) st).
Proof.
  intros R K. apply (kept_same st0 st); [|reflexivity..|exact K].
  apply pending_ok_with_sset; [assumption|now apply kept_pending_ok in K].
Qed.

Lemma kept_with_tset (st0 st : state) (top : variant) :
  is_request "torrent-set" top -> kept st0 st -> kept st0 (with_tset (Some top) st).
Proof.
  intros R K. apply (kept_same st0 st); [|reflexivity..|exact K].
  apply pending_ok_with_tset; [assumption|now apply kept_pending_ok in K].
Qed.

Lemma kept_with_tadd (st0 st : state) (top : variant) :
  is_request "torrent-add" top -> kept st0 st -> kept st0 (with_tadd (Some top) st).
Proof.
  intros R K. apply (kept_same st0 st); [|reflexivity..|exact K].
  apply pending_ok_with_tadd; [assumption|now apply kept_pending_ok in K].
Qed.

Lemma kept_with_id (st0 st : state) (s : string) :
  kept st0 st -> kept st0 (with_id s st).
Proof.
  intros K. apply (kept_same st0 st); [|reflexivity..|exact K].
  apply pending_ok_with_id. now apply kept_pending_ok in K.
Qed.

Lemma kept_with_debug (st0 st : state) (b : bool) :
  kept st0 st -> kept st0 (with_debug b st).
Proof.
  intros K. apply (kept_same st0 st); [|reflexivity..|exact K].
  apply pending_ok_with_debug. now apply kept_pending_ok in K.
Qed.

Lemma kept_with_auth (st0 st : state) (a : option string) :
  kept st0 st -> kept st0 (with_auth a st).
Proof.
  intros K. apply (kept_same st0 st); [|reflexivity..|exact K].
  apply pending_ok_with_auth. now apply kept_pending_ok in K.
Qed.

Lemma kept_with_netrc (st0 st : state) (a : option string) :
  kept st0 st -> kept st0 (with_netrc a st).
Proof.
  intros K. apply (kept_same st0 st); [|reflexivity..|exact K].
  apply pending_ok_with_netrc. now apply kept_pending_ok in K.
Qed.

Lemma kept_with_UseSSL (st0 st : state) (b : bool) :
  kept st0 st -> kept st0 (with_UseSSL b st).
Proof.
  intros K. apply (kept_same st0 st); [|reflexivity..|exact K].
  apply pending_ok_with_UseSSL. now apply kept_pending_ok in K.
Qed.

Lemma lor_absorbs (a b c : Z) : Z.lor a c = a -> Z.lor (Z.lor a b) c = Z.lor a b.
Proof.
  intros E. rewrite <- Z.lor_assoc, (Z.lor_comm b c), Z.lor_assoc. now rewrite E.
Qed.

Lemma kept_log (st0 st : state) (lines : list string) :
  kept st0 st -> kept st0 (log lines st).
Proof.
  intros (P & N & A & Pp & Pe & S).
  split; [now apply pending_ok_log|]. repeat (split; [assumption|]).
  split; [|assumption]. simpl. now apply prefix_app_r.
Qed.

Lemma kept_or_status (st0 st : state) (bits : Z) :
  kept st0 st -> kept st0 (or_status bits st).
Proof.
  intros (P & N & A & Pp & Pe & S).
  split; [now apply pending_ok_or_status|]. split; [assumption|].
  split; [|split; [assumption|split; [assumption|]]].
  - intros before top after E. simpl. apply lor_absorbs. eapply A, E.
  - simpl. now apply lor_absorbs.
Qed.

Lemma app_snoc_split {A : Type} (l before after : list A) (x top : A) :
  l ++ [x] = before ++ top :: after ->
  (after = [] /\ before = l /\ top = x) \/
  (exists after', after = after' ++ [x] /\ l = before ++ top :: after').
Proof.
  destruct after as [|a after] using rev_ind.
  - intros E. apply app_inj_tail in E as [-> ->]. now left.
  - clear IHafter. intros E.
    rewrite app_comm_cons, app_assoc in E.
    apply app_inj_tail in E as [-> ->]. right. now exists after.
Qed.

Lemma kept_flush (st0 st : state) (top : variant) :
  names_method top -> kept st0 st -> kept st0 (flush top st).
Proof.
  intros M (P & N & A & Pp & Pe & S).
  split; [now apply pending_ok_flush|].
  split; [|split; [|split; [|split; [assumption|]]]]; simpl.
  - apply Forall_app. split; [assumption|]. now constructor.
  - intros before top' after E. simpl in *.
    apply app_snoc_split in E as [(-> & -> & ->)|(after' & -> & E)].
    + now rewrite <- Z.lor_assoc, Z.lor_diag.
    + apply lor_absorbs. eapply A, E.
  - now apply prefix_app_r.
  - now apply lor_absorbs.
Qed.

Lemma kept_flush_sset (st0 st : state) : kept st0 st -> kept st0 (flush_sset st).
Proof.
  intros K. unfold flush_sset. destruct (sset st) as [top|] eqn:E; [|assumption].
  assert (R : is_request "session-set" top) by now apply (kept_pending_ok _ _ K).
  apply (kept_same st0 (flush top st));
    [|reflexivity..|apply kept_flush;
                    [eapply is_request_names_method, R; simpl; tauto|exact K]].
  apply kept_pending_ok in K as (S & T & A).
  split; [|split]; try assumption; intros ? [=].
Qed.

Lemma kept_flush_tadd (st0 st : state) : kept st0 st -> kept st0 (flush_tadd st).
Proof.
  intros K. unfold flush_tadd. destruct (tadd st) as [top|] eqn:E; [|assumption].
  assert (R : is_request "torrent-add" top) by now apply (kept_pending_ok _ _ K).
  apply (kept_same st0 (flush top st));
    [|reflexivity..|apply kept_flush;
                    [eapply is_request_names_method, R; simpl; tauto|exact K]].
  apply kept_pending_ok in K as (S & T & A).
  split; [|split]; try assumption; intros ? [=].
Qed.

Lemma kept_flush_tset (st0 st : state) : kept st0 st -> kept st0 (flush_tset st).
Proof.
  intros K. unfold flush_tset. destruct (tset st) as [top|] eqn:E; [|assumption].
  assert (R : is_request "torrent-set" top) by now apply (kept_pending_ok _ _ K).
  pose proof (names_method_on_arguments top
                (fun args => addIdArg args (Some (id st)) None)
                (is_request_names_method "torrent-set" _ ltac:(simpl; tauto) R)) as M.
  destruct (on_arguments top _) as [top' msgs]. simpl in M.
  apply (kept_same st0 (flush top' (log msgs st)));
    [|reflexivity..|apply kept_flush; [exact M|apply kept_log, K]].
  apply kept_pending_ok in K as (S & T & A).
  split; [|split]; try assumption; intros ? [=].
Qed.

Lemma kept_post_for_ids (st0 st : state) (method : string) :
  In method rpc_methods -> kept st0 st -> kept st0 (post_for_ids method st).
Proof.
  intros I K. unfold post_for_ids. destruct (addIdArg _ _ _) as [args msgs].
  apply kept_flush; [now apply names_method_request|now apply kept_log].
Qed.

Lemma kept_post_plain (st0 st : state) (method : string) (tag : option Z) :
  In method rpc_methods -> kept st0 st -> kept st0 (post_plain method tag st).
Proof.
  intros I K. unfold post_plain. apply kept_flush; [|assumption].
  exists method. split; [assumption|]. now destruct tag.
Qed.

Lemma kept_torrent_get (st0 st : state) (tag : Z) (fields : list variant)
    (fallback : option string) :
  kept st0 st -> kept st0 (torrent_get tag fields fallback st).
Proof.
  intros K. unfold torrent_get. destruct (addIdArg _ _ _) as [args msgs].
  apply kept_flush; [|now apply kept_log].
  exists "torrent-get". split; [simpl; tauto|reflexivity].
Qed.

Lemma kept_edit_pending (method : string) (top : variant) (e : variant -> edit)
    (store : option variant -> state -> state) (st0 st : state) :
  (forall v st1, is_request method v -> kept st0 st1 -> kept st0 (store (Some v) st1)) ->
  is_request method top -> kept st0 st ->
  kept st0 (final_state (edit_pending top e store st)).
Proof.
  intros Store R K. unfold edit_pending.
  destruct (tr_variantDictFind top Arguments) as [args|]; [|now apply Store].
  destruct (e args) as [args' msgs|msgs|]; simpl.
  - apply Store; [now apply store_child_is_request|now apply kept_log].
  - apply Store; [assumption|now apply kept_log].
  - now apply Store.
Qed.

Lemma kept_edit_sset (e : variant -> edit) (st0 st : state) :
  kept st0 st ->
  kept st0 (final_state (edit_pending (ensure_sset (sset st)) e with_sset st)).
Proof.
  intros K. apply (kept_edit_pending "session-set"); [| |assumption].
  - intros v st1 R K1. now apply kept_with_sset.
  - apply ensure_sset_is_request. now apply kept_pending_ok in K.
Qed.

Lemma kept_edit_tset (e : variant -> edit) (st0 st : state) :
  kept st0 st ->
  kept st0 (final_state (edit_pending (ensure_tset (tset st)) e with_tset st)).
Proof.
  intros K. apply (kept_edit_pending "torrent-set"); [| |assumption].
  - intros v st1 R K1. now apply kept_with_tset.
  - apply ensure_tset_is_request. now apply kept_pending_ok in K.
Qed.

Lemma kept_edit_tadd (top : variant) (e : variant -> edit) (st0 st : state) :
  kept st0 st -> tadd st = Some top ->
  kept st0 (final_state (edit_pending top e with_tadd st)).
Proof.
  intros K T. apply (kept_edit_pending "torrent-add"); [| |assumption].
  - intros v st1 R K1. now apply kept_with_tadd.
  - apply kept_pending_ok in K as (_ & _ & A). now apply A.
Qed.

Create HintDb kept.

#[local] Hint Resolve kept_with_tadd kept_with_id kept_with_debug kept_with_auth
  kept_with_netrc kept_with_UseSSL kept_log kept_or_status kept_flush
  kept_flush_sset kept_flush_tadd kept_flush_tset kept_post_for_ids
  kept_post_plain kept_torrent_get kept_edit_sset kept_edit_tset
  names_method_request new_tadd_is_request : kept.

#[local] Hint Extern 1 (In _ rpc_methods) => simpl; tauto : kept.

Ltac kept_fin :=
  repeat match goal with
         | |- context [match tadd ?st with _ => _ end] =>
             let T := fresh "T" in destruct (tadd st) eqn:T
         | |- context [match env_TR_AUTH with _ => _ end] => destruct env_TR_AUTH
         | |- context [addIdArg ?a ?i ?f] => destruct (addIdArg a i f)
         end;
  simpl;
  first
    [ eapply kept_edit_tadd; eassumption
    | rewrite round_final_round_of; eapply kept_edit_tadd; eassumption
    | rewrite round_final_round_of; eauto 10 with kept
    | eauto 10 with kept ].

Lemma kept_meta_command (c : getopt_val) (optarg : option string) (st0 st : state) :
  kept st0 st -> kept st0 (final_state (meta_command c optarg st)).
Proof. intros K. unfold meta_command. options c kept_fin. Qed.

Lemma kept_direct_command (c : getopt_val) (optarg : option string) (st0 st : state) :
  kept st0 st -> kept st0 (final_state (direct_command c optarg st)).
Proof. intros K. unfold direct_command. options c kept_fin. Qed.

#[local] Arguments direct_command : simpl never.
#[local] Arguments meta_command : simpl never.

#[local] Hint Resolve kept_meta_command kept_direct_command : kept.

Lemma kept_processArg (c : getopt_val) (optarg : option string) (st0 st : state) :
  kept st0 st -> kept st0 (round_final (processArg c optarg st)).
Proof.
  intros K. unfold processArg.
  destruct (getOptMode c) as [stepMode|]; [|assumption].
  destruct (stepMode =? 0); [kept_fin|].
  destruct (stepMode =? MODE_TORRENT_GET).
  { apply kept_flush_tset in K. revert K.
    generalize (flush_tset st) as st1. intros st1 K.
    options c kept_fin. }
  destruct (stepMode =? MODE_SESSION_SET); [kept_fin|].
  destruct (stepMode =? Z.lor MODE_SESSION_SET MODE_TORRENT_SET).
  { destruct (negb _); kept_fin. }
  destruct (stepMode =? MODE_TORRENT_SET); [kept_fin|].
  destruct (stepMode =? Z.lor MODE_TORRENT_SET MODE_TORRENT_ADD); [kept_fin|].
  options c kept_fin.
Qed.

Lemma kept_option_loop (argv : list (getopt_val * option string)) (st0 st : state) :
  kept st0 st -> kept st0 (round_final (option_loop argv st)).
Proof.
  revert st. induction argv as [|[c optarg] rest IH]; intros st K; [assumption|].
  simpl. pose proof (kept_processArg c optarg st0 st K) as K'.
  destruct (processArg c optarg st) as [st'|st'|o]; [now apply IH|assumption..].
Qed.

Lemma kept_finish (st0 st : state) : kept st0 st -> kept st0 (finish st).
Proof. intros K. unfold finish. eauto with kept. Qed.

Lemma kept_processArgs (argv : list (getopt_val * option string)) :
  kept initial (final_state (processArgs argv)).
Proof.
  unfold processArgs.
  pose proof (kept_option_loop argv initial initial kept_initial) as K.
  destruct (option_loop argv initial) as [st|st|o]; simpl in *;
    [now apply kept_finish..|assumption].
Qed.

(** ** What a command line can and cannot do *)

Lemma kept_restart (st0 st : state) : kept st0 st -> kept st st.
Proof. intros (P & N & A & _). now apply kept_refl. Qed.

Lemma option_loop_app (before rest : list (getopt_val * option string)) (st : state) :
  option_loop (before ++ rest) st =
  match option_loop before st with
  | Next st' => option_loop rest st'
  | r => r
  end.
Proof.
  revert st. induction before as [|[c a] before IH]; intros st; simpl; [reflexivity|].
  destruct (processArg c a st); [apply IH|reflexivity..].
Qed.

(** X1. Whatever the command line, and however the run ends, every request
    handed to the daemon names one of the fifteen RPC methods the program
    knows. *)
Theorem processArgs_posts_known_methods (argv : list (getopt_val * option string)) :
  Forall names_method (posted (final_state (processArgs argv))).
Proof.
  pose proof (kept_processArgs argv) as K. unfold kept in K.
  destruct K as (_ & N & _). exact N.
Qed.

(** X2. Every exit bit of every answer is in the value [processArgs]
    returns: when [processArgs] returns, the status of the [flush] of each
    request it posted is contained in its return value, so that it returns
    [EXIT_SUCCESS] only if the answer to every request it posted was processed
    with status [EXIT_SUCCESS]. *)
Theorem processArgs_returns_the_bits_of_every_answer
    (argv : list (getopt_val * option string)) (st : state)
    (before after : list variant) (top : variant) :
  processArgs argv = Continue st ->
  posted st = before ++ top :: after ->
  Z.lor (status st) (reply_status (daemon before top)) = status st /\
  (status st = EXIT_SUCCESS -> reply_status (daemon before top) = EXIT_SUCCESS).
Proof.
  intros R E. pose proof (kept_processArgs argv) as K. rewrite R in K.
  destruct K as (_ & _ & A & _). specialize (A before top after E).
  split; [exact A|]. intros S. simpl in A. rewrite S in A.
  unfold EXIT_SUCCESS in *. now apply Z.lor_eq_0_iff in A.
Qed.

Lemma status_bit_kept (st0 st : state) :
  kept st0 st -> Z.land (status st0) EXIT_FAILURE = EXIT_FAILURE ->
  Z.land (status st) EXIT_FAILURE = EXIT_FAILURE.
Proof.
  intros (_ & _ & _ & _ & _ & S) B. rewrite <- S.
  rewrite Z.land_lor_distr_l, B. unfold EXIT_FAILURE.
  apply Z.bits_inj'. intros n Hn.
  rewrite Z.lor_spec, Z.land_spec.
  destruct (Z.testbit 1 n); [now rewrite andb_true_r, orb_true_r|now rewrite andb_false_r].
Qed.

Lemma or_status_bit (st : state) :
  Z.land (status (or_status EXIT_FAILURE st)) EXIT_FAILURE = EXIT_FAILURE.
Proof.
  simpl. rewrite Z.land_lor_distr_l. unfold EXIT_FAILURE.
  apply Z.bits_inj'. intros n Hn.
  rewrite Z.lor_spec, !Z.land_spec.
  destruct (Z.testbit 1 n); [now rewrite orb_true_r|now rewrite andb_false_r].
Qed.

Lemma failure_bit_stays (before rest : list (getopt_val * option string))
    (c : getopt_val) (optarg : option string) (st : state) :
  state_after before = Some st ->
  c = TR_OPT_ERR \/ (c = TR_OPT_UNK /\ tadd st = None) ->
  Z.land (status (final_state (processArgs (before ++ (c, optarg) :: rest))))
    EXIT_FAILURE = EXIT_FAILURE.
Proof.
  unfold state_after, processArgs. intros B C.
  rewrite option_loop_app.
  pose proof (kept_option_loop before initial initial kept_initial) as K0.
  destruct (option_loop before initial) as [st0| |]; try discriminate.
  injection B as ->. simpl in K0.
  assert (E : exists msg, processArg c optarg st =
                          Next (or_status EXIT_FAILURE (log [msg] st))).
  { destruct C as [->|[-> T]]; unfold processArg, meta_command; simpl; [now eexists|].
    rewrite T. now eexists. }
  destruct E as [msg E]. simpl. rewrite E.
  set (st1 := or_status _ _) in *.
  assert (K1 : kept st1 st1).
  { apply (kept_restart initial). now apply kept_or_status, kept_log. }
  pose proof (kept_option_loop rest st1 st1 K1) as K2.
  assert (B1 : Z.land (status st1) EXIT_FAILURE = EXIT_FAILURE) by apply or_status_bit.
  destruct (option_loop rest st1) as [st2|st2|o]; simpl in *.
  - eapply status_bit_kept; [apply kept_finish, K2|assumption].
  - eapply status_bit_kept; [apply kept_finish, K2|assumption].
  - eapply status_bit_kept; eassumption.
Qed.

(** X3. An option [tr_getopt] rejects, or an argument that is no option while
    no add is pending, sets the failure bit of [status] for good: whatever
    follows on the command line, when [processArgs] returns, the value it
    returns has that bit. (A later option that leaves through [exit], such as
    the version option with its [exit(0)], ends the run with its own code.) *)
Theorem invalid_option_sets_the_returned_failure_bit
    (before rest : list (getopt_val * option string)) (c : getopt_val)
    (optarg : option string) (st st' : state) :
  state_after before = Some st ->
  c = TR_OPT_ERR \/ (c = TR_OPT_UNK /\ tadd st = None) ->
  processArgs (before ++ (c, optarg) :: rest) = Continue st' ->
  Z.land (status st') EXIT_FAILURE = EXIT_FAILURE.
Proof.
  intros B C R. pose proof (failure_bit_stays before rest c optarg st B C) as F.
  now rewrite R in F.
Qed.

Lemma nothing_pending_finish (st : state) : nothing_pending (finish st).
Proof.
  unfold finish, flush_sset, flush_tset, flush_tadd, nothing_pending.
  destruct (tadd st) as [a|] eqn:A; simpl;
    destruct (tset st) as [t|] eqn:T; simpl; rewrite ?T;
    try destruct (on_arguments t _) as [t' m]; simpl;
    destruct (sset st) as [s|] eqn:S; simpl; rewrite ?S, ?A, ?T; simpl; auto.
Qed.

Lemma round_of_never_stops_to_continue (o : outcome) (st : state) :
  round_of o <> Stop (Continue st).
Proof. destruct o; discriminate. Qed.

Ltac stop_fin :=
  repeat match goal with
         | |- context [match tadd ?st with _ => _ end] => destruct (tadd st)
         | |- context [addIdArg ?a ?i ?f] => destruct (addIdArg a i f)
         end;
  first [ discriminate | apply round_of_never_stops_to_continue ].

Lemma processArg_never_stops_to_continue (c : getopt_val) (optarg : option string)
    (st st' : state) :
  processArg c optarg st <> Stop (Continue st').
Proof.
  unfold processArg.
  destruct (getOptMode c) as [stepMode|]; [|discriminate].
  destruct (stepMode =? 0); [stop_fin|].
  destruct (stepMode =? MODE_TORRENT_GET).
  { generalize (flush_tset st) as st1. intros st1. options c stop_fin. }
  destruct (stepMode =? MODE_SESSION_SET); [stop_fin|].
  destruct (stepMode =? Z.lor MODE_SESSION_SET MODE_TORRENT_SET).
  { destruct (negb _); stop_fin. }
  destruct (stepMode =? MODE_TORRENT_SET); [stop_fin|].
  destruct (stepMode =? Z.lor MODE_TORRENT_SET MODE_TORRENT_ADD); [stop_fin|].
  options c stop_fin.
Qed.

Lemma option_loop_never_stops_to_continue
    (argv : list (getopt_val * option string)) (st st' : state) :
  option_loop argv st <> Stop (Continue st').
Proof.
  revert st. induction argv as [|[c a] rest IH]; intros st; simpl; [discriminate|].
  pose proof (processArg_never_stops_to_continue c a st st') as N.
  destruct (processArg c a st) as [st1|st1|o]; [apply IH|discriminate|assumption].
Qed.


(** An exit in the middle of a round of editing. *)
Lemma edit_pending_Exit (top : variant) (e : variant -> edit)
    (store : option variant -> state -> state) (st st' : state) (code : Z) :
  edit_pending top e store st = Exit code st' ->
  exists msgs, code = EXIT_FAILURE /\ st' = store (Some top) (log msgs st).
Proof.
  unfold edit_pending.
  destruct (tr_variantDictFind top Arguments) as [args|]; [|discriminate].
  destruct (e args) as [args' msgs|msgs|]; try discriminate.
  intros [= <- <-]. now exists msgs.
Qed.

Lemma round_of_Exit (o : outcome) (code : Z) (st' : state) :
  round_of o = Stop (Exit code st') -> o = Exit code st'.
Proof. destruct o; simpl; congruence. Qed.

Lemma left_unsent_edit (top : variant) (e : variant -> edit)
    (store : option variant -> state -> state) (st st' : state) (code : Z) :
  (forall v st1, left_unsent st1 (store (Some v) st1)) ->
  edit_pending top e store st = Exit code st' -> left_unsent st st'.
Proof.
  intros Store E. apply edit_pending_Exit in E as (msgs & _ & ->).
  destruct (Store top (log msgs st)) as (P & S & T & A). now repeat split.
Qed.

Lemma left_unsent_with_sset (v : variant) (st : state) :
  left_unsent st (with_sset (Some v) st).
Proof. repeat split; auto. Qed.

Lemma left_unsent_with_tset (v : variant) (st : state) :
  left_unsent st (with_tset (Some v) st).
Proof. repeat split; auto. Qed.

Lemma left_unsent_with_tadd (v : variant) (st : state) :
  left_unsent st (with_tadd (Some v) st).
Proof. repeat split; auto. Qed.

Ltac exit_fin :=
  let E := fresh "E" in
  intros E; simpl in E;
  repeat match type of E with
         | context [match tadd ?st with _ => _ end] =>
             let T := fresh "T" in destruct (tadd st) eqn:T
         | context [match env_TR_AUTH with _ => _ end] => destruct env_TR_AUTH
         | context [addIdArg ?a ?i ?f] => destruct (addIdArg a i f)
         end;
  simpl in E;
  first
    [ discriminate E
    | injection E as <- <-; repeat split; auto
    | eapply left_unsent_edit, E; first
        [ apply left_unsent_with_sset | apply left_unsent_with_tset
        | apply left_unsent_with_tadd ]
    | apply round_of_Exit in E;
      first
        [ eapply left_unsent_edit, E; first
            [ apply left_unsent_with_sset | apply left_unsent_with_tset
            | apply left_unsent_with_tadd ]
        | discriminate E
        | injection E as <- <-; repeat split; auto ] ].

Lemma meta_command_Exit (c : getopt_val) (optarg : option string)
    (st st' : state) (code : Z) :
  meta_command c optarg st = Exit code st' -> left_unsent st st'.
Proof. unfold meta_command. options c exit_fin. Qed.

Lemma direct_command_Exit (c : getopt_val) (optarg : option string)
    (st st' : state) (code : Z) :
  direct_command c optarg st = Exit code st' -> left_unsent st st'.
Proof. unfold direct_command. options c exit_fin. Qed.

Ltac exit_round_fin :=
  first
    [ exit_fin
    | let E := fresh "E" in
      intros E; apply round_of_Exit in E;
      first [ eapply meta_command_Exit, E | eapply direct_command_Exit, E ] ].

(** X5. A round that leaves through [exit] -- the version option, a missing
    TR_AUTH, a malformed number -- posts nothing: the requests that were
    pending stay pending and are never sent. *)
Theorem exit_leaves_pending_requests_unsent (c : getopt_val)
    (optarg : option string) (st st' : state) (code : Z) :
  processArg c optarg st = Stop (Exit code st') ->
  posted st' = posted st /\
  (is_Some (sset st) -> is_Some (sset st')) /\
  (is_Some (tset st) -> is_Some (tset st')) /\
  (is_Some (tadd st) -> is_Some (tadd st')).
Proof.
  change (processArg c optarg st = Stop (Exit code st') -> left_unsent st st').
  unfold processArg.
  destruct (getOptMode c) as [stepMode|]; [|discriminate].
  destruct (stepMode =? 0); [exit_round_fin|].
  destruct (stepMode =? MODE_TORRENT_GET).
  { generalize (flush_tset st) as st1. intros st1. options c ltac:(discriminate). }
  destruct (stepMode =? MODE_SESSION_SET); [exit_round_fin|].
  destruct (stepMode =? Z.lor MODE_SESSION_SET MODE_TORRENT_SET).
  { destruct (negb _); exit_round_fin. }
  destruct (stepMode =? MODE_TORRENT_SET); [exit_round_fin|].
  destruct (stepMode =? Z.lor MODE_TORRENT_SET MODE_TORRENT_ADD); [exit_round_fin|].
  options c exit_round_fin.
Qed.

(** ** The assertions of the option loop *)

Lemma edit_pending_no_abort (method : string) (top : variant) (e : variant -> edit)
    (store : option variant -> state -> state) (st st' : state) :
  is_request method top -> (forall args, e args <> Unhandled) ->
  round_of (edit_pending top e store st) <> Stop (Abort st').
Proof.
  intros [_ [args A]] Handled. unfold edit_pending. rewrite A.
  specialize (Handled args). destruct (e args); [discriminate..|contradiction].
Qed.

Ltac handled :=
  let args := fresh "args" in
  intros args; simpl; unfold edited, told, add_numarg;
  repeat case_match; discriminate.

Ltac no_abort_fin P :=
  unfold meta_command, direct_command; simpl;
  repeat match goal with
         | |- context [match tadd ?st with _ => _ end] =>
             let T := fresh "T" in destruct (tadd st) eqn:T
         | |- context [match env_TR_AUTH with _ => _ end] => destruct env_TR_AUTH
         | |- context [addIdArg ?a ?i ?f] => destruct (addIdArg a i f)
         | |- (if negb ?b then _ else _) <> _ => destruct b; simpl
         end;
  simpl;
  first
    [ discriminate
    | eapply (edit_pending_no_abort "session-set");
      [apply ensure_sset_is_request, P|handled]
    | eapply (edit_pending_no_abort "torrent-set");
      [apply ensure_tset_is_request, P|handled]
    | eapply (edit_pending_no_abort "torrent-add");
      [apply P; eassumption|handled] ].

(** X6. The assertions of the loop never fail on what the table of options
    yields: for every entry of [Options], [getOptMode] knows the option and
    the [switch] of its mode has a [case] for it. *)
Theorem processArg_never_aborts_on_table_options (c : getopt_val)
    (optarg : option string) (st st' : state) :
  from_getopt c -> pending_ok st ->
  processArg c optarg st <> Stop (Abort st').
Proof.
  intros F P. destruct c as [| |v].
  - unfold processArg. no_abort_fin P.
  - unfold processArg. no_abort_fin P.
  - destruct F as (o & I & <-). unfold Options in I. simpl in I.
    repeat (destruct I as [<-|I]; [unfold processArg; simpl; no_abort_fin P|]).
    contradiction.
Qed.

(** X7. An option declared without an argument never reads [optarg]: the
    round does the same whatever [optarg] holds. *)
Theorem options_without_argument_ignore_optarg (o : tr_option)
    (optarg optarg' : option string) (st : state) :
  In o Options -> has_arg o = false ->
  processArg (OPT (val o)) optarg st = processArg (OPT (val o)) optarg' st.
Proof.
  intros I. unfold Options in I. simpl in I.
  repeat (destruct I as [<-|I];
          [simpl; first [discriminate | intros _; reflexivity]|]).
  contradiction.
Qed.

(** ** Batches of settings, and the option that ends the loop *)

Lemma session_set_round (c : getopt_val) (optarg : option string) (st : state) :
  getOptMode c = Some MODE_SESSION_SET ->
  processArg c optarg st =
  round_of (edit_pending (ensure_sset (sset st)) (session_set_edit c optarg)
              with_sset st).
Proof. intros M. unfold processArg. now rewrite M. Qed.

Lemma session_set_loop (argv : list (getopt_val * option string)) (st0 : state) :
  Forall (fun ca => getOptMode ca.1 = Some MODE_SESSION_SET) argv ->
  pending_ok st0 ->
  match option_loop argv st0 with
  | Next st1 =>
      tset st1 = tset st0 /\ tadd st1 = tadd st0 /\ posted st1 = posted st0 /\
      pending_ok st1 /\ (argv <> [] \/ is_Some (sset st0) -> is_Some (sset st1))
  | Break _ => False
  | Stop _ => True
  end.
Proof.
  revert st0. induction argv as [|[c a] rest IH]; intros st0 F P; simpl.
  { split; [reflexivity|split; [reflexivity|split; [reflexivity|split; [assumption|]]]].
    now intros [?|?]. }
  inversion F as [|? ? Fc Frest]; subst. simpl in Fc.
  rewrite (session_set_round c a st0 Fc).
  destruct (edit_pending _ _ _ _) as [st1|code st1|st1] eqn:E; simpl; [|exact I..].
  pose proof (edit_sset_ok _ _ _ P E) as P1.
  apply edit_pending_Continue in E as (args & args' & msgs & _ & _ & ->).
  specialize (IH _ Frest P1).
  destruct (option_loop rest _) as [st2| |]; [|assumption..].
  destruct IH as (T & A & Po & P2 & S).
  split; [assumption|split; [assumption|split; [assumption|split; [assumption|]]]].
  intros _. apply S. right. now eexists.
Qed.

(** A round of the session-set branch leaves its settings in the pending
    session-set request. *)
Lemma session_set_step (c : getopt_val) (optarg : option string) (st st' : state) :
  getOptMode c = Some MODE_SESSION_SET -> pending_dicts st ->
  processArg c optarg st = Next st' ->
  exists top, sset st' = Some top /\
    edited_with (sset st) top (session_settings c optarg).
Proof.
  intros M Pd R. rewrite (session_set_round c optarg st M) in R.
  assert (edit_pending (ensure_sset (sset st)) (session_set_edit c optarg) with_sset st
          = Continue st') as E.
  { destruct (edit_pending _ _ _ _); simpl in R; congruence. }
  destruct (edit_pending_carries _ _ _ _ _ (session_settings c optarg)
              (ensure_sset_dict st Pd) (session_set_edit_extends c optarg) E)
    as (args' & msgs & -> & New & Old).
  eexists. split; [reflexivity|]. split; [exact New|].
  intros top0 key v S C N. apply Old; [|exact N].
  unfold ensure_sset. now rewrite S.
Qed.

(** A setting of the pending session-set request stays in it as long as no
    option stores under its key. *)
Lemma session_set_loop_keeps (argv : list (getopt_val * option string))
    (st0 st1 : state) (top0 : variant) (key : tr_quark) (v : variant) :
  Forall (fun ca => getOptMode ca.1 = Some MODE_SESSION_SET) argv ->
  pending_dicts st0 -> option_loop argv st0 = Next st1 ->
  sset st0 = Some top0 -> carries top0 key v ->
  Forall (fun ca => ~ In key (map fst (session_settings ca.1 ca.2))) argv ->
  exists top1, sset st1 = Some top1 /\ carries top1 key v.
Proof.
  revert st0 top0. induction argv as [|[c a] rest IH]; intros st0 top0 F Pd L S C N.
  { simpl in L. injection L as <-. now exists top0. }
  inversion F as [|? ? Fc Frest]; subst. inversion N as [|? ? Nc Nrest]; subst.
  simpl in Fc, Nc, L.
  destruct (processArg c a st0) as [st'| |] eqn:R; try discriminate.
  destruct (session_set_step c a st0 st' Fc Pd R) as (top' & S' & _ & Old).
  apply (IH st' top'); try assumption.
  - apply (processArg_dicts c a st0); [assumption|now rewrite R].
  - now apply (Old top0).
Qed.

Lemma session_set_loop_carries (before after : list (getopt_val * option string))
    (c : getopt_val) (optarg : option string) (st0 st1 : state)
    (key : tr_quark) (v : variant) :
  Forall (fun ca => getOptMode ca.1 = Some MODE_SESSION_SET)
    (before ++ (c, optarg) :: after) ->
  pending_dicts st0 ->
  option_loop (before ++ (c, optarg) :: after) st0 = Next st1 ->
  In (key, v) (session_settings c optarg) ->
  Forall (fun ca => ~ In key (map fst (session_settings ca.1 ca.2))) after ->
  exists top1, sset st1 = Some top1 /\ carries top1 key v.
Proof.
  intros F Pd L I N. rewrite option_loop_app in L.
  apply Forall_app in F as [_ F]. inversion F as [|? ? Fc Fafter]; subst.
  simpl in Fc.
  destruct (option_loop before st0) as [stb| |] eqn:B; try discriminate.
  assert (pending_dicts stb) as Pb.
  { apply (option_loop_dicts before st0); [assumption|now rewrite B]. }
  simpl in L. destruct (processArg c optarg stb) as [stc| |] eqn:R; try discriminate.
  destruct (session_set_step c optarg stb stc Fc Pb R) as (top' & S' & New & _).
  apply (session_set_loop_keeps after stc st1 top'); try assumption.
  - apply (processArg_dicts c optarg stb); [assumption|now rewrite R].
  - now apply New.
Qed.

(** X8. A command line made of session settings only, however many, sends
    them in one request: if [processArgs] returns, it has posted exactly one
    request, for session-set, and that request carries the setting of every
    option of the command line, unless a later option has stored under the
    same key. *)
Theorem session_settings_travel_in_one_request
    (argv : list (getopt_val * option string)) (st : state) :
  argv <> [] ->
  Forall (fun ca => getOptMode ca.1 = Some MODE_SESSION_SET) argv ->
  processArgs argv = Continue st ->
  exists top,
    posted st = [top] /\ is_request "session-set" top /\
    forall before c optarg after key v,
      argv = before ++ (c, optarg) :: after ->
      In (key, v) (session_settings c optarg) ->
      Forall (fun ca => ~ In key (map fst (session_settings ca.1 ca.2))) after ->
      carries top key v.
Proof.
  intros N F. unfold processArgs.
  pose proof (session_set_loop argv initial F pending_ok_initial) as L.
  pose proof (option_loop_never_stops_to_continue argv initial st) as NS.
  destruct (option_loop argv initial) as [st1| |o] eqn:Loop; [|contradiction|congruence].
  destruct L as (T & A & Po & P & S). simpl in T, A, Po.
  destruct S as [top S]; [now left|].
  intros [= <-]. exists top. unfold finish, flush_tadd, flush_tset. rewrite A. simpl.
  rewrite T. unfold flush_sset. rewrite S. simpl. rewrite Po.
  split; [reflexivity|]. split.
  - destruct P as (Ps & _). now apply Ps.
  - intros before c optarg after key v -> I Later.
    destruct (session_set_loop_carries before after c optarg initial st1 key v
                F pending_dicts_initial Loop I Later) as (top1 & S1 & C).
    rewrite S in S1. now injection S1 as <-.
Qed.

(** X9. The find option given while no add is pending posts its request and
    leaves the loop: every option that follows it on the command line is
    ignored. *)
Theorem find_without_add_ends_the_loop
    (before rest : list (getopt_val * option string)) (optarg : option string)
    (st : state) :
  state_after before = Some st -> tadd st = None ->
  processArgs (before ++ (OPT 961, optarg) :: rest) =
  processArgs (before ++ [(OPT 961, optarg)]).
Proof.
  unfold state_after, processArgs. intros B T.
  rewrite !option_loop_app.
  destruct (option_loop before initial) as [st0| |]; try discriminate.
  injection B as ->. simpl. unfold processArg. simpl. rewrite T.
  now destruct (addIdArg _ _ _).
Qed.

#[local] Arguments existsb : simpl never.

Ltac table_fin :=
  first [ intros _; reflexivity | intros [? [=]] ].

Lemma getOptMode_of_table_value (v : Z) :
  is_Some (getOptMode (OPT v)) <-> exists o, In o Options /\ val o = v.
Proof.
  split.
  - intros S.
    assert (E : existsb (fun o => val o =? v) Options = true).
    { revert S. destruct v as [|p|p]; simpl;
        [table_fin | labels p table_fin | table_fin]. }
    apply existsb_exists in E as (o & I & E). exists o. split; [assumption|lia].
  - intros (o & I & <-). unfold Options in I. simpl in I.
    repeat (destruct I as [<-|I]; [now eexists|]). contradiction.
Qed.

(** X10. [getOptMode] knows exactly what [tr_getopt] can return before the
    end of the options: it returns a mode (zero) for [TR_OPT_ERR] and for
    [TR_OPT_UNK], a mode for the value of every entry of the table of options,
    and falls to its failing [default] branch for every other value. *)
Theorem getOptMode_knows_the_table (c : getopt_val) :
  (is_Some (getOptMode c) <-> from_getopt c) /\
  getOptMode TR_OPT_ERR = Some 0 /\ getOptMode TR_OPT_UNK = Some 0.
Proof.
  split; [|now split].
  destruct c as [| |v].
  - split; [now intros _|now eexists].
  - split; [now intros _|now eexists].
  - apply getOptMode_of_table_value.
Qed.

End LoopFacts.

(** * Numbers written and read back *)

Section Numbers.

Lemma digit_char (d : N) :
  (d < 10)%N ->
  isdigit (ascii_of_N (48 + d)) = true /\
  digit_value (ascii_of_N (48 + d)) = Z.of_N d /\
  isspace (ascii_of_N (48 + d)) = false /\
  (char_code (ascii_of_N (48 + d)) =? 0) = false /\
  (char_code (ascii_of_N (48 + d)) =? 45) = false /\
  (char_code (ascii_of_N (48 + d)) =? 43) = false.
Proof.
  intros L.
  assert (C : (d = 0 \/ d = 1 \/ d = 2 \/ d = 3 \/ d = 4 \/ d = 5 \/ d = 6 \/
               d = 7 \/ d = 8 \/ d = 9)%N) by lia.
  repeat (destruct C as [->|C]; [now vm_compute|]). subst. now vm_compute.
Qed.

Lemma append_cons (c : ascii) (a b : string) :
  String c a +:+ b = String c (a +:+ b).
Proof. reflexivity. Qed.

Lemma append_nil (b : string) : EmptyString +:+ b = b.
Proof. reflexivity. Qed.

Lemma string_app_assoc (a b c : string) : (a +:+ b) +:+ c = a +:+ (b +:+ c).
Proof.
  induction a as [|x a IH]; [reflexivity|]. rewrite !append_cons. now f_equal.
Qed.

Lemma decimal_digits_S (fuel : nat) (n : N) (acc : string) :
  decimal_digits (S fuel) n acc =
  if (n / 10 =? 0)%N then String (ascii_of_N (48 + n mod 10)) acc
  else decimal_digits fuel (n / 10)%N (String (ascii_of_N (48 + n mod 10)) acc).
Proof. reflexivity. Qed.

Lemma decimal_digits_app (fuel : nat) (n : N) (rest : string) :
  decimal_digits fuel n rest = decimal_digits fuel n EmptyString +:+ rest.
Proof.
  revert n rest. induction fuel as [|fuel IH]; intros n rest; simpl; [reflexivity|].
  destruct (n / 10 =? 0)%N; [reflexivity|].
  rewrite IH, (IH _ (String _ EmptyString)), string_app_assoc. reflexivity.
Qed.

Lemma all_digits_app (a b : string) :
  all_digits (a +:+ b) = all_digits a && all_digits b.
Proof.
  induction a as [|c a IH]; [reflexivity|].
  rewrite append_cons. simpl. now rewrite IH, andb_assoc.
Qed.

Lemma digits_value_app (acc : Z) (a b : string) :
  digits_value acc (a +:+ b) = digits_value (digits_value acc a) b.
Proof.
  revert acc. induction a as [|c a IH]; intros acc; [reflexivity|].
  rewrite append_cons. simpl. apply IH.
Qed.

Lemma decimal_digits_all_digits (fuel : nat) (n : N) :
  all_digits (decimal_digits fuel n EmptyString) = true.
Proof.
  revert n. induction fuel as [|fuel IH]; intros n; simpl; [reflexivity|].
  assert (D : (n mod 10 < 10)%N) by (apply N.mod_lt; lia).
  destruct (digit_char _ D) as (Dg & _).
  destruct (n / 10 =? 0)%N; simpl; [now rewrite Dg|].
  rewrite decimal_digits_app, all_digits_app, IH. simpl. now rewrite Dg.
Qed.

Lemma decimal_digits_value (fuel : nat) (n : N) :
  (n < 2 ^ N.of_nat (S fuel))%N ->
  digits_value 0 (decimal_digits (S fuel) n EmptyString) = Z.of_N n.
Proof.
  revert n. induction fuel as [|fuel IH]; intros n L.
  - change (n < 2)%N in L.
    assert (C : (n = 0 \/ n = 1)%N) by lia. now destruct C as [->| ->].
  - rewrite decimal_digits_S.
    assert (D : (n mod 10 < 10)%N) by (apply N.mod_lt; lia).
    destruct (digit_char _ D) as (_ & Dv & _).
    destruct (N.eqb_spec (n / 10) 0) as [E|E].
    + simpl. rewrite Dv. rewrite (N.div_mod n 10) at 2 by lia. rewrite E. lia.
    + rewrite decimal_digits_app, digits_value_app, IH.
      * simpl. rewrite Dv. rewrite (N.div_mod n 10) at 3 by lia. lia.
      * rewrite (Nat2N.inj_succ (S fuel)), N.pow_succ_r' in L.
        apply N.Div0.div_lt_upper_bound. lia.
Qed.

Lemma decimal_digits_nonempty (fuel : nat) (n : N) (rest : string) :
  decimal_digits (S fuel) n rest <> EmptyString.
Proof.
  simpl. destruct (n / 10 =? 0)%N; [discriminate|].
  rewrite decimal_digits_app. destruct (decimal_digits fuel _ _); discriminate.
Qed.

Lemma scan_all_digits (acc : Z) (s : string) :
  all_digits s = true -> scan_digits acc s = (digits_value acc s, EmptyString).
Proof.
  revert acc. induction s as [|c r IH]; intros acc A; simpl in *; [reflexivity|].
  apply andb_prop in A as [-> A]. now apply IH.
Qed.

Lemma c_str_all_digits (s : string) : all_digits s = true -> c_str s = s.
Proof.
  induction s as [|c r IH]; simpl; [reflexivity|]. intros A.
  apply andb_prop in A as [Dg A]. rewrite (IH A).
  unfold isdigit in Dg. destruct (Z.eqb_spec (char_code c) 0); [lia|reflexivity].
Qed.

(** The digits [decimal] writes for a number that is not negative. *)
Lemma decimal_nonnegative (z : Z) :
  0 <= z ->
  exists c r, decimal z = String c r /\ all_digits (decimal z) = true /\
              digits_value 0 (decimal z) = z.
Proof.
  intros P. unfold decimal. destruct (Z.ltb_spec z 0) as [?|_]; [lia|].
  set (n := Z.to_N (Z.abs z)).
  pose proof (decimal_digits_nonempty (N.to_nat (N.log2 n)) n EmptyString) as Ne.
  destruct (decimal_digits _ n _) as [|c r] eqn:E; [contradiction|].
  exists c, r. split; [reflexivity|]. rewrite <- E.
  split; [apply decimal_digits_all_digits|].
  rewrite decimal_digits_value.
  - subst n. lia.
  - rewrite Nat2N.inj_succ, N2Nat.id.
    destruct (N.eq_dec n 0) as [->|Nz]; [reflexivity|].
    apply N.log2_spec. lia.
Qed.

Lemma decimal_of_negative (z : Z) :
  z < 0 -> decimal z = String "-" (decimal (- z)).
Proof.
  intros N. unfold decimal.
  destruct (Z.ltb_spec z 0) as [_|?]; [|lia].
  destruct (Z.ltb_spec (- z) 0) as [?|_]; [lia|].
  now rewrite Z.abs_opp.
Qed.

Lemma decimal_c_str (z : Z) : c_str (decimal z) = decimal z.
Proof.
  destruct (Z.ltb_spec z 0) as [N|P].
  - rewrite (decimal_of_negative z N).
    destruct (decimal_nonnegative (- z)) as (c & r & _ & A & _); [lia|].
    simpl. now rewrite (c_str_all_digits _ A).
  - destruct (decimal_nonnegative z P) as (c & r & _ & A & _).
    now apply c_str_all_digits.
Qed.

Lemma digit_is_plain (c : ascii) :
  isdigit c = true ->
  isspace c = false /\ (char_code c =? 45) = false /\ (char_code c =? 43) = false.
Proof.
  unfold isdigit, isspace. intros Dg.
  destruct (Z.eqb_spec (char_code c) 32); [lia|].
  destruct (Z.leb_spec (char_code c) 13); [lia|].
  rewrite andb_false_r. repeat split; lia.
Qed.

(** [strtol] on a run of digits, with or without a minus sign. *)
Lemma strtol_digits (neg : bool) (c : ascii) (r : string) :
  all_digits (String c r) = true ->
  strtol (if neg then String "-" (String c r) else String c r) =
  (clamp_long (if neg then - digits_value 0 (String c r)
               else digits_value 0 (String c r)), EmptyString).
Proof.
  intros A. pose proof A as A'. simpl in A'. apply andb_prop in A' as [Dg _].
  destruct (digit_is_plain c Dg) as (Sp & S1 & S2).
  unfold strtol. destruct neg.
  - change (c_str (String "-" (String c r))) with (String "-" (c_str (String c r))).
    rewrite (c_str_all_digits _ A).
    change (skip_space (String "-" (String c r))) with (String "-" (String c r)).
    cbv beta iota. change (char_code "-"%char =? 45) with true. cbv beta iota.
    rewrite Dg, (scan_all_digits 0 _ A). reflexivity.
  - rewrite (c_str_all_digits _ A). cbn [skip_space]. rewrite Sp, S1, S2.
    cbv beta iota. rewrite Dg, (scan_all_digits 0 _ A). reflexivity.
Qed.

(** [strtol] reads back what ["%d"] and its wider kin write. *)
Lemma strtol_decimal (z : Z) : strtol (decimal z) = (clamp_long z, EmptyString).
Proof.
  destruct (Z.ltb_spec z 0) as [N|P].
  - rewrite (decimal_of_negative z N).
    destruct (decimal_nonnegative (- z)) as (c & r & E & A & V); [lia|].
    rewrite E in *. rewrite (strtol_digits true c r A), V.
    now rewrite Z.opp_involutive.
  - destruct (decimal_nonnegative z P) as (c & r & E & A & V).
    rewrite E in *. now rewrite (strtol_digits false c r A), V.
Qed.

(** X11. [numarg] reads back every [int] as [printf] writes it: a number
    printed with ["%d"] is accepted, and gives the number. *)
Theorem numarg_reads_decimal (z : Z) :
  - 2 ^ 31 <= z < 2 ^ 31 -> numarg (decimal z) = Some z.
Proof.
  intros R. unfold numarg. rewrite strtol_decimal.
  rewrite clamp_long_small, wrap_int_small; [reflexivity|lia|].
  unfold LONG_MIN, LONG_MAX. lia.
Qed.

Lemma addIdArg_of_number `{Externals} (args : variant) (c : ascii) (r : string)
    (fallback : option string) :
  c_str (String c r) = String c r -> Ascii.eqb c "a" = false ->
  all_digits (String c r) = true \/ c = "-"%char ->
  addIdArg args (Some (String c r)) fallback =
  (tr_variantDictAdd args TR_KEY_ids (tr_rpc_parse_list_str (String c r)), []).
Proof.
  intros C NA D. unfold addIdArg, tr_str_is_empty, strcmp_eq, strchr_found.
  rewrite C. cbn [String.eqb negb deref].
  change (c_str "active") with "active". change (c_str "all") with "all".
  rewrite !C. cbn [String.eqb]. rewrite NA. cbn [andb negb].
  destruct D as [-> | ->]; [reflexivity|].
  cbn [mem_char]. change (Ascii.eqb "-" "-") with true.
  now rewrite orb_true_r.
Qed.

(** X12. The id the program takes from the answer to an add, written in
    decimal into the current-torrent buffer, always goes the way of the
    numbers and lists in [addIdArg]: whatever the number and the fallback,
    the text is handed to [tr_rpc_parse_list_str] and what this function of
    libtransmission returns is added under ids; the branch that stores the
    text itself, for hash strings, is never taken, and no warning is written.
    What the parser makes of the text is not in the sources. *)
Theorem added_torrent_id_is_sent_as_number `{Externals} (args : variant) (i : Z)
    (fallback : option string) :
  addIdArg args (Some (decimal i)) fallback =
  (tr_variantDictAdd args TR_KEY_ids (tr_rpc_parse_list_str (decimal i)), []).
Proof.
  pose proof (decimal_c_str i) as C.
  destruct (Z.ltb_spec i 0) as [N|P].
  - rewrite (decimal_of_negative i N) in *.
    apply addIdArg_of_number; [assumption|reflexivity|now right].
  - destruct (decimal_nonnegative i P) as (c & r & E & A & _).
    rewrite E in *. apply addIdArg_of_number; [assumption| |now left].
    simpl in A. apply andb_prop in A as [Dg _].
    destruct (Ascii.eqb_spec c "a") as [->|]; [discriminate Dg|reflexivity].
Qed.

End Numbers.

(** * The first argument: where the daemon is *)

Section FirstArgument.
Context `{MoreExternals}.

Lemma substring_all (s : string) : String.substring 0 (String.length s) s = s.
Proof. induction s as [|c r IH]; simpl; [reflexivity|now rewrite IH]. Qed.

Lemma c_str_no_nul_app (a b : string) :
  c_str a = a -> c_str b = b -> c_str (a +:+ b) = a +:+ b.
Proof.
  induction a as [|c a IH]; intros Ca Cb; [assumption|].
  rewrite append_cons. simpl in *.
  destruct (char_code c =? 0); [discriminate|].
  injection Ca as Ca. now rewrite IH.
Qed.

Lemma prefix_nil (s : string) : String.prefix EmptyString s = true.
Proof. now destruct s. Qed.

Lemma append_not_empty (a : string) (c : ascii) (b : string) :
  String.eqb (a +:+ String c b) EmptyString = false.
Proof. now destruct a. Qed.

(** X13. An argument that begins with http:// or https:// names the URL of
    the daemon: [tr_main] takes it off the arguments, keeps what follows the
    scheme, followed by /rpc/, as the URL to post to, and leaves [UseSSL] set
    exactly when the scheme is https; neither the port nor the default path
    is used. [flush] puts the scheme back according to [UseSSL] as it is when
    the request leaves: with the value [tr_main] leaves this gives the
    argument followed by /rpc/; the ssl option, which sets [UseSSL] in the
    option loop, makes it https, also after an http:// argument. *)
Theorem url_argument_is_posted_to (program u : string) (rest : list string)
    (secure : bool) :
  c_str u = u ->
  let s := (if secure then "https://" else "http://") +:+ u in
  exists rpcurl,
    tr_main (program :: s :: rest) = Some (rpcurl, program :: rest, secure) /\
    rpcurl = u +:+ "/rpc/" /\
    rpcurl_http secure rpcurl = s +:+ "/rpc/" /\
    rpcurl_http true rpcurl = "https://" +:+ u +:+ "/rpc/" /\
    forall optarg st,
      processArg (OPT 820) optarg st = Next (with_UseSSL true st).
Proof.
  intros C s. exists (u +:+ "/rpc/"). subst s.
  assert (tr_main (program :: ((if secure then "https://" else "http://") +:+ u) :: rest)
          = Some (u +:+ "/rpc/", program :: rest, secure)) as Main.
  { unfold tr_main, getHostAndPortAndRpcUrl, rpcurl_http, has_prefix, advance, char_at.
    destruct secure.
    - change ("https://" +:+ u) with
        (String "h" (String "t" (String "t" (String "p" (String "s"
           (String ":" (String "/" (String "/" u)))))))).
      cbn [length Nat.ltb Nat.leb].
      cbn [c_str]. rewrite C.
      simpl. rewrite prefix_nil, Nat.sub_0_r, substring_all. simpl.
      now rewrite append_not_empty.
    - change ("http://" +:+ u) with
        (String "h" (String "t" (String "t" (String "p"
           (String ":" (String "/" (String "/" u))))))).
      cbn [length Nat.ltb Nat.leb].
      cbn [c_str]. rewrite C.
      simpl. rewrite prefix_nil, Nat.sub_0_r, substring_all. simpl.
      now rewrite append_not_empty. }
  split; [exact Main|]. split; [reflexivity|].
  split; [now destruct secure|]. split; [reflexivity|].
  intros optarg st. reflexivity.
Qed.

(** ** Host and port *)

Lemma strtol_erange_decimal (z : Z) :
  LONG_MIN <= z <= LONG_MAX -> strtol_erange (decimal z) = false.
Proof.
  intros R.
  assert (G : forall (neg : bool) c r,
             all_digits (String c r) = true ->
             strtol_erange (if neg then String "-" (String c r) else String c r) =
             let x := if neg then - digits_value 0 (String c r)
                      else digits_value 0 (String c r) in
             (x <? LONG_MIN) || (LONG_MAX <? x)).
  { intros neg c r A. pose proof A as A'. simpl in A'. apply andb_prop in A' as [Dg _].
    destruct (digit_is_plain c Dg) as (Sp & S1 & S2).
    unfold strtol_erange. destruct neg.
    - change (c_str (String "-" (String c r))) with (String "-" (c_str (String c r))).
      rewrite (c_str_all_digits _ A).
      change (skip_space (String "-" (String c r))) with (String "-" (String c r)).
      cbv beta iota. change (char_code "-"%char =? 45) with true. cbv beta iota.
      rewrite Dg, (scan_all_digits 0 _ A). reflexivity.
    - rewrite (c_str_all_digits _ A). cbn [skip_space]. rewrite Sp, S1, S2.
      cbv beta iota. rewrite Dg, (scan_all_digits 0 _ A). reflexivity. }
  destruct (Z.ltb_spec z 0) as [N|P].
  - rewrite (decimal_of_negative z N).
    destruct (decimal_nonnegative (- z)) as (c & r & E & A & V); [lia|].
    rewrite E in *. rewrite (G true c r A), V. cbv zeta. lia.
  - destruct (decimal_nonnegative z P) as (c & r & E & A & V).
    rewrite E in *. rewrite (G false c r A), V. cbv zeta. lia.
Qed.

(** [parsePortString] reads back a port as [std::to_string] writes it. *)
Lemma parsePortString_decimal (p : Z) :
  - 2 ^ 31 <= p < 2 ^ 31 -> parsePortString (decimal p) = Some p.
Proof.
  intros R. unfold parsePortString.
  rewrite strtol_decimal, strtol_erange_decimal by (unfold LONG_MIN, LONG_MAX; lia).
  simpl. rewrite clamp_long_small, wrap_int_small; [reflexivity|lia|].
  unfold LONG_MIN, LONG_MAX. lia.
Qed.

Lemma mem_colon_skip_space (s : string) :
  mem_char ":" (skip_space s) = mem_char ":" s.
Proof.
  induction s as [|c r IH]; [reflexivity|].
  cbn [mem_char skip_space scan_digits first_index last_index all_digits fst snd].
  destruct (isspace c) eqn:Sp; [|reflexivity].
  rewrite IH. destruct (Ascii.eqb_spec ":" c) as [<-|]; [discriminate Sp|reflexivity].
Qed.

Lemma mem_colon_scan_digits (acc : Z) (s : string) :
  mem_char ":" (snd (scan_digits acc s)) = mem_char ":" s.
Proof.
  revert acc. induction s as [|c r IH]; intros acc; [reflexivity|].
  cbn [mem_char skip_space scan_digits first_index last_index all_digits fst snd].
  destruct (isdigit c) eqn:Dg; [|reflexivity].
  rewrite IH. destruct (Ascii.eqb_spec ":" c) as [<-|]; [discriminate Dg|reflexivity].
Qed.

(** A text with a colon is no port. *)
Lemma parsePortString_colon (s : string) :
  mem_char ":" (c_str s) = true -> parsePortString s = None.
Proof.
  intros M. unfold parsePortString.
  assert (E : snd (strtol s) <> EmptyString).
  { unfold strtol. rewrite <- mem_colon_skip_space in M.
    assert (Nc : c_str s <> EmptyString).
    { intros E. rewrite E in M. discriminate M. }
    destruct (skip_space (c_str s)) as [|c r] eqn:Sk; [discriminate M|].
    assert (B : forall neg body, mem_char ":" body = true ->
                  snd (match body with
                       | String c0 _ =>
                           if isdigit c0 then
                             let '(v, rest) := scan_digits 0 body in
                             (clamp_long (if (neg : bool) then - v else v), rest)
                           else (0, c_str s)
                       | EmptyString => (0, c_str s)
                       end) <> EmptyString).
    { intros neg body Mb. destruct body as [|c0 r0]; [discriminate Mb|].
      destruct (isdigit c0); [|assumption].
      pose proof (mem_colon_scan_digits 0 (String c0 r0)) as Ms.
      destruct (scan_digits 0 (String c0 r0)) as [v rest2]. cbn [fst snd] in *.
      intros ->. rewrite Mb in Ms. discriminate Ms. }
    cbn [mem_char] in M.
    destruct (Z.eqb_spec (char_code c) 45) as [E45|_].
    { apply (B true r). destruct (Ascii.eqb_spec ":" c) as [<-|]; [discriminate E45|assumption]. }
    destruct (Z.eqb_spec (char_code c) 43) as [E43|_].
    { apply (B false r). destruct (Ascii.eqb_spec ":" c) as [<-|]; [discriminate E43|assumption]. }
    now apply (B false (String c r)). }
  destruct (strtol s) as [i end_]. simpl in E.
  destruct end_; [contradiction|reflexivity].
Qed.

Lemma first_index_none (c : ascii) (s : string) :
  mem_char c s = false -> first_index c s = None.
Proof.
  induction s as [|d r IH]; [reflexivity|].
  cbn [mem_char skip_space scan_digits first_index last_index all_digits fst snd].
  destruct (Ascii.eqb c d); [discriminate|]. intros M. now rewrite IH.
Qed.

Lemma last_index_none (c : ascii) (s : string) :
  mem_char c s = false -> last_index c s = None.
Proof.
  induction s as [|d r IH]; [reflexivity|].
  cbn [mem_char skip_space scan_digits first_index last_index all_digits fst snd].
  destruct (Ascii.eqb c d); [discriminate|]. intros M. now rewrite IH.
Qed.

Lemma first_index_app (c : ascii) (a b : string) :
  mem_char c a = false ->
  first_index c (a +:+ String c b) = Some (String.length a).
Proof.
  induction a as [|d r IH]; intros M.
  - rewrite append_nil. cbn [first_index]. now rewrite Ascii.eqb_refl.
  - rewrite append_cons. cbn [first_index mem_char] in *.
    destruct (Ascii.eqb c d); [discriminate|]. now rewrite IH.
Qed.

Lemma last_index_app (c : ascii) (a b : string) :
  mem_char c b = false ->
  last_index c (a +:+ String c b) = Some (String.length a).
Proof.
  intros M. induction a as [|d r IH].
  - rewrite append_nil. cbn [last_index]. now rewrite (last_index_none _ _ M), Ascii.eqb_refl.
  - rewrite append_cons. cbn [last_index]. now rewrite IH.
Qed.

Lemma substring_app_head (a b : string) :
  String.substring 0 (String.length a) (a +:+ b) = a.
Proof.
  induction a as [|d r IH]; [now destruct b|].
  rewrite append_cons. simpl. now rewrite IH.
Qed.

Lemma substring_app_tail (a b : string) (n : nat) :
  String.substring (String.length a) n (a +:+ b) = String.substring 0 n b.
Proof.
  induction a as [|d r IH]; [reflexivity|]. rewrite append_cons. simpl. apply IH.
Qed.

Lemma substring_app_skip (a b : string) (c : ascii) (n : nat) :
  String.substring (S (String.length a)) n (a +:+ String c b) =
  String.substring 0 n b.
Proof.
  induction a as [|d r IH]; [reflexivity|]. rewrite append_cons. simpl. apply IH.
Qed.

Lemma length_append (a b : string) :
  String.length (a +:+ b) = (String.length a + String.length b)%nat.
Proof.
  induction a as [|d r IH]; [reflexivity|]. rewrite append_cons. simpl. now rewrite IH.
Qed.

Lemma mem_colon_digits (s : string) : all_digits s = true -> mem_char ":" s = false.
Proof.
  induction s as [|c r IH]; [reflexivity|]. cbn [mem_char all_digits]. intros A.
  apply andb_prop in A as [Dg A]. rewrite (IH A).
  destruct (Ascii.eqb_spec ":" c) as [<-|]; [discriminate Dg|reflexivity].
Qed.

Lemma mem_char_app (c : ascii) (a b : string) :
  mem_char c (a +:+ b) = mem_char c a || mem_char c b.
Proof.
  induction a as [|d r IH]; [reflexivity|]. rewrite append_cons. cbn [mem_char].
  now rewrite IH, orb_assoc.
Qed.

Ltac mismatch :=
  repeat match goal with
         | |- context [ascii_dec ?a ?b] =>
             destruct (ascii_dec a b) as [<-|?]; [|reflexivity]
         end;
  try reflexivity.

(** A host without a colon, followed by a colon and a digit, is no URL. *)
Lemma host_port_is_no_url (h r : string) (d : ascii) :
  mem_char ":" h = false -> isdigit d = true ->
  String.prefix "http://" (h +:+ String ":" (String d r)) = false /\
  String.prefix "https://" (h +:+ String ":" (String d r)) = false.
Proof.
  intros M Dg.
  destruct h as [|c1 [|c2 [|c3 [|c4 [|c5 [|c6 h]]]]]];
    rewrite ?append_cons, ?append_nil; cbn [String.prefix]; split; mismatch;
    first [ discriminate M | discriminate Dg ].
Qed.

Lemma char_code_dash (c : ascii) : c <> "-"%char -> (char_code c =? 45) = false.
Proof.
  intros N. destruct (Z.eqb_spec (char_code c) 45) as [E|]; [|reflexivity].
  destruct N. unfold char_code in E.
  rewrite <- (ascii_N_embedding c). replace (N_of_ascii c) with 45%N by lia.
  reflexivity.
Qed.

(** X14. An argument "host:port" -- a host without a colon that does not
    begin with a dash, and a port in decimal -- gives the URL host:port
    followed by the default path: [tr_main] takes the argument off the
    arguments and posts to that URL, without TLS. *)
Theorem host_and_port_argument (program h : string) (p : Z) (rest : list string) :
  c_str h = h -> mem_char ":" h = false -> char_at h 0 <> "-"%char ->
  h <> EmptyString -> 0 <= p < 2 ^ 31 ->
  tr_main (program :: (h +:+ ":" +:+ decimal p) :: rest) =
  Some (h +:+ ":" +:+ decimal p +:+ DefaultUrl, program :: rest, false).
Proof.
  intros C M Dash Ne R.
  destruct (decimal_nonnegative p) as (d & r & E & A & V); [lia|].
  pose proof (parsePortString_decimal p ltac:(lia)) as Pp.
  pose proof (decimal_c_str p) as Cd.
  rewrite E in *. clear V.
  pose proof A as A'. simpl in A'. apply andb_prop in A' as [Dg _].
  change (":" +:+ String d r) with (String ":" (String d r)).
  set (s := h +:+ String ":" (String d r)).
  assert (Cs : c_str s = s).
  { apply c_str_no_nul_app; [assumption|].
    change (c_str (String ":" (String d r))) with (String ":" (c_str (String d r))).
    now rewrite Cd. }
  assert (E1 : (char_code (char_at s 0) =? 45) = false).
  { apply char_code_dash. unfold char_at in *. rewrite Cs. rewrite C in Dash.
    subst s. destruct h as [|c1 h1]; [contradiction|]. exact Dash. }
  destruct (host_port_is_no_url h r d M Dg) as [E2 E3]. fold s in E2, E3.
  assert (E4 : parsePortString s = None).
  { apply parsePortString_colon. rewrite Cs. subst s.
    rewrite mem_char_app. cbn [mem_char]. now rewrite orb_true_r. }
  assert (Md : mem_char ":" (String d r) = false) by now apply mem_colon_digits.
  assert (E5 : last_index ":" s = Some (String.length h)) by now apply last_index_app.
  assert (E6 : first_index ":" s = Some (String.length h)) by now apply first_index_app.
  assert (E7 : advance (S (String.length h)) s = String d r).
  { unfold advance. rewrite Cs. subst s. rewrite length_append.
    change (String.length (String ":" (String d r))) with (S (String.length (String d r))).
    replace (String.length h + S (String.length (String d r)) - S (String.length h))%nat
      with (String.length (String d r)) by lia.
    now rewrite substring_app_skip, substring_all. }
  assert (E9 : String.substring 0 (String.length h) s = h) by apply substring_app_head.
  assert (E10 : first_index ":" h = None) by now apply first_index_none.
  assert (E11 : String.eqb h EmptyString = false) by now apply String.eqb_neq.
  unfold tr_main, getHostAndPortAndRpcUrl.
  cbn [length Nat.ltb Nat.leb]. rewrite E1. unfold has_prefix.
  change (c_str "http://") with "http://". change (c_str "https://") with "https://".
  rewrite !Cs, E2, E3, E4, E5, E6.
  rewrite bool_decide_eq_true_2 by reflexivity.
  rewrite E7, Pp, E9, E10, andb_false_r. cbn [default host port rpcurl UseSSL].
  rewrite E11. unfold Datatypes.id. rewrite E. reflexivity.
Qed.

Lemma first_index_mem (c : ascii) (s : string) (i : nat) :
  first_index c s = Some i -> mem_char c s = true.
Proof.
  destruct (mem_char c s) eqn:M; [reflexivity|].
  now rewrite (first_index_none _ _ M).
Qed.

(** X15. An argument with two or more colons never sets the port: the whole
    argument becomes the host, between brackets unless it begins with an
    opening bracket, and the port stays what it was -- also when the
    argument is a bracketed IPv6 address followed by a colon and a port. *)
Theorem address_with_colons_keeps_the_port (program s : string)
    (rest : list string) (t : target) (i j : nat) :
  first_index ":" (c_str s) = Some i -> last_index ":" (c_str s) = Some j ->
  i <> j -> char_at s 0 <> "-"%char ->
  has_prefix "http://" s = false -> has_prefix "https://" s = false ->
  getHostAndPortAndRpcUrl (program :: s :: rest) t =
  (program :: rest,
   mk_target
     (if char_code (char_at s 0) =? 91 then c_str s else "[" +:+ c_str s +:+ "]")
     (port t) (rpcurl t) (UseSSL t)).
Proof.
  intros F L N Dash P1 P2. unfold getHostAndPortAndRpcUrl.
  rewrite (char_code_dash _ Dash), P1, P2.
  rewrite (parsePortString_colon s (first_index_mem _ _ _ F)), L, F.
  rewrite bool_decide_eq_false_2 by congruence.
  rewrite substring_all, F, andb_true_r. cbn [default].
  now destruct (char_code (char_at s 0) =? 91).
Qed.

(** X16. A lone port in decimal keeps the default host: [tr_main] posts to
    localhost, that port and the default path. *)
Theorem port_argument (program : string) (p : Z) (rest : list string) :
  0 <= p < 2 ^ 31 ->
  tr_main (program :: decimal p :: rest) =
  Some (DefaultHost +:+ ":" +:+ decimal p +:+ DefaultUrl, program :: rest, false).
Proof.
  intros R.
  destruct (decimal_nonnegative p) as (d & r & E & A & V); [lia|].
  pose proof (parsePortString_decimal p ltac:(lia)) as Pp.
  pose proof (decimal_c_str p) as Cd.
  pose proof A as A'. rewrite E in A'. simpl in A'. apply andb_prop in A' as [Dg _].
  destruct (digit_is_plain d Dg) as (_ & S1 & _).
  unfold tr_main, getHostAndPortAndRpcUrl, has_prefix, char_at.
  cbn [length Nat.ltb Nat.leb]. rewrite Cd, Pp.
  change (c_str "http://") with "http://". change (c_str "https://") with "https://".
  rewrite E. cbn [String.get String.prefix]. rewrite S1.
  destruct (ascii_dec "h" d) as [<-|n]; [discriminate Dg|].
  cbn [host port rpcurl UseSSL String.eqb]. now rewrite <- E.
Qed.

End FirstArgument.

(** * What the views show *)

Section DisplayFacts.
Context `{MoreExternals}.

(** X17. For a torrent whose ETA is negative (unknown or not available),
    [etaToString] gives "Unknown"; the list view shows that text, except that
    it shows "Done" when the ETA is -1 and nothing is left to download; and
    the details view, which converts the ETA to an [int], shows a duration of
    zero seconds whenever the converted number is negative -- as it is for
    every negative ETA from -2^31 on -- because [tr_strltime] counts a
    negative duration as zero. *)
Theorem unknown_eta_in_list_and_details (t : variant) (eta : Z) :
  tr_variantDictFindInt t TR_KEY_eta = Some eta -> eta < 0 ->
  etaToString 16 eta = "Unknown" /\
  (forall row left,
     printTorrentList_row t = Some row ->
     tr_variantDictFindInt t TR_KEY_leftUntilDone = Some left ->
     row_eta row = if (left =? 0) && (eta =? -1) then "Done" else "Unknown") /\
  (wrap_int eta < 0 -> printDetails_eta t = Some "0 seconds (0 seconds)") /\
  (- 2 ^ 31 <= eta -> wrap_int eta = eta).
Proof.
  intros F R.
  assert (U : etaToString 16 eta = "Unknown").
  { unfold etaToString. destruct (Z.ltb_spec eta 0) as [_|?]; [reflexivity|lia]. }
  split; [exact U|]. split; [|split].
  - intros row left Row L. unfold printTorrentList_row in Row.
    rewrite F, L in Row. simpl in Row.
    destruct (tr_variantDictFindInt t TR_KEY_id); simpl in Row; [|discriminate].
    destruct (tr_variantDictFindStrView t TR_KEY_name); simpl in Row; [|discriminate].
    destruct (tr_variantDictFindInt t TR_KEY_rateDownload); simpl in Row; [|discriminate].
    destruct (tr_variantDictFindInt t TR_KEY_rateUpload); simpl in Row; [|discriminate].
    destruct (tr_variantDictFindInt t TR_KEY_sizeWhenDone); simpl in Row; [|discriminate].
    destruct (tr_variantDictFindInt t TR_KEY_status); simpl in Row; [|discriminate].
    destruct (tr_variantDictFindReal t TR_KEY_uploadRatio); simpl in Row; [|discriminate].
    injection Row as <-. cbn [row_eta]. rewrite U.
    now destruct (left =? 0), (eta =? -1).
  - intros W. unfold printDetails_eta. rewrite F. simpl.
    unfold tr_strltime_of_int64, tr_strltime, split_seconds.
    destruct (Z.ltb_spec (wrap_int eta) 0) as [_|?]; [reflexivity|lia].
  - intros L. apply wrap_int_small. lia.
Qed.

(** X18. [tr_strltime] splits a duration into days, hours below 24, minutes
    below 60 and seconds below 60 that add up to the duration, a negative
    duration counting as zero. *)
Theorem tr_strltime_splits_the_duration (seconds : Z) :
  let parts := split_seconds seconds in
  days parts * 86400 + hours parts * 3600 + minutes parts * 60 + secs parts =
    Z.max 0 seconds /\
  0 <= days parts /\ 0 <= hours parts < 24 /\ 0 <= minutes parts < 60 /\
  0 <= secs parts < 60.
Proof.
  unfold split_seconds. cbn [days hours minutes secs].
  set (s := if seconds <? 0 then 0 else seconds).
  assert (S0 : 0 <= s) by (subst s; destruct (Z.ltb_spec seconds 0); lia).
  assert (Sm : s = Z.max 0 seconds) by (subst s; destruct (Z.ltb_spec seconds 0); lia).
  rewrite <- Sm. clearbody s. clear Sm.
  rewrite !Z.rem_mod_nonneg by (try apply Z.mod_pos_bound; lia).
  rewrite !Z.quot_div_nonneg by (try apply Z.mod_pos_bound; lia).
  pose proof (Z.div_mod s 86400 ltac:(lia)).
  pose proof (Z.mod_pos_bound s 86400 ltac:(lia)).
  pose proof (Z.div_mod (s mod 86400) 3600 ltac:(lia)).
  pose proof (Z.mod_pos_bound (s mod 86400) 3600 ltac:(lia)).
  pose proof (Z.div_mod (s mod 3600) 60 ltac:(lia)).
  pose proof (Z.mod_pos_bound (s mod 3600) 60 ltac:(lia)).
  assert (E : (s mod 86400) mod 3600 = s mod 3600).
  { apply Z.mod_mod_divide. now exists 24. }
  pose proof (Z.div_pos s 86400 S0 ltac:(lia)).
  pose proof (Z.div_lt_upper_bound (s mod 86400) 3600 24 ltac:(lia) ltac:(lia)).
  pose proof (Z.div_pos (s mod 86400) 3600 ltac:(lia) ltac:(lia)).
  pose proof (Z.div_lt_upper_bound (s mod 3600) 60 60 ltac:(lia) ltac:(lia)).
  pose proof (Z.div_pos (s mod 3600) 60 ltac:(lia) ltac:(lia)).
  pose proof (Z.mod_pos_bound (s mod 3600) 60 ltac:(lia)).
  lia.
Qed.

(** X19. The name of a bandwidth priority is always read inside the table of
    four names, whatever number the daemon sends; and the three priorities the
    options can set, 1, 0 and -1, are shown as High, Normal and Low. *)
Theorem bandwidth_priority_is_named (i : Z) :
  (exists name, bandwidthPriorityName i = Some name /\
                In name bandwidthPriorityNames) /\
  (forall (c v : Z) (name : string) (optarg : option string) (args : variant),
     In (c, v, name) [(700, 1, "High"); (701, 0, "Normal"); (702, -1, "Low")] ->
     torrent_set_or_add_edit (OPT c) optarg args =
       edited (tr_variantDictAddInt args TR_KEY_bandwidthPriority v) /\
     bandwidthPriorityName v = Some name).
Proof.
  split.
  - unfold bandwidthPriorityName.
    change 3 with (Z.ones 2). rewrite Z.land_ones by lia.
    pose proof (Z.mod_pos_bound (i + 1) (2 ^ 2) ltac:(lia)) as B.
    destruct (Z.ltb_spec ((i + 1) mod 2 ^ 2) 0) as [?|_]; [lia|].
    assert (C : (i + 1) mod 2 ^ 2 = 0 \/ (i + 1) mod 2 ^ 2 = 1 \/
                (i + 1) mod 2 ^ 2 = 2 \/ (i + 1) mod 2 ^ 2 = 3) by lia.
    destruct C as [-> | [-> | [-> | ->]]]; eexists; (split; [reflexivity|]);
      simpl; tauto.
  - intros c v name optarg args I. simpl in I.
    destruct I as [[= <- <- <-] | [[= <- <- <-] | [[= <- <- <-] | []]]];
      now split.
Qed.

(** X20. The time the schedule options send is read back by the session view
    as the hour and the minute that were given: an accepted argument hhmm is
    shown as hh:mm. *)
Theorem schedule_shows_the_time_given (args args' : variant) (key : tr_quark)
    (a : string) :
  addTime args key (Some a) = (args', []) ->
  exists time,
    args' = tr_variantDictAddInt args key time /\
    schedule_clock time = (hour_part a, minute_part a).
Proof.
  unfold addTime, hour_part, minute_part.
  destruct (strlen a =? 4); [|discriminate].
  set (hour := atoi _). set (min := atoi _).
  destruct (Z.leb_spec 0 hour); [|discriminate].
  destruct (Z.ltb_spec hour 24); [|discriminate].
  destruct (Z.leb_spec 0 min); [|discriminate].
  destruct (Z.ltb_spec min 60); [|discriminate].
  simpl. intros [= <-]. exists (min + hour * 60). split; [reflexivity|].
  unfold schedule_clock.
  rewrite Z.quot_div_nonneg, Z.rem_mod_nonneg by lia.
  rewrite Z.div_add, Z.mod_add by lia.
  rewrite Z.div_small, Z.mod_small by lia.
  now rewrite !wrap_int_small by lia.
Qed.

(** X21. When no size is known ([sizeWhenDone] is zero) the details view
    prints the availability "None" and then still evaluates the percentage
    of availability, which divides by that zero. *)
Theorem availability_divides_by_zero_size (t : variant) (j k : Z) :
  tr_variantDictFindInt t TR_KEY_sizeWhenDone = Some 0 ->
  tr_variantDictFindInt t TR_KEY_desiredAvailable = Some j ->
  tr_variantDictFindInt t TR_KEY_leftUntilDone = Some k ->
  exists p,
    printDetails_availability t = Some (mk_availability true (Some p)) /\
    percent_divisor p = 0.
Proof.
  intros S D L. unfold printDetails_availability. rewrite S. simpl.
  rewrite D. simpl. rewrite L. simpl. now eexists.
Qed.

Lemma land_pow2_testbit (a k : Z) :
  0 <= k -> (Z.land a (2 ^ k) =? 0) = negb (Z.testbit a k).
Proof.
  intros K. destruct (Z.testbit a k) eqn:T; simpl.
  - apply Z.eqb_neq. intros E.
    assert (B : Z.testbit (Z.land a (2 ^ k)) k = true).
    { rewrite Z.land_spec, T. now rewrite Z.pow2_bits_true. }
    rewrite E in B. now rewrite Z.bits_0 in B.
  - apply Z.eqb_eq. apply Z.bits_inj'. intros n Hn.
    rewrite Z.land_spec, Z.bits_0.
    destruct (Z.eq_dec n k) as [->|Ne]; [now rewrite T|].
    rewrite Z.pow2_bits_false by congruence. apply andb_false_r.
Qed.

Lemma addDays_loop_bit (range : list Z) (k : Z) :
  Z.testbit (addDays_loop 0 range) k =
  existsb (fun day => (0 <=? day) && (day <=? 7) &&
                      ((if day =? 7 then 0 else day) =? k)) range.
Proof.
  apply eq_true_iff_eq. rewrite addDays_loop_testbit, Z.testbit_0_l, existsb_exists.
  split.
  - intros [?|(day & I & R & ->)]; [discriminate|]. exists day. split; [assumption|].
    rewrite Z.eqb_refl, andb_true_r. apply andb_true_intro. split; lia.
  - intros (day & I & E). right. exists day. split; [assumption|].
    apply andb_prop in E as [E K]. apply andb_prop in E as [L U]. lia.
Qed.

Section WeekDays.

(** The flags of the days in transmission.h: [(1 << 0)] for Sunday up to
    [(1 << 6)] for Saturday. *)
Hypothesis sched_flags :
  [TR_SCHED_SUN; TR_SCHED_MON; TR_SCHED_TUES; TR_SCHED_WED; TR_SCHED_THURS;
   TR_SCHED_FRI; TR_SCHED_SAT] = [1; 2; 4; 8; 16; 32; 64].

(** X22. The days the schedule option sends are read back by the session
    view: it names, from Sunday to Saturday, exactly the days some listed
    number from 0 to 7 stands for, 0 and 7 both standing for Sunday. *)
Theorem schedule_shows_the_days_given (range : list Z) :
  schedule_day_names (addDays_loop 0 range) =
  map snd
    (List.filter
       (fun d => existsb (fun day => (0 <=? day) && (day <=? 7) &&
                                     ((if day =? 7 then 0 else day) =? d.1)) range)
       week).
Proof.
  injection sched_flags as E0 E1 E2 E3 E4 E5 E6.
  unfold schedule_day_names, week. cbn [List.filter fst].
  rewrite E0, E1, E2, E3, E4, E5, E6.
  rewrite <- !addDays_loop_bit.
  generalize (addDays_loop 0 range) as mask. intros mask.
  rewrite (land_pow2_testbit mask 0 ltac:(lia) : (Z.land mask 1 =? 0) = _).
  rewrite (land_pow2_testbit mask 1 ltac:(lia) : (Z.land mask 2 =? 0) = _).
  rewrite (land_pow2_testbit mask 2 ltac:(lia) : (Z.land mask 4 =? 0) = _).
  rewrite (land_pow2_testbit mask 3 ltac:(lia) : (Z.land mask 8 =? 0) = _).
  rewrite (land_pow2_testbit mask 4 ltac:(lia) : (Z.land mask 16 =? 0) = _).
  rewrite (land_pow2_testbit mask 5 ltac:(lia) : (Z.land mask 32 =? 0) = _).
  rewrite (land_pow2_testbit mask 6 ltac:(lia) : (Z.land mask 64 =? 0) = _).
  rewrite !negb_involutive.
  destruct (Z.testbit mask 0), (Z.testbit mask 1), (Z.testbit mask 2),
    (Z.testbit mask 3), (Z.testbit mask 4), (Z.testbit mask 5),
    (Z.testbit mask 6); reflexivity.
Qed.

End WeekDays.

(** ** The map of pieces *)

Lemma shown_bits_app (a b : string) :
  shown_bits (a +:+ b) = shown_bits a ++ shown_bits b.
Proof.
  induction a as [|c a IH]; [reflexivity|]. rewrite append_cons.
  cbn [shown_bits]. rewrite IH.
  destruct (Ascii.eqb c "1"); [reflexivity|]. now destruct (Ascii.eqb c "0").
Qed.

Lemma land_shiftl_testbit (a k : Z) :
  (Z.land a (Z.shiftl 1 k) =? 0) = negb (Z.testbit a k).
Proof.
  destruct (Z.neg_nonneg_cases k) as [Neg|NN].
  - rewrite Z.testbit_neg_r by assumption.
    rewrite Z.shiftl_1_l, Z.pow_neg_r, Z.land_0_r by assumption. reflexivity.
  - rewrite Z.shiftl_1_l. now apply land_pow2_testbit.
Qed.

Lemma byte_bits_shown (ch : ascii) (todo bit : nat) (piece piece_count : N) :
  let n := N.to_nat (piece_count - piece) in
  let r := byte_bits ch bit todo piece piece_count in
  shown_bits r.1 =
    take n (map (fun b => Z.testbit (char_code ch) (7 - Z.of_nat b)) (seq bit todo)) /\
  N.to_nat (piece_count - r.2) = (n - todo)%nat.
Proof.
  revert bit piece. induction todo as [|todo IH]; intros bit piece; cbn zeta.
  - simpl. rewrite take_nil. split; [reflexivity|lia].
  - cbn [byte_bits seq map].
    destruct (N.ltb_spec piece piece_count) as [L|G].
    + specialize (IH (S bit) (N.succ piece)). cbn zeta in IH.
      destruct (byte_bits ch (S bit) todo (N.succ piece) piece_count) as [rest piece'].
      cbn [fst snd] in *. destruct IH as [IH1 IH2].
      replace (N.to_nat (piece_count - piece))
        with (S (N.to_nat (piece_count - N.succ piece))) by lia.
      cbn [take]. rewrite <- IH1. split; [|lia].
      rewrite land_shiftl_testbit, negb_involutive.
      now destruct (Z.testbit (char_code ch) (7 - Z.of_nat bit)).
    + cbn [fst snd]. replace (N.to_nat (piece_count - piece)) with O by lia.
      split; [reflexivity|lia].
Qed.

Lemma pieces_rows_shown (str : string) (piece piece_count : N) :
  shown_bits (pieces_rows str piece piece_count) =
  take (N.to_nat (piece_count - piece)) (bits_of str).
Proof.
  revert piece. induction str as [|ch rest IH]; intros piece.
  - simpl. now rewrite take_nil.
  - cbn [pieces_rows bits_of].
    pose proof (byte_bits_shown ch 8 0 piece piece_count) as B. cbn zeta in B.
    destruct (byte_bits ch 0 8 piece piece_count) as [bits piece'].
    cbn [fst snd] in B. destruct B as [B1 B2].
    rewrite !shown_bits_app, B1, IH, B2.
    assert (Sp : shown_bits " " = []) by reflexivity.
    assert (Nl : shown_bits (if (piece' mod 64 =? 0)%N then newline +:+ "  " else "") = []).
    { now destruct (piece' mod 64 =? 0)%N. }
    rewrite Sp, Nl. cbn [app].
    rewrite take_app. reflexivity.
Qed.

(** X23. The map of pieces shows the bits of the decoded field, byte after
    byte and the highest bit of each byte first, and stops after
    [piece_count] of them: the padding bits of the last byte are not shown,
    and every other character it prints is layout. *)
Theorem printPieces_shows_the_first_bits (raw : string) (piece_count : N) :
  shown_bits (printPiecesImpl raw piece_count) =
  take (N.to_nat piece_count) (bits_of (tr_base64_decode raw)).
Proof.
  unfold printPiecesImpl. rewrite !shown_bits_app, pieces_rows_shown.
  change (shown_bits "  ") with (@nil bool). change (shown_bits newline) with (@nil bool).
  rewrite app_nil_r, N.sub_0_r. reflexivity.
Qed.

End DisplayFacts.

(** * The answers of the daemon *)

Section Answers.
Context `{MoreExternals}.

Lemma printPieces_loop_fails (torrents : list variant) :
  printPieces_loop torrents = None <-> Exists negative_piece_count torrents.
Proof.
  induction torrents as [|t rest IH]; simpl.
  - split; [discriminate|intros E; inversion E].
  - rewrite Exists_cons, <- IH. unfold negative_piece_count.
    destruct (tr_variantDictFindStrView t TR_KEY_pieces) as [raw|].
    2:{ split; [now right|]. now intros [(? & ? & [=] & _)|]. }
    destruct (tr_variantDictFindInt t TR_KEY_pieceCount) as [j|].
    2:{ split; [now right|]. now intros [(? & ? & _ & [=] & _)|]. }
    destruct (Z.leb_spec 0 j) as [Le|Lt].
    + destruct (printPieces_loop rest); simpl.
      * split; [discriminate|]. intros [(? & ? & _ & [= <-] & L)|[=]]. lia.
      * split; [now right|reflexivity].
    + split; [|reflexivity]. intros _. left. now exists raw, j.
Qed.

Lemma printPieces_fails (top : variant) :
  printPieces top = None <->
  exists torrents,
    (tr_variantDictFindDict top TR_KEY_arguments ≫=
       fun args => tr_variantDictFindList args TR_KEY_torrents) = Some torrents /\
    Exists negative_piece_count torrents.
Proof.
  unfold printPieces.
  destruct (tr_variantDictFindDict top TR_KEY_arguments ≫= _) as [torrents|].
  - rewrite printPieces_loop_fails. split; [now exists torrents|].
    now intros (? & [= <-] & E).
  - split; [discriminate|now intros (? & [=] & _)].
Qed.

(** X24. [processResponse] fails its one assertion, that of [printPieces],
    exactly on an answer that parses with the result "success" and the tag of
    the pieces view and holds a torrent with its pieces and a negative piece
    count. When it returns, it returns [EXIT_SUCCESS] exactly when the answer
    parses and its result is the string "success"; and it leaves the
    current-torrent buffer alone unless the answer succeeded with the tag of
    an add. *)
Theorem processResponse_succeeds_on_success_only (response id : string) :
  (processResponse response id = None <->
   exists top torrents,
     tr_variantFromBuf response = Some top /\
     tr_variantDictFindStrView top TR_KEY_result = Some "success" /\
     tr_variantDictFindInt top TR_KEY_tag = Some TAG_PIECES /\
     (tr_variantDictFindDict top TR_KEY_arguments ≫=
        fun args => tr_variantDictFindList args TR_KEY_torrents) = Some torrents /\
     Exists negative_piece_count torrents) /\
  (forall e, processResponse response id = Some e ->
     (response_status e = EXIT_SUCCESS <->
      exists top, tr_variantFromBuf response = Some top /\
                  tr_variantDictFindStrView top TR_KEY_result = Some "success") /\
     (response_id e <> id ->
      exists top, tr_variantFromBuf response = Some top /\
                  tr_variantDictFindStrView top TR_KEY_result = Some "success" /\
                  tr_variantDictFindInt top TR_KEY_tag = Some TAG_TORRENT_ADD)).
Proof.
  unfold processResponse.
  destruct (tr_variantFromBuf response) as [top|]; cbv beta iota.
  2:{ split; [split; [discriminate|intros (? & ? & [=] & _)]|].
      intros e [= <-]. split; [split; [discriminate|intros (? & [=] & _)]|now intros []]. }
  destruct (tr_variantDictFindStrView top TR_KEY_result) as [sv|] eqn:R; cbv beta iota.
  2:{ split; [split; [discriminate|intros (? & ? & [= <-] & E & _); congruence]|].
      intros e [= <-].
      split; [split; [discriminate|intros (? & [= <-] & E); congruence]|now intros []]. }
  destruct (String.eqb_spec sv "success") as [->|Ne]; cbn [negb]; cbv beta iota.
  2:{ split; [split; [discriminate|intros (? & ? & [= <-] & E & _); congruence]|].
      intros e [= <-].
      split; [split; [discriminate|intros (? & [= <-] & E); congruence]|now intros []]. }
  set (tag := default (-1) (tr_variantDictFindInt top TR_KEY_tag)).
  match goal with
  | |- context [?x = None] => set (r := x)
  end.
  assert (K : (r = None <-> tag = TAG_PIECES /\ printPieces top = None) /\
              (forall e, r = Some e ->
                 response_status e = EXIT_SUCCESS /\
                 (response_id e <> id -> tag = TAG_TORRENT_ADD))).
  { subst r. clearbody tag.
    assert (Other : forall e0 : response_effect, forall t : Z,
              t <> TAG_PIECES -> response_status e0 = EXIT_SUCCESS ->
              (response_id e0 <> id -> t = TAG_TORRENT_ADD) ->
              (Some e0 = None <-> t = TAG_PIECES /\ printPieces top = None) /\
              (forall e, Some e0 = Some e ->
                 response_status e = EXIT_SUCCESS /\
                 (response_id e <> id -> t = TAG_TORRENT_ADD))).
    { intros e0 t Nt S I. split; [split; [discriminate|now intros [? _]]|].
      now intros e [= <-]. }
    destruct tag as [|p|p];
      [apply Other; [discriminate|reflexivity|now intros []]|
      |apply Other; [discriminate|reflexivity|now intros []]].
    labels p ltac:(first
      [ apply Other; [discriminate|reflexivity|];
        first [ now intros [] | intros _; reflexivity
              | simpl; destruct (_ ≫= _); simpl; congruence ]
      | destruct (printPieces top);
        [ split; [split; [discriminate|now intros [_ ?]]|];
          intros e [= <-]; split; [reflexivity|now intros []]
        | split; [split; [now split|reflexivity]|discriminate] ] ]). }
  destruct K as [K1 K2]. clearbody r.
  assert (T : forall t, tag = t -> t <> -1 ->
                tr_variantDictFindInt top TR_KEY_tag = Some t).
  { intros t E Nt. subst tag.
    destruct (tr_variantDictFindInt top TR_KEY_tag); simpl in E; congruence. }
  split.
  - rewrite K1. split.
    + intros [Et P]. apply printPieces_fails in P as (torrents & L & E).
      exists top, torrents. split; [reflexivity|]. split; [assumption|].
      split; [now apply T|]. now split.
    + intros (top0 & torrents & [= <-] & _ & Et & L & E). split.
      * subst tag. now rewrite Et.
      * apply printPieces_fails. now exists torrents.
  - intros e E. destruct (K2 e E) as [S I]. split.
    + split; [|now intros _]. intros _. now exists top.
    + intros N. exists top. split; [reflexivity|]. split; [assumption|].
      now apply T; [apply I|].
Qed.

End Answers.

(** * Lists in the requests, and sums in the list view *)

Section Lists.
Context `{MoreExternals}.

Lemma find_list_of_find (x : variant) (key : tr_quark) (l : list variant) :
  tr_variantDictFind x key = Some (VList l) ->
  tr_variantDictFindList x key = Some l.
Proof. unfold tr_variantDictFindList. now intros ->. Qed.

Lemma find_or_add_list_then_push_list (args : variant) (key : tr_quark)
    (items : list variant) :
  list_or_nothing args key ->
  tr_variantDictFindList (find_or_add_list_then_push args key items) key =
    Some (list_under args key ++ items) /\
  list_or_nothing (find_or_add_list_then_push args key items) key.
Proof.
  intros [[l ->] C]. unfold find_or_add_list_then_push, list_under.
  destruct (tr_variantDictFindList (VDict l) key) as [l1|] eqn:FL.
  - assert (F : tr_variantDictFind (VDict l) key = Some (VList l1)).
    { unfold tr_variantDictFindList in FL.
      destruct (tr_variantDictFind (VDict l) key) as [[| | | |l2|]|]; try discriminate FL.
      now injection FL as ->. }
    pose proof (find_list_of_find _ _ _
                  (find_store_child_same _ _ _ (VList (l1 ++ items)) F)) as F'.
    split; [exact F'|]. split; [now eexists|]. right. rewrite F'. now eexists.
  - destruct C as [F|[l0 S]]; [|congruence].
    assert (F' : tr_variantDictFindList (tr_variantDictAddList (VDict l) key items) key
                 = Some items).
    { apply find_list_of_find. simpl in *.
      rewrite children_find_app, F. simpl. now rewrite quark_eqb_refl. }
    split; [exact F'|]. split; [now eexists|]. right. rewrite F'. now eexists.
Qed.

(** X25. Labels given by several label options accumulate: after two of them
    the request carries the labels of the first followed by those of the
    second, on top of the labels it already held; the second option does not
    replace what the first one gave. *)
Theorem labels_accumulate (args : variant) (first second : string) :
  list_or_nothing args TR_KEY_labels ->
  tr_variantDictFindList (addLabels (addLabels args first) second) TR_KEY_labels =
  Some (list_under args TR_KEY_labels ++
        map VStr (tr_strvSep_tokens first) ++ map VStr (tr_strvSep_tokens second)).
Proof.
  intros L. unfold addLabels.
  destruct (find_or_add_list_then_push_list args TR_KEY_labels
              (map VStr (tr_strvSep_tokens first)) L) as [F1 L1].
  destruct (find_or_add_list_then_push_list _ TR_KEY_labels
              (map VStr (tr_strvSep_tokens second)) L1) as [F2 _].
  rewrite F2. unfold list_under at 1. rewrite F1. simpl.
  now rewrite app_assoc.
Qed.

Lemma printTorrentList_rows_sum (torrents : list variant) (total_size : Z)
    (rows : list list_row) (total : Z) :
  printTorrentList_rows torrents total_size = Some (rows, total) ->
  in_int64 total_size = true ->
  rows = omap printTorrentList_row torrents /\
  total = total_size + foldr Z.add 0 (map row_have_bytes rows) /\
  in_int64 total = true.
Proof.
  revert total_size rows total.
  induction torrents as [|d rest IH]; intros total_size rows total.
  - simpl. intros [= <- <-] R. split; [reflexivity|]. split; [simpl; lia|assumption].
  - cbn [printTorrentList_rows].
    change (omap printTorrentList_row (d :: rest))
      with (match printTorrentList_row d with
            | Some y => y :: omap printTorrentList_row rest
            | None => omap printTorrentList_row rest
            end).
    destruct (printTorrentList_row d) as [row|]; [|apply IH].
    destruct (in_int64 (row_have_bytes row)); [|discriminate].
    destruct (in_int64 (total_size + row_have_bytes row)) eqn:R1; [|discriminate].
    cbn [andb].
    destruct (printTorrentList_rows rest (total_size + row_have_bytes row))
      as [[rows1 total1]|] eqn:E; [|discriminate].
    simpl. intros [= <- <-] R.
    destruct (IH _ _ _ E R1) as (-> & -> & R2).
    split; [reflexivity|]. split; [simpl; lia|assumption].
Qed.


End Lists.

(** * Sample runs of the rest of the front end *)

Module MoreSampleRuns.
Import Sample SampleMore.

Lemma processArgs_returns_the_bits_of_every_answer_witness :
  let top := tr_variantDictAddInt (new_request "session-get") TR_KEY_tag TAG_SESSION in
  Z.lor (status (final_state (processArgs [(OPT 920, None)])))
    (reply_status (daemon [] top)) =
  status (final_state (processArgs [(OPT 920, None)])) /\
  (status (final_state (processArgs [(OPT 920, None)])) = EXIT_SUCCESS ->
   reply_status (daemon [] top) = EXIT_SUCCESS).
Proof.
  apply (processArgs_returns_the_bits_of_every_answer [(OPT 920, None)] _ [] []);
    reflexivity.
Defined.

Lemma invalid_option_sets_the_returned_failure_bit_witness :
  Z.land
    (status (final_state (processArgs ([] ++ (TR_OPT_ERR, None) :: one_setting))))
    EXIT_FAILURE = EXIT_FAILURE.
Proof.
  apply (invalid_option_sets_the_returned_failure_bit [] one_setting TR_OPT_ERR None
           initial);
    [reflexivity|left; reflexivity|reflexivity].
Defined.


Lemma exit_leaves_pending_requests_unsent_witness :
  let st' := round_final (processArg (OPT 112) (Some "abc") setting_pending) in
  posted st' = posted setting_pending /\
  (is_Some (sset setting_pending) -> is_Some (sset st')) /\
  (is_Some (tset setting_pending) -> is_Some (tset st')) /\
  (is_Some (tadd setting_pending) -> is_Some (tadd st')).
Proof.
  apply (exit_leaves_pending_requests_unsent (OPT 112) (Some "abc") setting_pending _
           EXIT_FAILURE).
  reflexivity.
Defined.

Lemma processArg_never_aborts_on_table_options_witness :
  processArg (OPT 97) None initial <> Stop (Abort initial).
Proof.
  apply processArg_never_aborts_on_table_options.
  - exists (mk_option 97 "add" (Some "a") false). split; [now left|reflexivity].
  - split; [|split]; intros ? [=].
Defined.

Lemma options_without_argument_ignore_optarg_witness :
  processArg (OPT 97) (Some "x") initial = processArg (OPT 97) None initial.
Proof.
  apply (options_without_argument_ignore_optarg (mk_option 97 "add" (Some "a") false));
    [now left|reflexivity].
Defined.

Lemma session_settings_travel_in_one_request_witness :
  exists top,
    posted (final_state (processArgs two_settings)) = [top] /\
    is_request "session-set" top /\
    carries top TR_KEY_port_forwarding_enabled (VBool true) /\
    carries top TR_KEY_dht_enabled (VBool true).
Proof.
  destruct (session_settings_travel_in_one_request two_settings
              (final_state (processArgs two_settings)))
    as (top & Po & R & C).
  - discriminate.
  - repeat constructor.
  - reflexivity.
  - exists top. split; [exact Po|]. split; [exact R|]. split.
    + apply (C [] (OPT 109) None [(OPT 111, None)]); [reflexivity|now left|].
      constructor; [|constructor]. simpl. intros [E|[]]. discriminate E.
    + apply (C [(OPT 109, None)] (OPT 111) None []); [reflexivity|now left|].
      constructor.
Defined.

Lemma find_without_add_ends_the_loop_witness :
  processArgs ([] ++ (OPT 961, Some "/tmp") :: [(OPT 98, None)]) =
  processArgs ([] ++ [(OPT 961, Some "/tmp")]).
Proof.
  apply (find_without_add_ends_the_loop [] [(OPT 98, None)] (Some "/tmp") initial);
    reflexivity.
Defined.

Lemma numarg_reads_decimal_witness : numarg (decimal (-42)) = Some (-42).
Proof. apply numarg_reads_decimal. lia. Defined.

Lemma url_argument_is_posted_to_witness :
  exists rpcurl,
    tr_main ["transmission-remote"; "http://" +:+ "nas:9091/transmission"; "-l"] =
      Some (rpcurl, ["transmission-remote"; "-l"], false) /\
    rpcurl = "nas:9091/transmission" +:+ "/rpc/" /\
    rpcurl_http false rpcurl = ("http://" +:+ "nas:9091/transmission") +:+ "/rpc/" /\
    rpcurl_http true rpcurl = "https://" +:+ "nas:9091/transmission" +:+ "/rpc/" /\
    forall optarg st,
      processArg (OPT 820) optarg st = Next (with_UseSSL true st).
Proof.
  apply (url_argument_is_posted_to "transmission-remote" "nas:9091/transmission"
           ["-l"] false).
  reflexivity.
Defined.

Lemma host_and_port_argument_witness :
  tr_main ["transmission-remote"; "nas" +:+ ":" +:+ decimal 9091; "-l"] =
  Some ("nas" +:+ ":" +:+ decimal 9091 +:+ DefaultUrl, ["transmission-remote"; "-l"],
        false).
Proof.
  apply (host_and_port_argument "transmission-remote" "nas" 9091 ["-l"]);
    [reflexivity|reflexivity|discriminate|discriminate|lia].
Defined.

Lemma address_with_colons_keeps_the_port_witness :
  getHostAndPortAndRpcUrl ["transmission-remote"; "[::1]:8080"; "-l"]
    (mk_target "" 9091 "" false) =
  (["transmission-remote"; "-l"],
   mk_target
     (if char_code (char_at "[::1]:8080" 0) =? 91 then c_str "[::1]:8080"
      else "[" +:+ c_str "[::1]:8080" +:+ "]")
     9091 "" false).
Proof.
  apply (address_with_colons_keeps_the_port "transmission-remote" "[::1]:8080" ["-l"]
           (mk_target "" 9091 "" false) 1 5);
    [reflexivity|reflexivity|lia|discriminate|reflexivity|reflexivity].
Defined.

Lemma port_argument_witness :
  tr_main ["transmission-remote"; decimal 9092; "-l"] =
  Some (DefaultHost +:+ ":" +:+ decimal 9092 +:+ DefaultUrl,
        ["transmission-remote"; "-l"], false).
Proof. apply (port_argument "transmission-remote" 9092 ["-l"]). lia. Defined.

Lemma unknown_eta_in_list_and_details_witness :
  etaToString 16 (-1) = "Unknown" /\
  (forall row left,
     printTorrentList_row torrent_without_eta = Some row ->
     tr_variantDictFindInt torrent_without_eta TR_KEY_leftUntilDone = Some left ->
     row_eta row = if (left =? 0) && (-1 =? -1) then "Done" else "Unknown") /\
  (wrap_int (-1) < 0 ->
   printDetails_eta torrent_without_eta = Some "0 seconds (0 seconds)") /\
  (- 2 ^ 31 <= -1 -> wrap_int (-1) = -1).
Proof.
  apply (unknown_eta_in_list_and_details torrent_without_eta (-1));
    [reflexivity|lia].
Defined.

Lemma schedule_shows_the_time_given_witness :
  exists time,
    tr_variantDictAddInt no_arguments TR_KEY_alt_speed_time_begin 570 =
      tr_variantDictAddInt no_arguments TR_KEY_alt_speed_time_begin time /\
    schedule_clock time = (hour_part "0930", minute_part "0930").
Proof.
  apply (schedule_shows_the_time_given no_arguments _
           TR_KEY_alt_speed_time_begin "0930").
  reflexivity.
Defined.

Lemma availability_divides_by_zero_size_witness :
  exists p,
    printDetails_availability torrent_without_size =
      Some (mk_availability true (Some p)) /\
    percent_divisor p = 0.
Proof.
  apply (availability_divides_by_zero_size torrent_without_size 0 0); reflexivity.
Defined.

Lemma schedule_shows_the_days_given_witness :
  schedule_day_names (addDays_loop 0 [1; 2; 3; 4; 5; 7]) =
  map snd
    (List.filter
       (fun d => existsb (fun day => (0 <=? day) && (day <=? 7) &&
                                     ((if day =? 7 then 0 else day) =? d.1))
                   [1; 2; 3; 4; 5; 7])
       week).
Proof. apply schedule_shows_the_days_given. reflexivity. Defined.

Lemma labels_accumulate_witness :
  tr_variantDictFindList
    (addLabels (addLabels no_arguments "linux,iso") "debian") TR_KEY_labels =
  Some (list_under no_arguments TR_KEY_labels ++
        map VStr (tr_strvSep_tokens "linux,iso") ++ map VStr (tr_strvSep_tokens "debian")).
Proof.
  apply labels_accumulate. split; [now eexists|left; reflexivity].
Defined.


End MoreSampleRuns.
